(** * Shrdlite planner: A* search over block-world states

    A shallow embedding of [Graph.ts] (the generic A* engine), of the latest
    revision of [Planner.ts] (state-space adapter, heuristics and goal test)
    and of the [heuristics] of its earlier revision, followed by the
    properties the design document states about them.

    Conventions.
    - JavaScript numbers that hold array indices, counts and costs are [Z];
      [Math.min.apply(null, [])] is the one place where [Infinity] arises, so
      the heuristic value has type [number].
    - [undefined] and [null] are both rendered by [None]; every definition
      says which of the two its [option] stands for.
    - A run-time [TypeError] (member access on [undefined]) and the two
      [Error]s thrown by the search are the exceptions of the [result] monad.
    - [JSON.parse(JSON.stringify(stacks))] is a deep copy of an array of
      arrays of strings; values are immutable here, so it is the identity. *)

From stdpp Require Import base option list strings gmap pretty.
From Stdlib Require Import ZArith Lia.

Set Warnings "-clear-no-such-hyp".

Open Scope Z_scope.
Open Scope string_scope.
Open Scope list_scope.

(** ** Exceptions *)

Inductive exn : Type :=
  | TypeError      (* member access on undefined *)
  | SearchTimeout  (* Error("Reached timeout before finding a path") *)
  | NoPath.        (* Error("Could not find a path") *)

Inductive result (A : Type) : Type :=
  | Ok (a : A)
  | Throw (e : exn).
Arguments Ok {A} a.
Arguments Throw {A} e.

#[export] Instance result_ret : MRet result := @Ok.
#[export] Instance result_bind : MBind result :=
  fun A B f m => match m with Ok a => f a | Throw e => Throw e end.
#[export] Instance result_fmap : FMap result :=
  fun A B f m => match m with Ok a => Ok (f a) | Throw e => Throw e end.

(** [defined o]: use a value that the code dereferences; [undefined] throws. *)
Definition defined {A} (o : option A) : result A :=
  match o with Some a => Ok a | None => Throw TypeError end.

(** ** JavaScript primitives used by the planner *)

Module JS.

(** [a[i]] for a number [i]: [undefined] outside [0 .. length-1]. *)
Definition get {A} (a : list A) (i : Z) : option A :=
  if bool_decide (i < 0) then None else a !! Z.to_nat i.

(** [a[i] = x] for an index inside the array. *)
Definition set {A} (a : list A) (i : Z) (x : A) : list A :=
  if bool_decide (i < 0) then a else <[Z.to_nat i := x]> a.

Definition length {A} (a : list A) : Z := Z.of_nat (List.length a).

(** Truthiness of a string-or-missing value: the empty string is falsy. *)
Definition truthy (s : option string) : bool :=
  match s with
  | Some s => negb (bool_decide (s = ""))
  | None => false
  end.

Fixpoint indexOf_from (a : list string) (e : string) (i : Z) : Z :=
  match a with
  | [] => -1
  | x :: a' => if bool_decide (x = e) then i else indexOf_from a' e (i + 1)
  end.

(** [a.indexOf(e)] on an array of strings; [e = None] is [undefined] (or
    [null]), which no string is strictly equal to. *)
Definition indexOf (a : list string) (e : option string) : Z :=
  match e with
  | Some s => indexOf_from a s 0
  | None => -1
  end.

(** [lit.indexOf(x) > -1] for a literal array of strings. *)
Definition among (x : option string) (lit : list string) : bool :=
  bool_decide (-1 < indexOf lit x).

(** Start index of [splice]: negative counts from the end. *)
Definition splice_start {A} (a : list A) (start : Z) : nat :=
  if bool_decide (start < 0) then Z.to_nat (Z.max (length a + start) 0)
  else Z.to_nat (Z.min start (length a)).

(** [a.splice(start, 1)]: the array that remains. *)
Definition splice1 {A} (a : list A) (start : Z) : list A :=
  let s := splice_start a start in take s a ++ drop (S s) a.

(** [a.splice(start)]: everything from [start] on is removed. *)
Definition splice_to_end {A} (a : list A) (start : Z) : list A :=
  take (splice_start a start) a.

(** [a.pop()] on a non-empty array: the popped element and the rest. *)
Definition pop {A} (a : list A) : option (A * list A) :=
  match last a with
  | Some x => Some (x, removelast a)
  | None => None
  end.

(** [a.join(sep)]. *)
Fixpoint join (sep : string) (a : list string) : string :=
  match a with
  | [] => ""
  | [x] => x
  | x :: a' => x +:+ sep +:+ join sep a'
  end.

(** The names that every object inherits from [Object.prototype]: for such
    a [key], [object[key]] is a function (or, for [__proto__], the prototype
    itself) and not [undefined], also when the object has no entry of its
    own under that name. *)
Definition Object_prototype : list string :=
  ["constructor"; "hasOwnProperty"; "isPrototypeOf"; "propertyIsEnumerable";
   "toLocaleString"; "toString"; "valueOf"; "__proto__";
   "__defineGetter__"; "__defineSetter__"; "__lookupGetter__"; "__lookupSetter__"].

Definition inherited (key : string) : bool := bool_decide (key ∈ Object_prototype).

End JS.

(** ** Data model *)

(** The [number] type where [Infinity] can occur. *)
Inductive number : Type :=
  | Num (z : Z)
  | Infinity.

Definition num_add (a b : number) : number :=
  match a, b with
  | Num x, Num y => Num (x + y)
  | _, _ => Infinity
  end.

Definition num_le (a b : number) : Prop :=
  match a, b with
  | Num x, Num y => x <= y
  | _, Infinity => True
  | Infinity, Num _ => False
  end.

Definition num_leb (a b : number) : bool :=
  match a, b with
  | Num x, Num y => bool_decide (x <= y)
  | _, Infinity => true
  | Infinity, Num _ => false
  end.

(** [Math.min.apply(null, xs)]. *)
Definition Math_min (xs : list Z) : number :=
  match xs with
  | [] => Infinity
  | x :: xs' => Num (foldl Z.min x xs')
  end.

(** [ObjectDefinition] of World.ts: three strings. *)
Record ObjectDefinition : Type := mkObject {
  form : string;
  size : string;
  color : string
}.

Definition Stack : Type := list string.

(** [Interpreter.Literal]. [polarity] is carried but the planner never reads it. *)
Record Literal : Type := mkLiteral {
  polarity : bool;
  relation : string;
  args : list string
}.

Definition Conjunction : Type := list Literal.
Definition DNFFormula : Type := list Conjunction.

(** [PlannerNode]. [holding = None] is [null]; [command] and [description]
    are the optional constructor arguments ([None] is [undefined]). *)
Record PlannerNode : Type := mkPlannerNode {
  stacks : list Stack;
  holding : option string;
  arm : Z;
  command : option string;
  description : option string
}.

(** The fields of [WorldState] that the planner reads. *)
Record WorldState : Type := mkWorldState {
  w_stacks : list Stack;
  w_holding : option string;
  w_arm : Z;
  w_objects : gmap string ObjectDefinition
}.

(** The document [{stacks, holding, arm}] that [PlannerNode.toString]
    serialises.  [JSON.stringify] is injective on such documents, so the text
    is represented by the document it encodes. *)
Record StateJSON : Type := mkStateJSON {
  j_stacks : list Stack;
  j_holding : option string;
  j_arm : Z
}.

#[export] Instance StateJSON_eq_dec : EqDecision StateJSON.
Proof. solve_decision. Defined.

Definition toString (n : PlannerNode) : StateJSON :=
  {| j_stacks := stacks n; j_holding := holding n; j_arm := arm n |}.

(** [objects[e]] followed by a member access whose value is used:
    [TypeError] when [e] is not a key of the catalog.  Data model: an
    identifier that the catalog does not have does not name an inherited
    property ([JS.Object_prototype]); for such an identifier the code reads
    the inherited function, whose fields are [undefined], where this
    definition throws. *)
Definition object_of (objects : gmap string ObjectDefinition) (e : string)
  : result ObjectDefinition :=
  defined (objects !! e).

(** [objects[e].field] where the value read is not used further: the field
    of the entry of [e]; [undefined] ([None]) when [e] has no entry but names
    an inherited property, whose value has no such field; [TypeError] when
    [objects[e]] is [undefined].  An [undefined] [e] is the key
    ["undefined"]. *)
Definition field_of (objects : gmap string ObjectDefinition) (e : option string)
    (field : ObjectDefinition -> string) : result (option string) :=
  let key := default "undefined" e in
  match objects !! key with
  | Some o => Ok (Some (field o))
  | None => if JS.inherited key then Ok None else Throw TypeError
  end.

(** ** Planner.ts: helpers *)

Fixpoint getStackIndex_from (stacks : list Stack) (entity : option string) (i : Z)
  : option Z :=
  match stacks with
  | [] => None
  | s :: rest =>
      if bool_decide (-1 < JS.indexOf s entity) then Some i
      else getStackIndex_from rest entity (i + 1)
  end.

(** [getStackIndex(stacks, entity)]: the first stack holding [entity], or
    [undefined] ([None]) when the loop finds none and no default was passed. *)
Definition getStackIndex (stacks : list Stack) (entity : option string) : option Z :=
  getStackIndex_from stacks entity 0.

(** [getStackIndex(stacks, entity, _default)]. *)
Definition getStackIndexD (stacks : list Stack) (entity : option string) (_default : Z) : Z :=
  default _default (getStackIndex stacks entity).

(** [mapNumberToText(num)]; every caller concatenates the result into a
    string, so the [undefined] read off the end of the three-element array
    appears as the text it is converted to. *)
Definition mapNumberToText (num : Z) : string :=
  if bool_decide (2 < num) then pretty (num + 1) +:+ "th"
  else default "undefined" (JS.get ["first"; "second"; "third"] num).

(** [existing.reduce((sum, e) => sum + (p(objects[e], objects[entity]) ? 1 : 0), 0)].
    The callback reads [objects[e]] and then [objects[entity]] for every
    element, so an entity missing from the catalog throws only when the
    array is not empty. *)
Fixpoint countSame (objects : gmap string ObjectDefinition)
    (p : ObjectDefinition -> ObjectDefinition -> bool)
    (entity : string) (existing : list string) (sum : Z) : result Z :=
  match existing with
  | [] => Ok sum
  | e :: rest =>
      oe ← object_of objects e;
      ot ← object_of objects entity;
      countSame objects p entity rest (sum + (if p oe ot then 1 else 0))
  end.

Definition sameForm (a b : ObjectDefinition) : bool :=
  bool_decide (form a = form b).
Definition sameFormColor (a b : ObjectDefinition) : bool :=
  bool_decide (form a = form b) && bool_decide (color a = color b).
Definition sameFormSize (a b : ObjectDefinition) : bool :=
  bool_decide (form a = form b) && bool_decide (size a = size b).
Definition sameFormColorSize (a b : ObjectDefinition) : bool :=
  bool_decide (form a = form b) && bool_decide (color a = color b)
  && bool_decide (size a = size b).

(** [getDescription(node, objects, entity, action)]. *)
Definition getDescription (node : PlannerNode) (objects : gmap string ObjectDefinition)
    (entity : option string) (action : option string) : result string :=
  let result0 :=
    if bool_decide (action = Some "p") then "Picking up "
    else if bool_decide (action = Some "d") then "Putting it "
    else "" in
  body ←
    match entity with
    | Some ent =>
      if JS.truthy entity then
        result1 ←
          (if bool_decide (action ≠ Some "p") then
             o ← object_of objects ent;
             Ok (result0 +:+ (if bool_decide (form o = "box") then "inside " else "on "))
           else Ok result0);
        existing ←
          (if JS.among action ["p"; "d"] then
             let existing := concat (stacks node) in
             let existing :=
               match holding node with
               | Some h => existing ++ [h]
               | None => existing
               end in
             Ok (JS.splice1 existing (JS.indexOf existing entity))
           else
             i ← defined (getStackIndex (stacks node) entity);
             s ← defined (JS.get (stacks node) i);
             Ok (JS.splice1 s (JS.indexOf s entity)));
        numSameForm ← countSame objects sameForm ent existing 0;
        numSameFormColor ← countSame objects sameFormColor ent existing 0;
        numSameFormSize ← countSame objects sameFormSize ent existing 0;
        numSameFormColorSize ← countSame objects sameFormColorSize ent existing 0;
        o ← object_of objects ent;
        if bool_decide (numSameForm = 0) then
          Ok (result1 +:+ "the " +:+ form o)
        else if bool_decide (numSameFormColor = 0) then
          Ok (result1 +:+ "the " +:+ color o +:+ " " +:+ form o)
        else if bool_decide (numSameFormSize = 0) then
          Ok (result1 +:+ "the " +:+ size o +:+ " " +:+ form o)
        else if bool_decide (numSameFormColorSize = 0) then
          Ok (result1 +:+ "the " +:+ size o +:+ " " +:+ color o +:+ " " +:+ form o)
        else
          result2 ←
            (if JS.truthy action then Ok (result1 +:+ "a ")
             else
               i ← defined (getStackIndex (stacks node) entity);
               s ← defined (JS.get (stacks node) i);
               let existing := JS.splice_to_end s (JS.indexOf s entity) in
               k ← countSame objects sameFormColorSize ent existing 0;
               Ok (result1 +:+ "the " +:+ mapNumberToText k +:+ " "));
          Ok (result2 +:+ size o +:+ " " +:+ color o +:+ " " +:+ form o)
      else Ok (result0 +:+ "on the floor")
    | None => Ok (result0 +:+ "on the floor")
    end;
  Ok (body +:+ (if JS.truthy action then "." else "")).

(** ** Planner.ts: heuristics *)

(** [held === x] where [held] is a string or [null] and [x] is a string or
    [undefined]: [null] and [undefined] are not strictly equal. *)
Definition strict_eq (held x : option string) : bool :=
  match held, x with
  | Some a, Some b => bool_decide (a = b)
  | _, _ => false
  end.

Definition numAbove (s : Stack) (stackPos : Z) : Z :=
  if bool_decide (stackPos = -1) then 0 else JS.length s - stackPos - 1.

(** The three statements that [heuristics] repeats for each entity:
    [getStackIndex(n.stacks, e, n.arm)], [n.stacks[index].indexOf(e)] and the
    number of entities above.  The result is (index, position, above). *)
Definition locate (n : PlannerNode) (e : option string) : result (Z * Z * Z) :=
  let stackIndex := getStackIndexD (stacks n) e (arm n) in
  s ← defined (JS.get (stacks n) stackIndex);
  let stackPos := JS.indexOf s e in
  Ok (stackIndex, stackPos, numAbove s stackPos).

(** One run of the callback of [interpretation.forEach]: the amount it adds
    to [_heuristics] for [condition]. *)
Definition conditionCost (n : PlannerNode) (condition : Literal) : result Z :=
  let rel := Some (relation condition) in
  let first := args condition !! 0%nat in
  '(firstStackIndex, firstStackPos, numAboveFirst) ← locate n first;
  if bool_decide (relation condition = "holding") && negb (strict_eq (holding n) first) then
    Ok (Z.abs (firstStackIndex - arm n) + numAboveFirst * 4
        + (if JS.truthy (holding n) then 2 else 1))
  else
    let second := args condition !! 1%nat in
    let swap := JS.among rel ["rightof"; "under"] in
    let '(first, second) := if swap then (second, first) else (first, second) in
    '(firstStackIndex, firstStackPos, numAboveFirst) ←
       (if swap then locate n first
        else Ok (firstStackIndex, firstStackPos, numAboveFirst));
    '(secondStackIndex, secondStackPos, numAboveSecond) ← locate n second;
    let stackDifference := Z.abs (firstStackIndex - secondStackIndex) in
    let holdingOneOfThem :=
      bool_decide (firstStackPos = -1) || bool_decide (secondStackPos = -1) in
    let last := JS.length (stacks n) - 1 in
    if JS.among rel ["leftof"; "rightof"]
       && negb (bool_decide (firstStackIndex < secondStackIndex) && negb holdingOneOfThem)
    then
      if negb holdingOneOfThem then
        if bool_decide (secondStackIndex = 0) && bool_decide (firstStackIndex = last) then
          Ok (Z.min (Z.abs (firstStackIndex - arm n)) (Z.abs (secondStackIndex - arm n))
              + Z.abs (firstStackIndex - secondStackIndex) * 2
              + (numAboveFirst + numAboveSecond) * 4 + 2)
        else if bool_decide (secondStackIndex = 0) then
          Ok (Z.abs (secondStackIndex - arm n) + numAboveSecond * 4 + 1
              + Z.abs (firstStackIndex - secondStackIndex) + 2)
        else if bool_decide (firstStackIndex = last) then
          Ok (Z.abs (firstStackIndex - arm n) + numAboveFirst * 4 + 1
              + Z.abs (firstStackIndex - secondStackIndex) + 2)
        else
          Ok (Z.min (Z.abs (firstStackIndex - arm n) + numAboveFirst * 4)
                    (Z.abs (secondStackIndex - arm n) + numAboveSecond * 4)
              + 1 + Z.abs (firstStackIndex - secondStackIndex) + 2)
      else
        if (strict_eq (holding n) first && bool_decide (arm n < secondStackIndex))
           || (strict_eq (holding n) second && bool_decide (arm n > firstStackIndex))
        then Ok 1
        else
          let travel :=
            if strict_eq (holding n) first then arm n - secondStackIndex + 2
            else firstStackIndex - arm n + 2 in
          if strict_eq (holding n) first && bool_decide (secondStackIndex = 0) then
            Ok (travel + (numAboveSecond * 4 + 3))
          else if strict_eq (holding n) second && bool_decide (firstStackIndex = last) then
            Ok (travel + (numAboveFirst * 4 + 3))
          else Ok travel
    else if bool_decide (relation condition = "beside")
            && negb (bool_decide (stackDifference = 1) && negb holdingOneOfThem)
    then
      if negb holdingOneOfThem then
        Ok (Z.min (Z.abs (firstStackIndex - arm n) + numAboveFirst * 4)
                  (Z.abs (secondStackIndex - arm n) + numAboveSecond * 4)
            + 1 + Z.abs (firstStackIndex - secondStackIndex))
      else
        Ok (if strict_eq (holding n) first then Z.abs (secondStackIndex - arm n)
            else Z.abs (firstStackIndex - arm n))
    else if JS.among rel ["inside"; "ontop"]
            && negb (bool_decide (stackDifference = 0)
                     && bool_decide (firstStackPos = secondStackPos + 1)
                     && negb holdingOneOfThem)
    then
      if negb (strict_eq (holding n) first) then
        Ok (Z.abs (firstStackIndex - arm n) + numAboveFirst * 4 + 1
            + Z.abs (firstStackIndex - secondStackIndex) + numAboveSecond * 4 + 1)
      else
        Ok (Z.abs (secondStackIndex - arm n) + numAboveSecond * 4 + 1)
    else if JS.among rel ["above"; "under"]
            && negb (bool_decide (stackDifference = 0)
                     && bool_decide (firstStackPos > secondStackPos)
                     && negb holdingOneOfThem)
    then
      if negb (strict_eq (holding n) first) then
        Ok (Z.abs (firstStackIndex - arm n) + numAboveFirst * 4 + 1
            + Z.abs (firstStackIndex - secondStackIndex) + 1)
      else
        Ok (Z.abs (secondStackIndex - arm n) + 1)
    else Ok 0.

(** [interpretation.forEach(...)] with the accumulator [_heuristics]. *)
Fixpoint conjunctionCost (n : PlannerNode) (interpretation : Conjunction)
    (_heuristics : Z) : result Z :=
  match interpretation with
  | [] => Ok _heuristics
  | condition :: rest =>
      d ← conditionCost n condition;
      conjunctionCost n rest (_heuristics + d)
  end.

(** [interpretations.forEach(...)] pushing onto the array [result] (here
    [results]). *)
Fixpoint heuristics_loop (n : PlannerNode) (interpretations : DNFFormula)
    (results : list Z) : result (list Z) :=
  match interpretations with
  | [] => Ok results
  | interpretation :: rest =>
      h ← conjunctionCost n interpretation 0;
      heuristics_loop n rest (results ++ [h])
  end.

Definition heuristics (interpretations : DNFFormula) (n : PlannerNode) : result number :=
  r ← heuristics_loop n interpretations [];
  Ok (Math_min r).

(** ** Planner.ts: goal test *)

(** The body of the inner loop of [goal]: the value of [conditionFulfilled]
    after examining [condition], given that it was [true] before.  The
    diagnostic counter [goalCount] is only printed and is left out. *)
Definition conditionHolds (objects : gmap string ObjectDefinition) (n : PlannerNode)
    (condition : Literal) : result bool :=
  let first := args condition !! 0%nat in
  if bool_decide (relation condition = "holding") then
    Ok (strict_eq (holding n) first)
  else
    let second := args condition !! 1%nat in
    match getStackIndex (stacks n) first with
    | None => Ok false
    | Some firstStackIndex =>
        s1 ← defined (JS.get (stacks n) firstStackIndex);
        let firstStackPos := JS.indexOf s1 first in
        if bool_decide (second ≠ Some "floor") then
          match getStackIndex (stacks n) second with
          | None => Ok false
          | Some secondStackIndex =>
              s2 ← defined (JS.get (stacks n) secondStackIndex);
              let secondStackPos := JS.indexOf s2 second in
              secondType ← field_of objects second form;
              if bool_decide (relation condition = "leftof") then
                Ok (bool_decide (firstStackIndex < secondStackIndex))
              else if bool_decide (relation condition = "rightof") then
                Ok (bool_decide (firstStackIndex > secondStackIndex))
              else if bool_decide (relation condition = "beside") then
                Ok (bool_decide (Z.abs (firstStackIndex - secondStackIndex) = 1))
              else if JS.among (Some (relation condition)) ["inside"; "ontop"] then
                Ok (negb (negb (bool_decide (firstStackPos - secondStackPos = 1))
                          || bool_decide (firstStackIndex ≠ secondStackIndex)))
              else if bool_decide (relation condition = "above") then
                Ok (negb (negb (bool_decide (firstStackPos > secondStackPos))
                          || bool_decide (firstStackIndex ≠ secondStackIndex)))
              else if bool_decide (relation condition = "under") then
                Ok (negb (negb (bool_decide (firstStackPos < secondStackPos))
                          || bool_decide (firstStackIndex ≠ secondStackIndex)))
              else Ok true
          end
        else if bool_decide (relation condition = "ontop")
                && bool_decide (firstStackPos ≠ 0) then Ok false
        else Ok true
    end.

(** The inner [for] loop: runs while [conditionFulfilled] is still true. *)
Fixpoint conjunctionHolds (objects : gmap string ObjectDefinition) (n : PlannerNode)
    (interpretation : Conjunction) : result bool :=
  match interpretation with
  | [] => Ok true
  | condition :: rest =>
      conditionHolds objects n condition ≫= λ conditionFulfilled : bool,
      if conditionFulfilled then conjunctionHolds objects n rest else Ok false
  end.

(** [goal(interpretations, objects, n)]: the outer loop runs while [_goal]
    is still false. *)
Fixpoint goal (interpretations : DNFFormula) (objects : gmap string ObjectDefinition)
    (n : PlannerNode) : result bool :=
  match interpretations with
  | [] => Ok false
  | interpretation :: rest =>
      conjunctionHolds objects n interpretation ≫= λ conditionFulfilled : bool,
      if conditionFulfilled then Ok true else goal rest objects n
  end.

(** ** Graph.ts *)

Record Edge (Node : Type) : Type := mkEdge {
  from : Node;
  to : Node;
  cost : Z
}.
Arguments mkEdge {Node}.
Arguments from {Node}.
Arguments to {Node}.
Arguments cost {Node}.

(** [interface Graph<Node>]. *)
Record Graph (Node : Type) : Type := mkGraph {
  outgoingEdges : Node -> result (list (Edge Node));
  compareNodes : Node -> Node -> Z
}.
Arguments mkGraph {Node}.
Arguments outgoingEdges {Node}.
Arguments compareNodes {Node}.

Record SearchResult (Node : Type) : Type := mkSearchResult {
  path : list Node;
  path_cost : Z
}.
Arguments mkSearchResult {Node}.
Arguments path {Node}.
Arguments path_cost {Node}.

(** [class QueueElement<Node>]; [parent = None] is [null]. *)
#[warnings="-register-all"] Inductive QueueElement (Node : Type) : Type :=
  | mkQueueElement (parent : option (QueueElement Node)) (node : Node) (g : Z) (f : number).
Arguments mkQueueElement {Node}.

Definition qe_parent {Node} (q : QueueElement Node) : option (QueueElement Node) :=
  match q with mkQueueElement p _ _ _ => p end.
Definition qe_node {Node} (q : QueueElement Node) : Node :=
  match q with mkQueueElement _ n _ _ => n end.
Definition qe_g {Node} (q : QueueElement Node) : Z :=
  match q with mkQueueElement _ _ g _ => g end.
Definition qe_f {Node} (q : QueueElement Node) : number :=
  match q with mkQueueElement _ _ _ f => f end.

(** The constructor: [this.f = g + h]. *)
Definition newQueueElement {Node} (parent : option (QueueElement Node)) (node : Node)
    (g : Z) (h : number) : QueueElement Node :=
  mkQueueElement parent node g (num_add (Num g) h).

(** Modelled from the spec: [collections.PriorityQueue] of lib/collections.ts
    is not part of the sources at hand.  The frontier is "a priority
    collection ordered by ascending f": the search only adds elements, asks
    whether the queue is empty and dequeues.  [pq_dequeue q = None] is
    [q.isEmpty()]; [pq_elements] is the bag of contents that the laws below
    speak of. *)
Class PriorityQueue (E : Type) : Type := {
  pq : Type;
  pq_empty : pq;
  pq_add : E -> pq -> pq;
  pq_dequeue : pq -> option (E * pq);
  pq_elements : pq -> list E
}.

(** Modelled from the spec: what the search relies on when the queue is
    built with the comparator [b.f - a.f]: nothing is lost or invented, and
    a dequeued element has the lowest priority value of the contents. *)
Class LawfulQueue {E : Type} (prio : E -> number) (Q : PriorityQueue E) : Prop := {
  pq_elements_empty : pq_elements pq_empty = [];
  pq_elements_add : forall x q, pq_elements (pq_add x q) ≡ₚ x :: pq_elements q;
  pq_dequeue_None : forall q, pq_dequeue q = None <-> pq_elements q = [];
  pq_dequeue_Some : forall q x q',
    pq_dequeue q = Some (x, q') ->
    pq_elements q ≡ₚ x :: pq_elements q'
    /\ Forall (fun y => num_le (prio x) (prio y)) (pq_elements q')
}.

Section AStar.
Context {Node Key : Type} `{EqDecision Key}.
(** [toStr] is the node's [toString], by which [collections.Set] keys its
    members. *)
Variable toStr : Node -> Key.
Context `{PQ : PriorityQueue (QueueElement Node)}.

(** Modelled from the spec: [collections.Set] of lib/collections.ts is not
    part of the sources at hand.  The closed set is "a set of previously
    expanded State values, compared by structural equality": membership
    compares the members' [toString].  The members are kept in insertion
    order. *)
Definition Set_contains (s : list Node) (x : Node) : bool :=
  bool_decide (toStr x ∈ toStr <$> s).

Definition Set_add (s : list Node) (x : Node) : list Node :=
  if Set_contains s x then s else s ++ [x].

Variable graph : Graph Node.
Variable goal_ : Node -> result bool.
Variable heuristics_ : Node -> result number.
(** [timeout] is in seconds; [clock k] is the value of the [k]-th call of
    [new Date().getTime()] made by the search, in milliseconds. *)
Variable timeout : Z.
Variable clock : nat -> Z.

(** [while (current) { result.path.push(current.node); current = current.parent; }] *)
Fixpoint backtrack (current : QueueElement Node) : list Node :=
  match current with
  | mkQueueElement parent node _ _ =>
      node :: match parent with
              | Some p => backtrack p
              | None => []
              end
  end.

(** [for (var edge of graph.outgoingEdges(current.node))]. *)
Fixpoint addNeighbours (current : QueueElement Node) (edges : list (Edge Node))
    (visited : list Node) (frontier : pq) : result pq :=
  match edges with
  | [] => Ok frontier
  | edge :: rest =>
      if negb (Set_contains visited (to edge)) then
        h ← heuristics_ (to edge);
        addNeighbours current rest visited
          (pq_add (newQueueElement (Some current) (to edge)
                     (qe_g current + cost edge) h) frontier)
      else addNeighbours current rest visited frontier
  end.

(** The [while] loop.  [reads] counts the clock readings made so far.
    [expanded] is a ghost log, absent from the code: the nodes that were
    handed to [graph.outgoingEdges], in order; it is returned next to the
    outcome.  The outcome [None] means that [fuel] iterations did not
    finish the loop. *)
Fixpoint aStarLoop (fuel : nat) (reads : nat) (frontier : pq)
    (visited expanded : list Node)
  : option (result (SearchResult Node)) * list Node :=
  match fuel with
  | O => (None, expanded)
  | S fuel' =>
      match pq_dequeue frontier with
      | None => (Some (Throw NoPath), expanded)
      | Some (current, frontier) =>
          if bool_decide (clock reads - clock 0 > timeout * 1000) then
            (Some (Throw SearchTimeout), expanded)
          else if negb (Set_contains visited (qe_node current)) then
            match goal_ (qe_node current) with
            | Throw e => (Some (Throw e), expanded)
            | Ok true =>
                (Some (Ok {| path := reverse (backtrack current);
                             path_cost := qe_g current |}), expanded)
            | Ok false =>
                let visited := Set_add visited (qe_node current) in
                let expanded := expanded ++ [qe_node current] in
                match outgoingEdges graph (qe_node current) with
                | Throw e => (Some (Throw e), expanded)
                | Ok edges =>
                    match addNeighbours current edges visited frontier with
                    | Throw e => (Some (Throw e), expanded)
                    | Ok frontier =>
                        aStarLoop fuel' (S reads) frontier visited expanded
                    end
                end
            end
          else aStarLoop fuel' (S reads) frontier visited expanded
      end
  end.

(** [aStarSearch(graph, start, goal, heuristics, timeout)] together with
    the ghost log of expanded nodes.  [clock 0] is [startTime]. *)
Definition aStarRun (fuel : nat) (start : Node)
  : option (result (SearchResult Node)) * list Node :=
  match heuristics_ start with
  | Throw e => (Some (Throw e), [])
  | Ok h =>
      aStarLoop fuel 1 (pq_add (newQueueElement None start 0 h) pq_empty) [] []
  end.

Definition aStarSearch (fuel : nat) (start : Node)
  : option (result (SearchResult Node)) :=
  (aStarRun fuel start).1.

End AStar.

(** ** Planner.ts: the state-space adapter *)

Module PlannerGraph.

(** The first test of the callback: commands that cancel the one that led
    to [node] are skipped. *)
Definition cancels (previous : option string) (command : string) : bool :=
  (bool_decide (previous = Some "l") && bool_decide (command = "r"))
  || (bool_decide (previous = Some "r") && bool_decide (command = "l"))
  || (bool_decide (previous = Some "p") && bool_decide (command = "d"))
  || (bool_decide (previous = Some "d") && bool_decide (command = "p")).

(** The disjunction that makes the ['d'] branch return without an edge,
    apart from [holding === null].  [None] is [null]. *)
Definition unsupported (topForm topSize holdForm holdSize : option string) : bool :=
  (* Small objects cannot support large objects *)
  (bool_decide (topSize = Some "small") && bool_decide (holdSize = Some "large"))
  (* Balls must be in boxes or on the floor, otherwise they roll away *)
  || (JS.truthy topForm && bool_decide (topForm ≠ Some "box")
      && bool_decide (holdForm = Some "ball"))
  (* Balls cannot support anything *)
  || bool_decide (topForm = Some "ball")
  (* Boxes cannot contain pyramids, planks or boxes of the same size *)
  || (bool_decide (topForm = Some "box")
      && bool_decide (JS.indexOf ["pyramid"; "plank"; "box"] holdForm ≠ -1)
      && bool_decide (topSize = holdSize))
  (* Small boxes cannot be supported by small bricks or pyramids *)
  || (bool_decide (topSize = Some "small")
      && bool_decide (JS.indexOf ["brick"; "pyramid"] topForm ≠ -1)
      && bool_decide (holdForm = Some "box"))
  (* Large boxes cannot be supported by large pyramids *)
  || (bool_decide (topForm = Some "pyramid") && bool_decide (holdForm = Some "box")
      && bool_decide (holdSize = topSize)).

(** [cond ? self.objects[e].field : null].  Data model, as for [object_of]:
    an identifier that the catalog does not have does not name an inherited
    property ([JS.Object_prototype]); for such an identifier the code reads
    [undefined] where this definition throws. *)
Definition fieldOrNull (objects : gmap string ObjectDefinition) (cond : bool)
    (e : option string) (field : ObjectDefinition -> string) : result (option string) :=
  if cond then o ← defined (e ≫= (objects !!.)); Ok (Some (field o)) else Ok None.

(** One run of the callback of [['l', 'r', 'p', 'd'].forEach] for the
    command [cmd]: [None] when it returns early, the pushed edge otherwise. *)
Definition outgoingEdge (objects : gmap string ObjectDefinition) (node : PlannerNode)
    (cmd : string) : result (option (Edge PlannerNode)) :=
  let push stacks holding arm description :=
    Some {| from := node;
            to := mkPlannerNode stacks holding arm (Some cmd) description;
            cost := 1 |} in
  if cancels (command node) cmd then Ok None
  else
    let stacks := stacks node in
    let holding := holding node in
    let arm := arm node in
    if bool_decide (cmd = "l") then
      if bool_decide (arm <= 0) then Ok None
      else Ok (push stacks holding (arm - 1) None)
    else if bool_decide (cmd = "r") then
      if bool_decide (arm >= JS.length stacks - 1) then Ok None
      else Ok (push stacks holding (arm + 1) None)
    else if bool_decide (cmd = "p") then
      if bool_decide (holding ≠ None) then Ok None
      else
        s ← defined (JS.get stacks arm);
        match JS.pop s with
        | None => Ok None
        | Some (top, s') =>
            description ← getDescription node objects (Some top) (Some "p");
            Ok (push (JS.set stacks arm s') (Some top) arm (Some description))
        end
    else if bool_decide (cmd = "d") then
      holdForm ← fieldOrNull objects (JS.truthy holding) holding form;
      holdSize ← fieldOrNull objects (JS.truthy holding) holding size;
      s ← defined (JS.get stacks arm);
      topForm ← fieldOrNull objects (JS.truthy (JS.get s 0)) (JS.get s (JS.length s - 1)) form;
      topSize ← fieldOrNull objects (JS.truthy (JS.get s 0)) (JS.get s (JS.length s - 1)) size;
      match holding with
      | None => Ok None
      | Some held =>
          if unsupported topForm topSize holdForm holdSize then Ok None
          else
            let s' := s ++ [held] in
            description ←
              getDescription node objects (JS.get s' (JS.length s' - 2)) (Some "d");
            Ok (push (JS.set stacks arm s') None arm (Some description))
      end
    else Ok (push stacks holding arm None).

Fixpoint outgoingEdges_loop (objects : gmap string ObjectDefinition) (node : PlannerNode)
    (commands : list string) (outgoing : list (Edge PlannerNode))
  : result (list (Edge PlannerNode)) :=
  match commands with
  | [] => Ok outgoing
  | command :: rest =>
      e ← outgoingEdge objects node command;
      outgoingEdges_loop objects node rest
        (match e with Some e => outgoing ++ [e] | None => outgoing end)
  end.

Definition outgoingEdges (objects : gmap string ObjectDefinition) (node : PlannerNode)
  : result (list (Edge PlannerNode)) :=
  outgoingEdges_loop objects node ["l"; "r"; "p"; "d"] [].

Definition compareNodes (a b : PlannerNode) : Z := 0.

End PlannerGraph.

(** [new PlannerGraph(objects)]. *)
Definition newPlannerGraph (objects : gmap string ObjectDefinition) : Graph PlannerNode :=
  {| outgoingEdges := PlannerGraph.outgoingEdges objects;
     compareNodes := PlannerGraph.compareNodes |}.

(** ** Planner.ts: planInterpretation *)

Section PlanInterpretation.
Context `{PQ : PriorityQueue (QueueElement PlannerNode)}.
Variable clock : nat -> Z.

(** The callback of [interpretations.forEach] in the ['where'] branch: the
    text pushed onto [locations]. *)
Definition whereLocation (state : WorldState) (start : PlannerNode)
    (matches : Conjunction) : result string :=
  m0 ← defined (matches !! 0%nat);
  let entity := args m0 !! 0%nat in
  match getStackIndex (w_stacks state) entity with
  | Some stackIndex =>
      if bool_decide (stackIndex > -1) then
        s ← defined (JS.get (w_stacks state) stackIndex);
        let stackPos := JS.indexOf s entity in
        d ← getDescription start (w_objects state) (JS.get s (stackPos - 1)) None;
        Ok ("in the " +:+ mapNumberToText stackIndex +:+ " stack " +:+ d)
      else Ok "in the claw"
  | None => Ok "in the claw"
  end.

(** [result.path.forEach(...)] pushing descriptions and commands onto
    [plan]; an entry [None] is an [undefined] command. *)
Fixpoint planOfPath (nodes : list PlannerNode) (plan : list (option string))
  : list (option string) :=
  match nodes with
  | [] => plan
  | node :: rest =>
      let plan :=
        if JS.truthy (description node) then plan ++ [description node] else plan in
      planOfPath rest (plan ++ [command node])
  end.

(** [planInterpretation(interpretations, state)]; [fuel] bounds the
    iterations of the search loop.  The console output is left out. *)
Definition planInterpretation (fuel : nat) (interpretations : DNFFormula)
    (state : WorldState) : option (result (list (option string))) :=
  let start := mkPlannerNode (w_stacks state) (w_holding state) (w_arm state) None None in
  match defined (interpretations !! 0%nat) ≫= (fun c => defined (c !! 0%nat)) with
  | Throw e => Some (Throw e)
  | Ok l00 =>
      if bool_decide (relation l00 = "where") then
        Some (locations ← mapM (whereLocation state start) interpretations;
              Ok [Some ((if bool_decide (JS.length locations > 1)
                         then "There are many. The first one is " else "It is ")
                        +:+ JS.join " and another " locations +:+ ".")])
      else
        let graph := newPlannerGraph (w_objects state) in
        let _goal := fun n => goal interpretations (w_objects state) n in
        let _heuristics := fun n => heuristics interpretations n in
        match aStarSearch toString graph _goal _heuristics 100 clock fuel start with
        | None => None
        | Some (Throw e) => Some (Throw e)
        | Some (Ok r) => Some (Ok (planOfPath (tail (path r)) []))
        end
  end.

End PlanInterpretation.

(** ** A reference priority queue

    An instance of the [PriorityQueue] interface on which searches can be
    run: an unsorted list from which [dequeue] extracts the first element of
    lowest priority value. *)

Section ListQueue.
Context {E : Type} (prio : E -> number).

(** The lowest element of [x :: l] (the first among equals) and the rest. *)
Fixpoint extract_min (x : E) (l : list E) : E * list E :=
  match l with
  | [] => (x, [])
  | y :: l' =>
      let '(m, r) := extract_min y l' in
      if num_leb (prio x) (prio m) then (x, l) else (m, x :: r)
  end.

Definition lq_dequeue (q : list E) : option (E * list E) :=
  match q with
  | [] => None
  | x :: l => Some (extract_min x l)
  end.

Definition lq_add (x : E) (q : list E) : list E := q ++ [x].

End ListQueue.

Definition ListQueue {E : Type} (prio : E -> number) : PriorityQueue E := {|
  pq := list E;
  pq_empty := [];
  pq_add := lq_add;
  pq_dequeue := lq_dequeue prio;
  pq_elements := fun q => q
|}.

(** ** Planner.ts, the earlier revision: heuristics

    [src/unnamed/part_002] is an earlier revision of Planner.ts.  Its
    [heuristics] has its own per-literal estimate and pushes one value per
    literal. *)

Module EarlierPlanner.

(** [getStackIndex(n.stacks, e) || n.arm]: the index 0 is falsy, as is
    [undefined]. *)
Definition stackIndexOrArm (n : PlannerNode) (e : option string) : Z :=
  match getStackIndex (stacks n) e with
  | Some c => if bool_decide (c = 0) then arm n else c
  | None => arm n
  end.

(** One run of the callback of the inner [forEach]: the value of
    [_heuristics] that it pushes for [condition]. *)
Definition conditionCost (n : PlannerNode) (condition : Literal) : result Z :=
  let rel := Some (relation condition) in
  let first := args condition !! 0%nat in
  let firstStackIndex := stackIndexOrArm n first in
  if bool_decide (relation condition = "holding") && negb (strict_eq (holding n) first) then
    s ← defined (JS.get (stacks n) firstStackIndex);
    Ok ((if JS.truthy (holding n) then 2 else 1)
        + Z.abs (arm n - firstStackIndex)
        + (JS.length s - JS.indexOf s first - 1) * 4)
  else
    let second := args condition !! 1%nat in
    let swap := JS.among rel ["rightof"; "under"] in
    let '(first, second) := if swap then (second, first) else (first, second) in
    let firstStackIndex := if swap then stackIndexOrArm n first else firstStackIndex in
    let secondStackIndex := stackIndexOrArm n second in
    let stackDifference := Z.abs (firstStackIndex - secondStackIndex) in
    s1 ← defined (JS.get (stacks n) firstStackIndex);
    let firstStackPos := JS.indexOf s1 first in
    s2 ← defined (JS.get (stacks n) secondStackIndex);
    let secondStackPos := JS.indexOf s2 second in
    let numAboveFirst := numAbove s1 firstStackPos in
    let numAboveSecond := numAbove s2 secondStackPos in
    let holdingOneOfThem :=
      bool_decide (firstStackPos = -1) || bool_decide (secondStackPos = -1) in
    (* [[first, second].indexOf(n.holding) > -1 ? 1 : 2] *)
    let holdingCost :=
      if strict_eq (holding n) first || strict_eq (holding n) second then 1 else 2 in
    if JS.among rel ["leftof"; "rightof"]
       && negb (bool_decide (firstStackIndex < secondStackIndex) && negb holdingOneOfThem)
    then
      let numToMove :=
        if bool_decide (secondStackIndex = 0) then numAboveSecond
        else if bool_decide (firstStackIndex = JS.length (stacks n) - 1) then numAboveFirst
        else Z.min numAboveFirst numAboveSecond in
      Ok (numToMove * 4
          + (if bool_decide (firstStackIndex >= secondStackIndex)
             then firstStackIndex - secondStackIndex + 1 else 0)
          + holdingCost)
    else if bool_decide (relation condition = "beside")
            && negb (bool_decide (stackDifference = 1) && negb holdingOneOfThem)
    then
      Ok (Z.min numAboveFirst numAboveSecond * 4
          + Z.abs (Z.abs (firstStackIndex - secondStackIndex) - 1)
          + holdingCost)
    else if JS.among rel ["inside"; "ontop"]
            && negb (bool_decide (stackDifference = 0)
                     && bool_decide (firstStackPos = secondStackPos + 1)
                     && negb holdingOneOfThem)
    then
      Ok (numAboveSecond * 4 + numAboveFirst * 4
          + Z.abs (firstStackIndex - secondStackIndex)
          + (if strict_eq (holding n) first then 1 else 2))
    else if JS.among rel ["above"; "under"]
            && negb (bool_decide (stackDifference = 0)
                     && bool_decide (firstStackPos > secondStackPos)
                     && negb holdingOneOfThem)
    then
      Ok (numAboveFirst * 4
          + Z.abs (firstStackIndex - secondStackIndex)
          + (if strict_eq (holding n) first then 1 else 2))
    else Ok 0.

(** [interpretation.forEach(...)]: one value pushed onto [result] (here
    [results]) per literal. *)
Fixpoint conjunctionCosts (n : PlannerNode) (interpretation : Conjunction)
    (results : list Z) : result (list Z) :=
  match interpretation with
  | [] => Ok results
  | condition :: rest =>
      h ← conditionCost n condition;
      conjunctionCosts n rest (results ++ [h])
  end.

Fixpoint heuristics_loop (n : PlannerNode) (interpretations : DNFFormula)
    (results : list Z) : result (list Z) :=
  match interpretations with
  | [] => Ok results
  | interpretation :: rest =>
      results ← conjunctionCosts n interpretation results;
      heuristics_loop n rest results
  end.

Definition heuristics (interpretations : DNFFormula) (n : PlannerNode) : result number :=
  r ← heuristics_loop n interpretations [];
  Ok (Math_min r).

End EarlierPlanner.

(** ** Planner.ts: plan and stringify *)

(** [Interpreter.InterpretationResult]: what it inherits from
    [Parser.ParseResult] is carried along as [parse_result]. *)
Record InterpretationResult (P : Type) : Type := mkInterpretationResult {
  parse_result : P;
  interpretation : DNFFormula
}.
Arguments mkInterpretationResult {P}.
Arguments parse_result {P}.
Arguments interpretation {P}.

(** [PlannerResult]: an [InterpretationResult] with the field [plan]. *)
Record PlannerResult (P : Type) : Type := mkPlannerResult {
  pr_result : InterpretationResult P;
  pr_plan : list (option string)
}.
Arguments mkPlannerResult {P}.
Arguments pr_result {P}.
Arguments pr_plan {P}.

Section Plan.
Context `{PQ : PriorityQueue (QueueElement PlannerNode)} {P : Type}.
(** [clocks i] is the clock that the search for the [i]-th interpretation
    reads; [fuel] bounds the iterations of each search. *)
Variable clocks : nat -> nat -> Z.
Variable fuel : nat.

(** [interpretations.forEach(...)] with its [try]/[catch]: the arrays
    [errors] and [plans] after the loop; [None] when a search runs out of
    fuel. *)
Fixpoint plan_loop (i : nat) (interpretations : list (InterpretationResult P))
    (currentState : WorldState) (errors : list exn) (plans : list (PlannerResult P))
  : option (list exn * list (PlannerResult P)) :=
  match interpretations with
  | [] => Some (errors, plans)
  | result :: rest =>
      match planInterpretation (clocks i) fuel (interpretation result) currentState with
      | None => None
      | Some (Ok p) =>
          let p := if bool_decide (JS.length p = 0)
                   then p ++ [Some "That is already true!"] else p in
          plan_loop (S i) rest currentState errors (plans ++ [mkPlannerResult result p])
      | Some (Throw err) => plan_loop (S i) rest currentState (errors ++ [err]) plans
      end
  end.

(** [plan(interpretations, currentState)]: the plans ([inl]), or the value
    thrown ([inr]): [errors[0]], which is [undefined] ([None]) when nothing
    was caught. *)
Definition plan (interpretations : list (InterpretationResult P)) (currentState : WorldState)
  : option (list (PlannerResult P) + option exn) :=
  match plan_loop 0 interpretations currentState [] [] with
  | None => None
  | Some (errors, plans) =>
      if bool_decide (JS.length plans ≠ 0) then Some (inl plans)
      else Some (inr (errors !! 0%nat))
  end.

End Plan.

(** [Planner.stringify(result)]: [join] renders an [undefined] entry as the
    empty text. *)
Definition stringify {P} (result : PlannerResult P) : string :=
  JS.join ", " (default "" <$> pr_plan result).

(** ** Interpreter.ts

    The revision embedded is the second one in the file, the one that
    carries the documentation comments (the first one does not compile: its
    [cartesian] has a comma where the [for] statement needs a semicolon). *)

(** The property key that a string-or-[undefined] value is converted to. *)
Definition keyOf (x : option string) : string := default "undefined" x.

(** [x !== 'floor' ? state.objects[x].field : null]; [x = None] is
    [undefined]. *)
Definition fieldUnlessFloor (objects : gmap string ObjectDefinition) (x : option string)
    (field : ObjectDefinition -> string) : result (option string) :=
  if bool_decide (x ≠ Some "floor") then
    o ← object_of objects (keyOf x); Ok (Some (field o))
  else Ok None.

(** [isValid(relation, first, second)], a closure over [state.objects]. *)
Definition isValid (objects : gmap string ObjectDefinition) (relation : string)
    (first second : option string) : result bool :=
  if bool_decide (first = second) then Ok false
  else
    firstSize ← fieldUnlessFloor objects first size;
    firstForm ← fieldUnlessFloor objects first form;
    secondSize ← fieldUnlessFloor objects second size;
    secondForm ← fieldUnlessFloor objects second form;
    let rel := Some relation in
    let secondIsFloor := bool_decide (second = Some "floor") in
    if
      (* Small objects cannot support large objects, pt. 1 *)
      (negb secondIsFloor && JS.among rel ["inside"; "ontop"; "above"]
       && bool_decide (firstSize = Some "large") && bool_decide (secondSize = Some "small"))
      (* Small objects cannot support large objects, pt. 2 *)
      || (bool_decide (relation = "under") && bool_decide (firstSize = Some "small")
          && bool_decide (secondSize = Some "large"))
      (* Balls must be in boxes or on the floor, otherwise they roll away *)
      || (bool_decide (firstForm = Some "ball")
          && negb (bool_decide (relation = "inside")
                   || (if bool_decide (relation = "ontop") then secondIsFloor else true)))
      (* Balls cannot support anything *)
      || (negb secondIsFloor && JS.among rel ["ontop"; "above"]
          && bool_decide (secondForm = Some "ball"))
      (* Objects are "inside" boxes, but "ontop" of other objects *)
      || negb (if bool_decide (relation = "inside") then bool_decide (secondForm = Some "box")
               else if bool_decide (relation = "ontop")
                    then secondIsFloor || bool_decide (secondForm ≠ Some "box")
                    else true)
      (* Boxes cannot contain pyramids, planks or boxes of the same size *)
      || (bool_decide (secondForm = Some "box") && bool_decide (relation = "inside")
          && JS.among firstForm ["pyramid"; "plank"; "box"]
          && bool_decide (firstSize = secondSize))
      (* Small boxes cannot be supported by small bricks or pyramids *)
      || (bool_decide (firstSize = Some "small") && bool_decide (firstForm = Some "box")
          && bool_decide (relation = "ontop") && bool_decide (secondSize = Some "small")
          && JS.among secondForm ["brick"; "pyramid"])
      (* Large boxes cannot be supported by large pyramids *)
      || (bool_decide (firstSize = Some "large") && bool_decide (firstForm = Some "box")
          && bool_decide (relation = "ontop") && bool_decide (secondSize = Some "large")
          && bool_decide (secondForm = Some "pyramid"))
      (* An object can only be ontop or above the floor *)
      || (secondIsFloor && bool_decide (JS.indexOf ["ontop"; "above"] rel = -1))
      (* The floor cannot be moved *)
      || bool_decide (first = Some "floor")
    then Ok false
    else Ok true.

(** [Parser.Object] as the interpreter reads it: a description by attributes
    [{size, color, form}], where [size] and [color] are [null] ([None]) when
    the utterance leaves them out, or an object with a relative clause
    [{object, location: {relation, entity: {quantifier, object}}}], whose
    nested records are flattened into the constructor's arguments. *)
Inductive ParserObject : Type :=
  | SimpleObject (psize pcolor : option string) (pform : string)
  | RelativeObject (pobject : ParserObject) (prelation pquantifier : string)
      (ptarget : ParserObject).

(** [Parser.Entity] and [Parser.Location]. *)
Record ParserEntity : Type := mkEntity {
  ent_quantifier : string;
  ent_object : ParserObject
}.

Record ParserLocation : Type := mkLocation {
  loc_relation : string;
  loc_entity : ParserEntity
}.

(** [Parser.Command]; [entity] and [location] are [undefined] ([None]) in
    the commands that do not have them. *)
Record Command : Type := mkCommand {
  cmd_command : string;
  cmd_entity : option ParserEntity;
  cmd_location : option ParserLocation
}.

(** The test on one entity in the last branch of [getEntities]:
    [(size === null || size === objects[e].size) && (color === null || ...)
     && (form === 'anyform' || form === objects[e].form)], which reads the
    catalog only where [&&] and [||] get that far. *)
Definition matchesAttributes (objects : gmap string ObjectDefinition)
    (psize pcolor : option string) (pform : string) (entity : string) : result bool :=
  sizeOk ← match psize with
            | None => Ok true
            | Some s => o ← object_of objects entity; Ok (bool_decide (s = size o))
            end;
  if negb sizeOk then Ok false
  else
    colorOk ← match pcolor with
               | None => Ok true
               | Some c => o ← object_of objects entity; Ok (bool_decide (c = color o))
               end;
    if negb colorOk then Ok false
    else if bool_decide (pform = "anyform") then Ok true
    else o ← object_of objects entity; Ok (bool_decide (pform = form o)).

(** [existing.forEach(...)] of the last branch, pushing onto [result]. *)
Fixpoint matchingEntities (objects : gmap string ObjectDefinition)
    (psize pcolor : option string) (pform : string) (existing : list string)
    (results : list string) : result (list string) :=
  match existing with
  | [] => Ok results
  | entity :: rest =>
      b ← matchesAttributes objects psize pcolor pform entity;
      matchingEntities objects psize pcolor pform rest
        (if (b : bool) then results ++ [entity] else results)
  end.

(** [a < b] on stack indices that may be [undefined]: a comparison with
    [undefined] is false. *)
Definition lt_undefined (a b : option Z) : bool :=
  match a, b with
  | Some x, Some y => bool_decide (x < y)
  | _, _ => false
  end.

(** The value of the callback of [second.some(...)] for [_first] and
    [_second]: whether [_first] is pushed. *)
Definition relationHolds (state : WorldState) (relation _first _second : string)
  : result bool :=
  let firstStackIndex := getStackIndex (w_stacks state) (Some _first) in
  let secondStackIndex := getStackIndex (w_stacks state) (Some _second) in
  (* [firstStackIndex === secondStackIndex && test(stacks[firstStackIndex].indexOf(_first),
     stacks[secondStackIndex].indexOf(_second))] *)
  let sameStackAnd (test : Z -> Z -> bool) : result bool :=
    if bool_decide (firstStackIndex = secondStackIndex) then
      s1 ← defined (firstStackIndex ≫= JS.get (w_stacks state));
      s2 ← defined (secondStackIndex ≫= JS.get (w_stacks state));
      Ok (test (JS.indexOf s1 (Some _first)) (JS.indexOf s2 (Some _second)))
    else Ok false in
  let onBox : result bool :=
    o ← object_of (w_objects state) _second;
    if bool_decide (form o = "box")
    then sameStackAnd (fun p q => bool_decide (p = q + 1))
    else Ok false in
  if bool_decide (relation = "leftof") then
    Ok (lt_undefined firstStackIndex secondStackIndex)
  else if bool_decide (relation = "rightof") then
    Ok (lt_undefined secondStackIndex firstStackIndex)
  else if bool_decide (relation = "beside") then
    Ok (match firstStackIndex, secondStackIndex with
        | Some a, Some b => bool_decide (Z.abs (a - b) = 1)
        | _, _ => false
        end)
  else if bool_decide (relation = "inside") then onBox
  else if bool_decide (relation = "ontop") then
    if bool_decide (_second = "floor") then
      s1 ← defined (firstStackIndex ≫= JS.get (w_stacks state));
      Ok (bool_decide (JS.indexOf s1 (Some _first) = 0))
    else onBox
  else if bool_decide (relation = "above") then
    if bool_decide (_second = "floor") then Ok true
    else sameStackAnd (fun p q => bool_decide (p > q))
  else if bool_decide (relation = "under") then
    sameStackAnd (fun p q => bool_decide (p < q))
  else Ok false.

(** [second.some(...)]: stops at the first [_second] for which the
    callback is true. *)
Fixpoint someRelated (state : WorldState) (relation _first : string) (second : list string)
  : result bool :=
  match second with
  | [] => Ok false
  | _second :: rest =>
      b ← relationHolds state relation _first _second;
      if (b : bool) then Ok true else someRelated state relation _first rest
  end.

(** [first.forEach(...)] of the relative branch. *)
Fixpoint relatedEntities (state : WorldState) (relation : string) (first second : list string)
    (results : list string) : result (list string) :=
  match first with
  | [] => Ok results
  | _first :: rest =>
      b ← someRelated state relation _first second;
      relatedEntities state relation rest second
        (if (b : bool) then results ++ [_first] else results)
  end.

(** The entities that exist: those in the stacks, then the held one. *)
Definition existingEntities (state : WorldState) : list string :=
  concat (w_stacks state) ++ option_list (w_holding state).

(** [getEntities(state, condition)]. *)
Fixpoint getEntities (state : WorldState) (condition : ParserObject) : result (list string) :=
  match condition with
  | SimpleObject psize pcolor pform =>
      if bool_decide (pform = "floor") then Ok ["floor"]
      else matchingEntities (w_objects state) psize pcolor pform (existingEntities state) []
  | RelativeObject pobject prelation _ ptarget =>
      first ← getEntities state pobject;
      second ← getEntities state ptarget;
      relatedEntities state prelation first second []
  end.

(** [cartesian(arg)]: [helper(arr, i)] with [groups] the part of [arg] from
    index [i] on; [i == max] when no group follows. *)
Fixpoint cartesian_helper {X} (groups : list (list X)) (arr : list X) (r : list (list X))
  : list (list X) :=
  match groups with
  | [] => r
  | group :: rest =>
      foldl (fun r x =>
               let a := arr ++ [x] in
               match rest with
               | [] => r ++ [a]
               | _ :: _ => cartesian_helper rest a r
               end) r group
  end.

(** [arg[0].length] throws on the empty array. *)
Definition cartesian {X} (arg : list (list X)) : result (list (list X)) :=
  match arg with
  | [] => Throw TypeError
  | _ :: _ => Ok (cartesian_helper arg [] [])
  end.

(** ** Interpreter.ts: interpretCommand *)

(** [a.forEach(f)] for a callback that updates the variables [s] it closes
    over and may throw. *)
Fixpoint forEach {A S} (f : S -> A -> result S) (a : list A) (s : S) : result S :=
  match a with
  | [] => Ok s
  | x :: rest => s' ← f s x; forEach f rest s'
  end.

(** [a.filter(f)] for a callback that may throw. *)
Fixpoint filterR {A} (f : A -> result bool) (a : list A) : result (list A) :=
  match a with
  | [] => Ok []
  | x :: rest => b ← f x; r ← filterR f rest; Ok (if (b : bool) then x :: r else r)
  end.

(** [{polarity: true, relation: relation, args: [first, second]}].  The
    second argument may be [undefined]; an array that ends in [undefined] is
    represented without that entry, which reads the same at every index. *)
Definition positiveLiteral (relation : string) (first : string) (second : option string)
  : Literal :=
  mkLiteral true relation (first :: option_list second).

(** [seen.indexOf(x) > -1] on an array whose entries may be [undefined]
    (strict equality finds an [undefined] entry). *)
Definition includes (seen : list (option string)) (x : option string) : bool :=
  bool_decide (x ∈ seen).

(** *** The order of [for (key in object)]

    Keys that are array indices (canonical decimal numerals below
    [2^32 - 1]) come first, in ascending numeric order; the other keys follow
    in the order in which they were created (the order of ECMAScript 2020,
    which the engines had before). *)
Fixpoint digits (s : string) (acc : N) : option N :=
  match s with
  | EmptyString => Some acc
  | String c s' => d ← Ascii.is_nat c; digits s' (10 * acc + N.of_nat d)%N
  end.

Definition arrayIndex (s : string) : option N :=
  n ← digits s 0%N;
  if bool_decide (pretty n = s) && bool_decide (n < 2 ^ 32 - 1)%N then Some n else None.

Fixpoint insertByIndex {X} (k : N) (v : X) (l : list (N * X)) : list (N * X) :=
  match l with
  | [] => [(k, v)]
  | (k', v') :: rest =>
      if bool_decide (k < k')%N then (k, v) :: l else (k', v') :: insertByIndex k v rest
  end.

(** The values of an object, given as its keys and values in creation
    order, in the order in which [for ... in] visits the keys. *)
Definition forInValues {X} (object : list (string * X)) : list X :=
  (foldr (fun kv acc => match arrayIndex kv.1 with
                        | Some n => insertByIndex n kv.2 acc
                        | None => acc
                        end) [] object).*2
  ++ (filter (fun kv => arrayIndex kv.1 = None) object).*2.

(** [groups[entity] = []] where [groups] has no key [entity], and
    [groups[entity].push(condition)], on an object given as its own keys and
    values in creation order. *)
Fixpoint pushOwn (groups : list (string * list Literal)) (entity : string)
    (condition : Literal) : list (string * list Literal) :=
  match groups with
  | [] => [(entity, [condition])]
  | (key, conditions) :: rest =>
      if bool_decide (key = entity) then (key, conditions ++ [condition]) :: rest
      else (key, conditions) :: pushOwn rest entity condition
  end.

(** [if (typeof groups[entity] === 'undefined') groups[entity] = [];
     groups[entity].push(condition)].  Under a name that every object
    inherits, [groups[entity]] is not [undefined] and has no [push]: the call
    throws. *)
Definition groupPush (groups : list (string * list Literal)) (entity : string)
    (condition : Literal) : result (list (string * list Literal)) :=
  if JS.inherited entity then Throw TypeError
  else Ok (pushOwn groups entity condition).

(** *** allQuantifierValidator *)

(** [combination.some(...)] of the branch for [leftof], [rightof] and
    [beside]. *)
Fixpoint fromOtherEntity (entitiesSeen : list (option string)) (combination : list Literal)
  : bool :=
  match combination with
  | [] => false
  | condition :: rest =>
      let first := args condition !! 0%nat in
      if bool_decide (JS.length entitiesSeen > 0) && negb (includes entitiesSeen first)
      then true
      else fromOtherEntity (entitiesSeen ++ [first]) rest
  end.

(** [combination.some(...)] of the branch for [ontop] and [inside]. *)
Fixpoint usedTwice (entitiesSeen : list (option string)) (combination : list Literal)
  : bool :=
  match combination with
  | [] => false
  | condition :: rest =>
      let first := args condition !! 0%nat in
      let second := args condition !! 1%nat in
      if bool_decide (second ≠ Some "floor")
         && (includes entitiesSeen first || includes entitiesSeen second)
      then true
      else usedTwice (entitiesSeen ++ [first; second]) rest
  end.

(** [combination.some(...)] of the last branch. *)
Fixpoint ballsShareTarget (objects : gmap string ObjectDefinition)
    (entitiesSeen : list (option string)) (combination : list Literal) : result bool :=
  match combination with
  | [] => Ok false
  | condition :: rest =>
      let first := args condition !! 0%nat in
      let second := args condition !! 1%nat in
      o ← object_of objects (keyOf first);
      let isBall := bool_decide (form o = "ball") in
      if bool_decide (second ≠ Some "floor") && isBall && includes entitiesSeen second
      then Ok true
      else ballsShareTarget objects (if isBall then entitiesSeen ++ [second] else entitiesSeen)
             rest
  end.

(** The callback of the final [filter]; [relation] is [cmd.location.relation],
    which is also what the function is called with. *)
Definition validCombination (objects : gmap string ObjectDefinition)
    (relation toQuantifier : string) (combination : list Literal) : result bool :=
  if JS.among (Some relation) ["leftof"; "rightof"; "beside"] then
    if bool_decide (toQuantifier = "all") then Ok (negb (fromOtherEntity [] combination))
    else Ok true
  else if JS.among (Some relation) ["ontop"; "inside"] then
    Ok (negb (usedTwice [] combination))
  else
    b ← ballsShareTarget objects [] combination; Ok (negb b).

(** [result[0].forEach(...)] of the branch for two [all] quantifiers: the
    array [entitiesSeen] after the loop. *)
Definition ballsSeen (objects : gmap string ObjectDefinition) (relation : string)
    (conditions : list Literal) : result (list (option string)) :=
  forEach (fun entitiesSeen condition =>
             let entity := if bool_decide (relation = "above")
                           then args condition !! 0%nat else args condition !! 1%nat in
             o ← object_of objects (keyOf entity);
             Ok (if bool_decide (form o = "ball") && negb (includes entitiesSeen entity)
                 then entitiesSeen ++ [entity] else entitiesSeen))
          conditions [].

(** [interpretations.forEach(...)] that fills [groupConditionsByEntity]. *)
Definition groupConditionsByEntity (fromQuantifier : string) (interpretations : DNFFormula)
  : result (list (string * list Literal)) :=
  forEach (fun groups interpretation =>
             condition ← defined (interpretation !! 0%nat);
             let entity := if bool_decide (fromQuantifier = "all")
                           then args condition !! 0%nat else args condition !! 1%nat in
             groupPush groups (keyOf entity) condition)
          interpretations [].

Definition allQuantifierValidator (interpretations : DNFFormula)
    (objects : gmap string ObjectDefinition) (relation fromQuantifier toQuantifier : string)
  : result DNFFormula :=
  if bool_decide (fromQuantifier = "all") && bool_decide (toQuantifier = "all") then
    let result := [concat interpretations] in
    if JS.among (Some relation) ["above"; "under"] then
      entitiesSeen ← ballsSeen objects relation (concat interpretations);
      if bool_decide (JS.length entitiesSeen > 1) then Ok [] else Ok result
    else Ok result
  else
    groups ← groupConditionsByEntity fromQuantifier interpretations;
    combinations ← cartesian (forInValues groups);
    filterR (validCombination objects relation toQuantifier) combinations.

(** *** The branch for [move] and [put] *)

Section InterpretCommand.
Variable state : WorldState.

(** [first.forEach(...)] inside the loop over the interpretations of the
    nested command: the pair of [_interpretation] and [interpretations]. *)
Definition extendWithFirst (entity : option ParserEntity) (relation : string)
    (interpretation : Conjunction) (first : list string)
    (acc : Conjunction * DNFFormula) : result (Conjunction * DNFFormula) :=
  forEach (fun '(_interpretation, interpretations) _first =>
             e ← defined entity;
             lastCondition ← defined (last interpretation);
             let target := args lastCondition !! 0%nat in
             valid ← isValid (w_objects state) relation (Some _first) target;
             if bool_decide (ent_quantifier e = "all") then
               Ok (if (valid : bool)
                   then (_interpretation ++ [positiveLiteral relation _first target],
                         interpretations)
                   else (_interpretation, interpretations))
             else
               Ok (if (valid : bool)
                   then (_interpretation,
                         interpretations
                           ++ [interpretation ++ [positiveLiteral relation _first target]])
                   else (_interpretation, interpretations)))
          first acc.

(** [interpretCommand(newCommand, state).forEach(...)]: the array
    [interpretations] after the loop. *)
Definition extendInterpretations (entity : option ParserEntity) (relation : string)
    (first : list string) (nested : DNFFormula) : result DNFFormula :=
  forEach (fun interpretations interpretation =>
             '(_interpretation, interpretations) ←
               extendWithFirst entity relation interpretation first
                 (interpretation, interpretations);
             e ← defined entity;
             if bool_decide (ent_quantifier e = "all")
             then Ok (interpretations ++ [_interpretation])
             else Ok interpretations)
          nested [].

(** The two nested [forEach] of the branch without recursion. *)
Definition pairInterpretations (relation : string) (first second : list string)
  : result DNFFormula :=
  forEach (fun interpretations _first =>
             forEach (fun interpretations _second =>
                        valid ← isValid (w_objects state) relation (Some _first)
                                  (Some _second);
                        Ok (if (valid : bool)
                            then interpretations
                                 ++ [[positiveLiteral relation _first (Some _second)]]
                            else interpretations))
                     second interpretations)
          first [].

(** [interpretation.forEach(...)] of the first final filter: the arrays
    [_first] and [_second] after the loop. *)
Definition unmatched (first second : list string) (interpretation : Conjunction)
  : list string * list string :=
  foldl (fun '(_first, _second) condition =>
           (JS.splice1 _first (JS.indexOf _first (args condition !! 0%nat)),
            JS.splice1 _second (JS.indexOf _second (args condition !! 1%nat))))
        (first, second) interpretation.

(** [nbrEntitiesOnTopOfFloor] after the loop of the second final filter. *)
Definition nbrEntitiesOnTopOfFloor (interpretation : Conjunction) : Z :=
  foldl (fun n condition =>
           if bool_decide (relation condition = "ontop")
              && bool_decide (args condition !! 1%nat = Some "floor")
           then n + 1 else n)
        0 interpretation.

(** "Special treatment for the all quantifier": the body of the [if] on
    [cmd.command === 'move' && (...)].  [second] is [None] when the variable
    was never assigned, which is the case after the recursion. *)
Definition allQuantifierTreatment (relation fromQuantifier toQuantifier : string)
    (doRecursion : bool) (first : list string) (second : option (list string))
    (interpretations : DNFFormula) : result DNFFormula :=
  interpretations ←
    (if negb doRecursion && bool_decide (JS.length interpretations > 0)
     then allQuantifierValidator interpretations (w_objects state) relation
            fromQuantifier toQuantifier
     else Ok interpretations);
  interpretations ←
    (if JS.among (Some relation) ["inside"; "ontop"] then
       if bool_decide (fromQuantifier = "all") && bool_decide (toQuantifier = "all") then
         if bool_decide (JS.length first = 1) then
           s ← defined second;
           Ok (if bool_decide (JS.length s = 1) then interpretations else [])
         else Ok []
       else if bool_decide (fromQuantifier = "all") then
         s ← defined second;
         Ok (if bool_decide (JS.length first <= JS.length s) then interpretations else [])
       else
         s ← defined second;
         Ok (if bool_decide (JS.length first >= JS.length s) then interpretations else [])
     else Ok interpretations);
  interpretations ←
    filterR (fun interpretation =>
               s ← defined second;
               let '(_first, _second) := unmatched first s interpretation in
               let fromAllCheck := if bool_decide (fromQuantifier = "all")
                                   then bool_decide (JS.length _first = 0) else true in
               let toAllCheck := if bool_decide (toQuantifier = "all")
                                 then bool_decide (JS.length _second = 0) else true in
               Ok (fromAllCheck && toAllCheck))
            interpretations;
  Ok (filter (fun interpretation =>
                nbrEntitiesOnTopOfFloor interpretation <= JS.length (w_stacks state))
             interpretations).

(** The end of [interpretCommand]: [None] stands for
    [throw "No interpretations possible"], the one value thrown that is not
    an error object. *)
Definition returnOrThrow (interpretations : DNFFormula) : result (option DNFFormula) :=
  if bool_decide (JS.length interpretations > 0) then Ok (Some interpretations) else Ok None.

(** What follows the recursion or the two loops: the special treatment when
    it applies, then the end of the function. *)
Definition finishMoveOrPut (command : string) (entity : option ParserEntity)
    (relation toQuantifier : string) (doRecursion : bool) (first : list string)
    (second : option (list string)) (interpretations : DNFFormula)
  : result (option DNFFormula) :=
  special ←
    (if bool_decide (command = "move") then
       e ← defined entity;
       Ok (bool_decide (ent_quantifier e = "all") || bool_decide (toQuantifier = "all"))
     else Ok false);
  if (special : bool) then
    e ← defined entity;
    interpretations ← allQuantifierTreatment relation (ent_quantifier e) toQuantifier
                        doRecursion first second interpretations;
    returnOrThrow interpretations
  else returnOrThrow interpretations.

(** [interpretCommand(cmd, state)] for a [cmd] whose command is [move] or
    [put] and whose location is [{relation, entity: {quantifier: toQuantifier,
    object}}].  The recursion is the call on [newCommand], whose location is
    that of [object]; a string thrown there is not caught here. *)
Fixpoint interpretMoveOrPut (command : string) (entity : option ParserEntity)
    (relation toQuantifier : string) (object : ParserObject) {struct object}
  : result (option DNFFormula) :=
  first ← (if bool_decide (command = "move")
           then e ← defined entity; getEntities state (ent_object e)
           else Ok (option_list (w_holding state)));
  let withoutRecursion :=
    second ← getEntities state object;
    interpretations ← pairInterpretations relation first second;
    finishMoveOrPut command entity relation toQuantifier false first (Some second)
      interpretations in
  match object with
  | RelativeObject pobject prelation pquantifier ptarget =>
      if bool_decide (toQuantifier = "any") then
        nested ← interpretMoveOrPut "move" (Some (mkEntity "any" pobject))
                   prelation pquantifier ptarget;
        match nested with
        | None => Ok None
        | Some nested =>
            interpretations ← extendInterpretations entity relation first nested;
            finishMoveOrPut command entity relation toQuantifier true first None
              interpretations
        end
      else withoutRecursion
  | SimpleObject _ _ _ => withoutRecursion
  end.

(** [interpretCommand(cmd, state)].  In the branch for [move] and [put] the
    source reads [cmd.location] after it has computed [first]; both can only
    fail with a [TypeError], so the order does not show. *)
Definition interpretCommand (cmd : Command) : result (option DNFFormula) :=
  if bool_decide (cmd_command cmd = "where") then
    e ← defined (cmd_entity cmd);
    entities ← getEntities state (ent_object e);
    returnOrThrow ((fun entity => [mkLiteral true "where" [entity]]) <$> entities)
  else if bool_decide (cmd_command cmd = "drop") && JS.truthy (w_holding state) then
    returnOrThrow [[mkLiteral true "above" (option_list (w_holding state) ++ ["floor"])]]
  else if bool_decide (cmd_command cmd = "take") then
    e ← defined (cmd_entity cmd);
    entities ← getEntities state (ent_object e);
    if bool_decide (ent_quantifier e ≠ "all") then
      returnOrThrow ((fun entity => [mkLiteral true "holding" [entity]]) <$> entities)
    else if bool_decide (JS.length entities = 1) then
      returnOrThrow [[mkLiteral true "holding" (take 1 entities)]]
    else returnOrThrow []
  else if JS.among (Some (cmd_command cmd)) ["move"; "put"] then
    location ← defined (cmd_location cmd);
    interpretMoveOrPut (cmd_command cmd) (cmd_entity cmd) (loc_relation location)
      (ent_quantifier (loc_entity location)) (ent_object (loc_entity location))
  else returnOrThrow [].

End InterpretCommand.

(** *** interpret *)

(** [Parser.ParseResult]. *)
Record ParseResult : Type := mkParseResult {
  input : string;
  parse : Command
}.

(** A value that [interpretCommand] throws: an error object or the text. *)
Definition Thrown : Type := (exn + string)%type.

(** [parses.forEach(...)] with its [try]/[catch]: the arrays [errors] and
    [interpretations] after the loop. *)
Fixpoint interpret_loop (parses : list ParseResult) (currentState : WorldState)
    (errors : list Thrown) (interpretations : list (InterpretationResult ParseResult))
  : list Thrown * list (InterpretationResult ParseResult) :=
  match parses with
  | [] => (errors, interpretations)
  | parseresult :: rest =>
      match interpretCommand currentState (parse parseresult) with
      | Ok (Some formula) =>
          interpret_loop rest currentState errors
            (interpretations ++ [mkInterpretationResult parseresult formula])
      | Ok None =>
          interpret_loop rest currentState
            (errors ++ [inr "No interpretations possible"]) interpretations
      | Throw err =>
          interpret_loop rest currentState (errors ++ [inl err]) interpretations
      end
  end.

(** [interpret(parses, currentState)]: the interpretations ([inl]), or the
    value thrown ([inr]): [errors[0]], which is [undefined] ([None]) when
    nothing was caught. *)
Definition interpret (parses : list ParseResult) (currentState : WorldState)
  : list (InterpretationResult ParseResult) + option Thrown :=
  let '(errors, interpretations) := interpret_loop parses currentState [] [] in
  if bool_decide (JS.length interpretations ≠ 0) then inl interpretations
  else inr (errors !! 0%nat).

(** * Specification-level definitions

    The notions in which the properties below are stated, and the example
    worlds on which they are exercised. *)

(** The entity ids of a state: all columns, then the holding slot. *)
Definition entities (n : PlannerNode) : list string :=
  concat (stacks n) ++ option_list (holding n).

(** The drop rule as the design document words it: the drop is illegal when
    any of six conditions holds between [top], the entity at the top of the
    destination column if there is one, and the held entity. *)
Definition support_forbidden (top : option ObjectDefinition) (held : ObjectDefinition) : Prop :=
  exists t, top = Some t /\
    ((size t = "small" /\ size held = "large")
     \/ (form t <> "box" /\ form held = "ball")
     \/ form t = "ball"
     \/ (form t = "box" /\ form held ∈ ["pyramid"; "plank"; "box"] /\ size t = size held)
     \/ (size t = "small" /\ form t ∈ ["brick"; "pyramid"] /\ form held = "box")
     \/ (form t = "pyramid" /\ form held = "box" /\ size held = size t)).

(** The column under the arm and the catalog entry of its top entity. *)
Definition column (n : PlannerNode) : Stack := default [] (JS.get (stacks n) (arm n)).
Definition topObject (objects : gmap string ObjectDefinition) (n : PlannerNode)
  : option ObjectDefinition :=
  last (column n) ≫= (objects !!.).

(** States the planner is meant for: the arm is over a column, every entity
    of the state has a catalog entry with a form, and ids are not empty. *)
Record WellFormed (objects : gmap string ObjectDefinition) (n : PlannerNode) : Prop := {
  wf_arm : 0 <= arm n < JS.length (stacks n);
  wf_catalog : forall e, e ∈ entities n -> exists o, objects !! e = Some o /\ form o <> "";
  wf_ids : forall e, e ∈ entities n -> e <> ""
}.

(** A checker for [WellFormed], to discharge it on concrete states. *)
Definition wellFormedb (objects : gmap string ObjectDefinition) (n : PlannerNode) : bool :=
  bool_decide (0 <= arm n < JS.length (stacks n))
  && forallb (fun e => negb (bool_decide (e = ""))
                       && match objects !! e with
                          | Some o => negb (bool_decide (form o = ""))
                          | None => false
                          end) (entities n).

(** The eight relation kinds. *)
Definition relation_kinds : list string :=
  ["holding"; "leftof"; "rightof"; "beside"; "ontop"; "inside"; "above"; "under"].

(** [located n x c p]: entity [x] lies in column [c] at height [p] of the
    stacks of [n] (a held entity is located nowhere). *)
Definition located (n : PlannerNode) (x : string) (c p : Z) : Prop :=
  exists s, JS.get (stacks n) c = Some s /\ JS.get s p = Some x.

(** What the binary relations demand of the positions [(c, p)] of the first
    entity and [(c', p')] of the second. *)
Inductive relation_holds : string -> Z -> Z -> Z -> Z -> Prop :=
  | holds_leftof c p c' p' : c < c' -> relation_holds "leftof" c p c' p'
  | holds_rightof c p c' p' : c > c' -> relation_holds "rightof" c p c' p'
  | holds_beside c p c' p' : Z.abs (c - c') = 1 -> relation_holds "beside" c p c' p'
  | holds_ontop c p c' p' : c = c' -> p = p' + 1 -> relation_holds "ontop" c p c' p'
  | holds_inside c p c' p' : c = c' -> p = p' + 1 -> relation_holds "inside" c p c' p'
  | holds_above c p c' p' : c = c' -> p > p' -> relation_holds "above" c p c' p'
  | holds_under c p c' p' : c = c' -> p < p' -> relation_holds "under" c p c' p'.

(** Satisfaction of a literal in a state: [holding(x)] holds when [x] is the
    held entity; the other relations need their entities located in the
    stacks; [ontop(x, floor)] holds when [x] is at height 0; with any other
    relation a second argument ["floor"] asks nothing more than that the
    first entity is located in the stacks. *)
Inductive literal_satisfied (n : PlannerNode) : Literal -> Prop :=
  | sat_holding pol x rest :
      holding n = Some x ->
      literal_satisfied n (mkLiteral pol "holding" (x :: rest))
  | sat_ontop_floor pol x rest c :
      located n x c 0 ->
      literal_satisfied n (mkLiteral pol "ontop" (x :: "floor" :: rest))
  | sat_other_floor pol r x rest c p :
      r <> "holding" -> r <> "ontop" ->
      located n x c p ->
      literal_satisfied n (mkLiteral pol r (x :: "floor" :: rest))
  | sat_binary pol r x y rest c p c' p' :
      y <> "floor" ->
      located n x c p -> located n y c' p' ->
      relation_holds r c p c' p' ->
      literal_satisfied n (mkLiteral pol r (x :: y :: rest)).

(** The same relation with the floor clause as the design document words
    it: with a relation other than [ontop] a literal towards ["floor"] "is
    never required to hold", wherever its first entity is. *)
Inductive stated_satisfied (n : PlannerNode) : Literal -> Prop :=
  | stated_holding pol x rest :
      holding n = Some x ->
      stated_satisfied n (mkLiteral pol "holding" (x :: rest))
  | stated_ontop_floor pol x rest c :
      located n x c 0 ->
      stated_satisfied n (mkLiteral pol "ontop" (x :: "floor" :: rest))
  | stated_other_floor pol r x rest :
      r <> "holding" -> r <> "ontop" ->
      stated_satisfied n (mkLiteral pol r (x :: "floor" :: rest))
  | stated_binary pol r x y rest c p c' p' :
      y <> "floor" ->
      located n x c p -> located n y c' p' ->
      relation_holds r c p c' p' ->
      stated_satisfied n (mkLiteral pol r (x :: y :: rest)).

(** [returns m P]: the computation [m] does not throw and its value
    satisfies [P]. *)
Definition returns {A} (m : result A) (P : A -> Prop) : Prop :=
  match m with
  | Ok a => P a
  | Throw _ => False
  end.

(** The per-literal estimate: what one run of the callback adds. *)
Definition literalEstimate (n : PlannerNode) (l : Literal) : Z :=
  match conditionCost n l with
  | Ok z => z
  | Throw _ => 0
  end.

(** The sum of a list of integers. *)
Definition sumZ (xs : list Z) : Z := foldr Z.add 0 xs.

(** The per-conjunction estimates of a formula: sums of literal estimates. *)
Definition conjunctionEstimates (interpretations : DNFFormula) (n : PlannerNode) : list Z :=
  (fun c => sumZ (literalEstimate n <$> c)) <$> interpretations.

(** The per-literal estimate of the earlier revision: the value that its
    [heuristics] pushes for the literal (0 stands in where it throws). *)
Definition earlierEstimate (n : PlannerNode) (l : Literal) : Z :=
  match EarlierPlanner.conditionCost n l with
  | Ok z => z
  | Throw _ => 0
  end.

(** The estimates of all literals of a formula, conjunction after
    conjunction. *)
Definition earlierEstimates (interpretations : DNFFormula) (n : PlannerNode) : list Z :=
  earlierEstimate n <$> concat interpretations.


(** [is_edge objects n c e]: [outgoingEdges] returns on [n] and [e] is its
    edge for the command [c]. *)
Definition is_edge (objects : gmap string ObjectDefinition) (n : PlannerNode) (c : string)
    (e : Edge PlannerNode) : Prop :=
  exists es, PlannerGraph.outgoingEdges objects n = Ok es /\ e ∈ es /\ command (to e) = Some c.

(** ** Example worlds *)

(** A catalog with a small white ball [a] and two large boxes [b] and [c]. *)
Definition exampleObjects : gmap string ObjectDefinition :=
  {[ "a" := mkObject "ball" "small" "white";
     "b" := mkObject "box" "large" "red";
     "c" := mkObject "box" "large" "blue" ]}.

(** The start state of the 2-column example: [a] on the floor of column 0. *)
Definition startA : PlannerNode := mkPlannerNode [["a"]; []] None 0 None None.

(** The node that picking [a] up from [startA] leads to. *)
Definition pickedA : PlannerNode :=
  mkPlannerNode [[]; []] (Some "a") 0 (Some "p") (Some "Picking up the ball.").

(** A state with [a] held over the large red box [b]. *)
Definition heldAOverB : PlannerNode :=
  mkPlannerNode [["b"]; ["c"]] (Some "a") 0 None None.

(** The goal of the 2-column example: [a] on the floor. *)
Definition goalAOnFloor : DNFFormula := [[mkLiteral true "ontop" ["a"; "floor"]]].

(** [a] in column 0 of four, the arm over column 3, nothing held; [b] is in
    the catalog but not in the world. *)
Definition armFarRight : PlannerNode := mkPlannerNode [["a"]; []; []; []] None 3 None None.
Definition goalALeftOfB : DNFFormula := [[mkLiteral true "leftof" ["a"; "b"]]].

(** [a] left of [c], both of them entities of [heldAOverB]. *)
Definition goalALeftOfC : DNFFormula := [[mkLiteral true "leftof" ["a"; "c"]]].

(** [a] inside the box [b] in column 0, the arm over column 1. *)
Definition stackedAB : PlannerNode :=
  mkPlannerNode [["b"; "a"]; ["c"]] None 1 None None.

(** [startA] with the arm over column 1. *)
Definition armOverColumn1 : PlannerNode := mkPlannerNode [["a"]; []] None 1 None None.

(** The drop edge of [heldAOverB]. *)
Definition dropAOnB : Edge PlannerNode :=
  {| from := heldAOverB;
     to := mkPlannerNode [["b"; "a"]; ["c"]] None 0 (Some "d")
             (Some "Putting it inside the red box.");
     cost := 1 |}.

(** The catalog and world of the 2-column example: only [a], a small ball. *)
Definition objectsA : gmap string ObjectDefinition :=
  {[ "a" := mkObject "ball" "small" "white" ]}.
Definition worldA : WorldState := mkWorldState [["a"]; []] None 0 objectsA.

(** The goal of holding [a]. *)
Definition goalHoldingA : DNFFormula := [[mkLiteral true "holding" ["a"]]].

(** A goal of three conjunctions, of two, one and three literals. *)
Definition goalThreeWays : DNFFormula :=
  [[mkLiteral true "inside" ["a"; "c"]; mkLiteral true "leftof" ["c"; "b"]];
   [mkLiteral true "holding" ["b"]];
   [mkLiteral true "holding" ["a"]; mkLiteral true "beside" ["b"; "c"];
    mkLiteral true "above" ["c"; "b"]]].

(** A clock that does not advance within the search. *)
Definition frozenClock : nat -> Z := fun _ => 0.


(** ** Claims of the design document that the code does not meet as stated *)

(** The heuristic claim as the design document states it, for a function
    [heuristics_] and its per-literal [estimate]: the value is the least of
    the per-conjunction sums of estimates. *)
Definition min_of_sums_stated (heuristics_ : DNFFormula -> PlannerNode -> result number)
    (estimate : PlannerNode -> Literal -> Z)
    (interpretations : DNFFormula) (n : PlannerNode) : Prop :=
  interpretations <> [] ->
  exists m, heuristics_ interpretations n = Ok (Num m)
    /\ m ∈ (fun c => sumZ (estimate n <$> c)) <$> interpretations
    /\ Forall (fun s => m <= s) ((fun c => sumZ (estimate n <$> c)) <$> interpretations).

(** The goal-test claim as the design document states it. *)
Definition goal_iff_stated (interpretations : DNFFormula)
    (objects : gmap string ObjectDefinition) (n : PlannerNode) : Prop :=
  forall b, goal interpretations objects n = Ok b ->
    (b = true <-> Exists (Forall (stated_satisfied n)) interpretations).

(** The drop claim as the design document states it, without the pruning
    of cancelling commands. *)
Definition drop_iff_supported (objects : gmap string ObjectDefinition) (n : PlannerNode) : Prop :=
  forall es, PlannerGraph.outgoingEdges objects n = Ok es ->
    (exists e, e ∈ es /\ command (to e) = Some "d")
    <-> (exists h oh, holding n = Some h /\ objects !! h = Some oh
                      /\ ~ support_forbidden (topObject objects n) oh).


(** The claim as the design document states it, for one literal [l]: the
    heuristic is 0 where the goal test holds and positive elsewhere. *)
Definition zero_iff_satisfied (objects : gmap string ObjectDefinition) (l : Literal)
    (n : PlannerNode) : Prop :=
  forall b h, goal [[l]] objects n = Ok b -> heuristics [[l]] n = Ok h ->
    (b = true -> h = Num 0) /\ (b = false -> exists z, h = Num z /\ 0 < z).

(** The round-trip claim as the design document states it: from a state
    with the arm right of column 0, left and then right are both edges. *)
Definition left_right_edges (objects : gmap string ObjectDefinition) (n : PlannerNode) : Prop :=
  arm n > 0 ->
  exists e1 e2, is_edge objects n "l" e1 /\ is_edge objects (to e1) "r" e2
                /\ toString (to e2) = toString n /\ cost e1 = 1 /\ cost e2 = 1.

(** The end-to-end claim as the design document states it: the search on
    the example returns the plan pick, right, drop with cost 3. *)
Definition pick_right_drop_found `{PQ : PriorityQueue (QueueElement PlannerNode)}
    (clock : nat -> Z) (fuel : nat) : Prop :=
  exists r,
    aStarSearch toString (newPlannerGraph objectsA) (goal goalAOnFloor objectsA)
      (heuristics goalAOnFloor) 100 clock fuel startA = Some (Ok r)
    /\ path_cost r = 3
    /\ command <$> tail (path r) = [Some "p"; Some "r"; Some "d"].


(** [only_TypeError m]: if the computation [m] throws, it throws a
    [TypeError]. *)
Definition only_TypeError {A} (m : result A) : Prop :=
  forall e, m = Throw e -> e = TypeError.
(** A literal with its polarity replaced. *)
Definition withPolarity (b : bool) (l : Literal) : Literal :=
  {| polarity := b; relation := relation l; args := args l |}.

(** A formula with [f] applied to each of its literals. *)
Definition mapLiterals (f : Literal -> Literal) (interpretations : DNFFormula) : DNFFormula :=
  (fun c : Conjunction => f <$> c) <$> interpretations.

(** The literal that names the same arrangement from the other entity's
    side: [rightof(x, y)] as [leftof(y, x)] and [under(x, y)] as
    [above(y, x)]; any other literal is left as it is. *)
Definition mirror (l : Literal) : Literal :=
  match args l with
  | x :: y :: rest =>
      if bool_decide (relation l = "rightof") then mkLiteral (polarity l) "leftof" (y :: x :: rest)
      else if bool_decide (relation l = "under") then mkLiteral (polarity l) "above" (y :: x :: rest)
      else l
  | _ => l
  end.

(** [c] right of [b], and [a] under [c]. *)
Definition goalCRightOfB : DNFFormula :=
  [[mkLiteral true "rightof" ["c"; "b"]]; [mkLiteral true "under" ["a"; "c"]]].

(** The edge of [heldAOverB] for the command [r]. *)
Definition rightOfHeldAOverB : Edge PlannerNode :=
  {| from := heldAOverB;
     to := mkPlannerNode [["b"]; ["c"]] (Some "a") 1 (Some "r") None;
     cost := 1 |}.

(** A stack obeys the physical laws when, between every entity and the one
    lying directly on it, none of the six conditions that forbid a drop
    holds; a state obeys them when all its stacks do. *)
Definition legal_stack (objects : gmap string ObjectDefinition) (s : list string) : Prop :=
  forall (i : nat) below above ob oa,
    s !! i = Some below -> s !! S i = Some above ->
    objects !! below = Some ob -> objects !! above = Some oa ->
    ~ support_forbidden (Some ob) oa.

Definition legal_state (objects : gmap string ObjectDefinition) (n : PlannerNode) : Prop :=
  Forall (legal_stack objects) (stacks n).
(** ** Paths of a graph and the elements of a search *)

Section SearchPaths.
Context {Node : Type}.
Variable graph : Graph Node.

(** [graph_path ns c]: the nodes [ns] follow edges of the graph, each node
    after the first being the target of an edge that [outgoingEdges] returns
    for the node before it, and [c] is the sum of the costs of these edges. *)
Inductive graph_path : list Node -> Z -> Prop :=
  | path_one n : graph_path [n] 0
  | path_snoc ns n c es e :
      graph_path (ns ++ [n]) c ->
      outgoingEdges graph n = Ok es -> e ∈ es ->
      graph_path ((ns ++ [n]) ++ [to e]) (c + cost e).

(** The queue elements that a search from [start] creates: the root, and
    for an element already created one element per edge leaving its node,
    whatever the heuristic value [h]. *)
Inductive search_element (start : Node) : QueueElement Node -> Prop :=
  | element_root h : search_element start (newQueueElement None start 0 h)
  | element_child p es e h :
      search_element start p ->
      outgoingEdges graph (qe_node p) = Ok es -> e ∈ es ->
      search_element start (newQueueElement (Some p) (to e) (qe_g p + cost e) h).

End SearchPaths.

(** A clock that jumps by 200 seconds at every reading. *)
Definition jumpingClock : nat -> Z := fun k => Z.of_nat k * 200000.

(** ** The finite state space of a world *)

(** All lists over [alphabet] of length at most [m]. *)
Fixpoint words (alphabet : list string) (m : nat) : list (list string) :=
  match m with
  | O => [[]]
  | S m' => [] :: (a ← alphabet; w ← words alphabet m'; [a :: w])
  end.

(** All lists of length [k] with elements from [choices]. *)
Fixpoint tuples {X} (choices : list X) (k : nat) : list (list X) :=
  match k with
  | O => [[]]
  | S k' => x ← choices; t ← tuples choices k'; [x :: t]
  end.

(** The keys of the states with [columns] columns that arrange [m]
    entities out of [ents] in the stacks and the holding slot, the arm being
    over one of the columns. *)
Definition stateKeys (ents : list string) (columns : nat) (m : nat) : list StateJSON :=
  st ← tuples (words ents m) columns;
  h ← None :: (Some <$> ents);
  a ← seqZ 0 (Z.of_nat columns);
  if bool_decide (length (concat st ++ option_list h) = m)
  then [mkStateJSON st h a] else [].

(** The start node that [planInterpretation] builds from a world. *)
Definition startNode (state : WorldState) : PlannerNode :=
  mkPlannerNode (w_stacks state) (w_holding state) (w_arm state) None None.

(** A literal on which the goal test dereferences a missing catalog entry:
    its relation is not [holding], its two entities are both in the stacks,
    the second is not ["floor"], has no entry in the catalog and does not
    name a property that every object inherits. *)
Definition reads_uncatalogued (objects : gmap string ObjectDefinition) (n : PlannerNode)
    (l : Literal) : Prop :=
  relation l <> "holding"
  /\ exists x y, args l !! 0%nat = Some x /\ args l !! 1%nat = Some y
                 /\ y <> "floor"
                 /\ x ∈ concat (stacks n) /\ y ∈ concat (stacks n)
                 /\ objects !! y = None /\ JS.inherited y = false.

(** The first literal of a formula: [interpretations[0][0]]. *)
Definition firstLiteral (interpretations : DNFFormula) : option Literal :=
  interpretations !! 0%nat ≫= (fun c : Conjunction => c !! 0%nat).

(** An interpretation of the command "put [a] on the floor" and one that
    carries no formula. *)
Definition putAOnFloor : InterpretationResult unit := mkInterpretationResult tt goalAOnFloor.
Definition noFormula : InterpretationResult unit := mkInterpretationResult tt [].

(** The question "where is [a]?" as the interpreter encodes it. *)
Definition whereIsA : DNFFormula := [[mkLiteral true "where" ["a"]]].

(** A world in which nothing is held and [a] is in no stack. *)
Definition worldWithoutA : WorldState := mkWorldState [["b"]; []] None 0 exampleObjects.

(** All ways to choose one element from each group, the choices from the
    earlier groups varying slowest. *)
Fixpoint selections {X} (groups : list (list X)) : list (list X) :=
  match groups with
  | [] => [[]]
  | group :: rest => x ← group; t ← selections rest; [x :: t]
  end.

(** A literal that [isValid] accepts. *)
Definition validLiteral (objects : gmap string ObjectDefinition) (l : Literal) : Prop :=
  isValid objects (relation l) (args l !! 0%nat) (args l !! 1%nat) = Ok true.

(** A conjunction that has a literal and whose literals [isValid] accepts
    in [state]. *)
Definition validConjunction (state : WorldState) (c : Conjunction) : Prop :=
  c <> [] /\ Forall (validLiteral (w_objects state)) c.

(** What [interpret] keeps of one parse: its interpretation when
    [interpretCommand] returns, the value thrown otherwise. *)
Definition accepted (state : WorldState) (p : ParseResult)
  : option (InterpretationResult ParseResult) :=
  match interpretCommand state (parse p) with
  | Ok (Some formula) => Some (mkInterpretationResult p formula)
  | _ => None
  end.

Definition thrownBy (state : WorldState) (p : ParseResult) : option Thrown :=
  match interpretCommand state (parse p) with
  | Ok (Some _) => None
  | Ok None => Some (inr "No interpretations possible")
  | Throw err => Some (inl err)
  end.

(** Three columns with the ball [a] and the boxes [b] and [c] on the floor. *)
Definition threeColumns : WorldState :=
  mkWorldState [["a"]; ["b"]; ["c"]] None 0 exampleObjects.

(** "move a ball inside a box". *)
Definition moveABallInsideABox : Command :=
  mkCommand "move" (Some (mkEntity "any" (SimpleObject None None "ball")))
    (Some (mkLocation "inside" (mkEntity "any" (SimpleObject None None "box")))).

(** "a box on the floor" and "put it inside a box on the floor". *)
Definition aBoxOnTheFloor : ParserObject :=
  RelativeObject (SimpleObject None None "box") "ontop" "any" (SimpleObject None None "floor").
Definition putItInsideABoxOnTheFloor : Command :=
  mkCommand "put" None (Some (mkLocation "inside" (mkEntity "any" aBoxOnTheFloor))).

(** The argument by which [allQuantifierValidator] groups the literals: the
    first when [fromQuantifier] is [all], the second otherwise. *)
Definition groupingArgument (fromQuantifier : string) (l : Literal) : option string :=
  if bool_decide (fromQuantifier = "all") then args l !! 0%nat else args l !! 1%nat.

(** Groups whose keys are distinct entities of [ents], each holding literals
    with that entity as their [key]. *)
Definition groupedBy (key : Literal -> option string) (ents : list string)
    (groups : list (string * list Literal)) : Prop :=
  NoDup groups.*1
  /\ Forall (fun kv => kv.1 ∈ ents /\ Forall (fun l => key l = Some kv.1) kv.2) groups.

(** "move all boxes left of a ball". *)
Definition allBoxes : ParserEntity := mkEntity "all" (SimpleObject None None "box").
Definition leftOfABall : ParserLocation :=
  mkLocation "leftof" (mkEntity "any" (SimpleObject None None "ball")).
Definition moveAllBoxesLeftOfABall : Command :=
  mkCommand "move" (Some allBoxes) (Some leftOfABall).

(** * Properties *)

(** ** The order on [number] and the reference queue *)

Lemma num_leb_le a b : num_leb a b = true <-> num_le a b.
Proof.
  destruct a, b; simpl; try tauto; try (split; [discriminate | tauto]).
  apply bool_decide_eq_true.
Qed.

Lemma num_le_refl a : num_le a a.
Proof. destruct a; simpl; [lia | exact I]. Qed.

Lemma num_le_trans a b c : num_le a b -> num_le b c -> num_le a c.
Proof. destruct a, b, c; simpl; try tauto; lia. Qed.

Lemma num_le_total a b : num_le a b \/ num_le b a.
Proof. destruct a, b; simpl; try tauto; lia. Qed.

Lemma num_leb_false a b : num_leb a b = false -> num_le b a.
Proof.
  intros Hf. destruct (num_le_total a b) as [Hab | Hba]; [| exact Hba].
  apply num_leb_le in Hab. congruence.
Qed.

Section ListQueueLaws.
Context {E : Type} (prio : E -> number).

Lemma extract_min_spec (x : E) (l : list E) :
  x :: l ≡ₚ (extract_min prio x l).1 :: (extract_min prio x l).2
  /\ num_le (prio (extract_min prio x l).1) (prio x)
  /\ Forall (fun y => num_le (prio (extract_min prio x l).1) (prio y))
            (extract_min prio x l).2.
Proof.
  revert x. induction l as [| y l IH]; intros x; simpl.
  - split; [reflexivity |]. split; [apply num_le_refl | constructor].
  - specialize (IH y). destruct (extract_min prio y l) as [m r] eqn:Hm.
    simpl in IH. destruct IH as (Hperm & Hmy & Hall).
    destruct (num_leb (prio x) (prio m)) eqn:Hle; simpl.
    + apply num_leb_le in Hle.
      split; [reflexivity |]. split; [apply num_le_refl |].
      constructor; [eapply num_le_trans; eassumption |].
      assert (Hmr : Forall (fun z => num_le (prio x) (prio z)) (m :: r)).
      { constructor; [assumption |].
        eapply Forall_impl; [exact Hall |].
        intros z Hz. simpl in Hz. eapply num_le_trans; eassumption. }
      rewrite Forall_forall in Hmr |- *. intros z Hz. apply Hmr.
      rewrite <- Hperm. apply list_elem_of_In. right.
      apply list_elem_of_In, Hz.
    + apply num_leb_false in Hle.
      split; [rewrite Hperm; apply perm_swap |].
      split; [assumption |]. constructor; assumption.
Qed.

Lemma lq_add_perm (x : E) (q : list E) : lq_add x q ≡ₚ x :: q.
Proof. unfold lq_add. symmetry. apply Permutation_cons_append. Qed.

Lemma lq_dequeue_None (q : list E) : lq_dequeue prio q = None <-> q = [].
Proof. destruct q; simpl; split; congruence. Qed.

Lemma lq_dequeue_Some (q : list E) (x : E) (q' : list E) :
  lq_dequeue prio q = Some (x, q') ->
  q ≡ₚ x :: q' /\ Forall (fun y => num_le (prio x) (prio y)) q'.
Proof.
  destruct q as [| y l]; simpl; [discriminate |].
  intros Hd. injection Hd as Hd.
  pose proof (extract_min_spec y l) as (Hperm & _ & Hall).
  rewrite Hd in Hperm, Hall. simpl in *. split; assumption.
Qed.

End ListQueueLaws.

Lemma ListQueue_lawful {E : Type} (prio : E -> number) : LawfulQueue prio (ListQueue prio).
Proof.
  split.
  - reflexivity.
  - apply lq_add_perm.
  - apply lq_dequeue_None.
  - apply lq_dequeue_Some.
Qed.

(** ** The search engine *)

Section AStarFacts.
Context {Node Key : Type} `{EqDecision Key}.
Variable toStr : Node -> Key.
Context `{PQ : PriorityQueue (QueueElement Node)} `{!LawfulQueue qe_f PQ}.
Variable graph : Graph Node.
Variable goal_ : Node -> result bool.
Variable heuristics_ : Node -> result number.
Variable timeout : Z.
Variable clock : nat -> Z.

(** The first pop of a search returns the root element. *)
Lemma pq_dequeue_singleton (x : QueueElement Node) :
  exists q', pq_dequeue (pq_add x pq_empty) = Some (x, q').
Proof.
  pose proof (pq_elements_add x pq_empty) as Hadd.
  rewrite pq_elements_empty in Hadd.
  destruct (pq_dequeue (pq_add x pq_empty)) as [[y q'] |] eqn:Hd.
  - apply pq_dequeue_Some in Hd as (Hperm & _).
    rewrite Hadd in Hperm.
    assert (Hy : y ∈ [x]) by (rewrite Hperm; apply list_elem_of_here).
    apply list_elem_of_singleton in Hy as ->. eauto.
  - apply pq_dequeue_None in Hd. rewrite Hd in Hadd.
    apply Permutation_nil_cons in Hadd. contradiction.
Qed.

Lemma Set_contains_same_key (s : list Node) (x y : Node) :
  toStr x = toStr y -> Set_contains toStr s x = Set_contains toStr s y.
Proof. unfold Set_contains. intros ->. reflexivity. Qed.

(** The ghost log equals the closed set, whose keys are pairwise distinct. *)
Lemma aStarLoop_expanded_NoDup fuel reads frontier visited :
  NoDup (toStr <$> visited) ->
  NoDup (toStr <$>
           (aStarLoop toStr graph goal_ heuristics_ timeout clock
                      fuel reads frontier visited visited).2).
Proof.
  revert reads frontier visited.
  induction fuel as [| fuel IH]; intros reads frontier visited Hnd; simpl; [exact Hnd |].
  destruct (pq_dequeue frontier) as [[current frontier'] |]; [| exact Hnd].
  case_bool_decide; [exact Hnd |].
  destruct (Set_contains toStr visited (qe_node current)) eqn:Hcontains; simpl;
    [apply IH; exact Hnd |].
  destruct (goal_ (qe_node current)) as [[|] | e]; try exact Hnd.
  assert (Hadd : Set_add toStr visited (qe_node current) = visited ++ [qe_node current])
    by (unfold Set_add; rewrite Hcontains; reflexivity).
  assert (Hnd' : NoDup (toStr <$> visited ++ [qe_node current])).
  { rewrite fmap_app. apply NoDup_app. split; [exact Hnd |]. split.
    - intros k Hk Hk'. simpl in Hk'. apply list_elem_of_singleton in Hk' as ->.
      unfold Set_contains in Hcontains.
      apply bool_decide_eq_false in Hcontains. contradiction.
    - simpl. apply NoDup_singleton. }
  rewrite Hadd.
  destruct (outgoingEdges graph (qe_node current)) as [edges | e]; [| exact Hnd'].
  destruct (addNeighbours _ _ _ _ _ _) as [frontier'' | e]; [| exact Hnd'].
  apply IH. exact Hnd'.
Qed.

Lemma aStarRun_expanded_NoDup fuel start :
  NoDup (toStr <$>
           (aStarRun toStr graph goal_ heuristics_ timeout clock fuel start).2).
Proof.
  unfold aStarRun. destruct (heuristics_ start); simpl; [| constructor].
  apply aStarLoop_expanded_NoDup. constructor.
Qed.

(** A start node that passes the goal test is returned at the first pop,
    unless the clock has already run past the budget. *)
Lemma aStarRun_goal_at_start fuel start h :
  heuristics_ start = Ok h -> goal_ start = Ok true ->
  clock 1 - clock 0 <= timeout * 1000 ->
  aStarRun toStr graph goal_ heuristics_ timeout clock (S fuel) start
  = (Some (Ok {| path := [start]; path_cost := 0 |}), []).
Proof.
  intros Hh Hgoal Hclock. unfold aStarRun. rewrite Hh. simpl.
  destruct (pq_dequeue_singleton (newQueueElement None start 0 h)) as [q' ->].
  rewrite bool_decide_eq_false_2 by lia.
  unfold Set_contains. simpl. rewrite Hgoal. reflexivity.
Qed.





End AStarFacts.

(** ** What the search returns *)

Section AStarPaths.
Context {Node Key : Type} `{EqDecision Key}.
Variable toStr : Node -> Key.
Context `{PQ : PriorityQueue (QueueElement Node)} `{!LawfulQueue qe_f PQ}.
Variable graph : Graph Node.
Variable goal_ : Node -> result bool.
Variable heuristics_ : Node -> result number.
Variable timeout : Z.
Variable clock : nat -> Z.
Variable start : Node.

Lemma search_element_path (q : QueueElement Node) :
  search_element graph start q ->
  graph_path graph (reverse (backtrack q)) (qe_g q)
  /\ head (reverse (backtrack q)) = Some start
  /\ last (reverse (backtrack q)) = Some (qe_node q).
Proof.
  induction 1 as [h | p es e h Hp (IHpath & IHhead & IHlast) Hes He].
  - simpl. split; [constructor |]. split; reflexivity.
  - simpl. rewrite reverse_cons.
    apply last_Some in IHlast as (ns & Hns). rewrite Hns in *.
    split; [| split].
    + eapply path_snoc; eassumption.
    + destruct ns; simpl in *; exact IHhead.
    + rewrite last_snoc. reflexivity.
Qed.

Lemma addNeighbours_elements (current : QueueElement Node) (es edges : list (Edge Node))
    (visited : list Node) (frontier frontier' : pq) :
  search_element graph start current ->
  outgoingEdges graph (qe_node current) = Ok es ->
  edges ⊆ es ->
  Forall (search_element graph start) (pq_elements frontier) ->
  addNeighbours toStr heuristics_ current edges visited frontier = Ok frontier' ->
  Forall (search_element graph start) (pq_elements frontier').
Proof.
  intros Hcur Hes. revert frontier.
  induction edges as [| edge rest IH]; intros frontier Hsub Hall; simpl.
  - intros [= <-]. exact Hall.
  - assert (Hrest : rest ⊆ es) by (intros x Hx; apply Hsub; right; exact Hx).
    destruct (Set_contains toStr visited (to edge)); simpl; [apply IH; assumption |].
    destruct (heuristics_ (to edge)) as [h | err]; simpl; [| discriminate].
    apply IH; [exact Hrest |].
    rewrite pq_elements_add. constructor; [| exact Hall].
    eapply element_child; [exact Hcur | exact Hes |]. apply Hsub. left.
Qed.

Lemma aStarLoop_returns_path fuel reads frontier visited expanded r :
  Forall (search_element graph start) (pq_elements frontier) ->
  (aStarLoop toStr graph goal_ heuristics_ timeout clock fuel reads frontier visited expanded).1
  = Some (Ok r) ->
  graph_path graph (path r) (path_cost r)
  /\ head (path r) = Some start
  /\ exists g, last (path r) = Some g /\ goal_ g = Ok true.
Proof.
  revert reads frontier visited expanded.
  induction fuel as [| fuel IH]; intros reads frontier visited expanded Hall; simpl;
    [discriminate |].
  destruct (pq_dequeue frontier) as [[current frontier'] |] eqn:Hd; [| discriminate].
  apply pq_dequeue_Some in Hd as (Hperm & _).
  rewrite Hperm in Hall. apply Forall_cons in Hall as (Hcur & Hall').
  case_bool_decide; [discriminate |].
  destruct (Set_contains toStr visited (qe_node current)); simpl; [apply IH; exact Hall' |].
  destruct (goal_ (qe_node current)) as [[|] | err] eqn:Hgoal; [| | discriminate].
  - intros [= <-]. simpl.
    destruct (search_element_path current Hcur) as (Hpath & Hhead & Hlast).
    split; [exact Hpath |]. split; [exact Hhead |]. eauto.
  - destruct (outgoingEdges graph (qe_node current)) as [edges | err] eqn:Hes; [| discriminate].
    destruct (addNeighbours toStr heuristics_ current edges _ frontier') as [frontier'' | err]
      eqn:Hadd; [| discriminate].
    apply IH. eapply addNeighbours_elements; [exact Hcur | exact Hes | | exact Hall' | exact Hadd].
    intros x Hx. exact Hx.
Qed.

Lemma aStarRun_returns_path fuel r :
  (aStarRun toStr graph goal_ heuristics_ timeout clock fuel start).1 = Some (Ok r) ->
  graph_path graph (path r) (path_cost r)
  /\ head (path r) = Some start
  /\ exists g, last (path r) = Some g /\ goal_ g = Ok true.
Proof.
  unfold aStarRun.
  destruct (heuristics_ start) as [h | err]; simpl; [| discriminate].
  apply aStarLoop_returns_path.
  rewrite pq_elements_add, pq_elements_empty. repeat constructor.
Qed.

(** Whatever [aStarSearch] returns is a path of the graph: it starts at the
    start node, every further node is reached from the one before it by an
    edge that [outgoingEdges] returned, it ends in a node that passes the
    goal test, and the cost reported is the sum of the costs of its edges. *)
Theorem aStarSearch_returns_path fuel r :
  aStarSearch toStr graph goal_ heuristics_ timeout clock fuel start = Some (Ok r) ->
  graph_path graph (path r) (path_cost r)
  /\ head (path r) = Some start
  /\ exists g, last (path r) = Some g /\ goal_ g = Ok true.
Proof. apply aStarRun_returns_path. Qed.

(** *** The clock and the errors *)

Lemma aStarLoop_within_budget (timeout' : Z) (clock' : nat -> Z) fuel reads frontier visited expanded :
  (forall k, clock k - clock 0%nat <= timeout * 1000) ->
  (forall k, clock' k - clock' 0%nat <= timeout' * 1000) ->
  aStarLoop toStr graph goal_ heuristics_ timeout clock fuel reads frontier visited expanded
  = aStarLoop toStr graph goal_ heuristics_ timeout' clock' fuel reads frontier visited expanded.
Proof.
  intros Hc Hc'. revert reads frontier visited expanded.
  induction fuel as [| fuel IH]; intros reads frontier visited expanded; simpl; [reflexivity |].
  destruct (pq_dequeue frontier) as [[current frontier'] |]; [| reflexivity].
  rewrite (bool_decide_eq_false_2 (clock reads - clock 0%nat > timeout * 1000))
    by (specialize (Hc reads); lia).
  rewrite (bool_decide_eq_false_2 (clock' reads - clock' 0%nat > timeout' * 1000))
    by (specialize (Hc' reads); lia).
  destruct (negb (Set_contains toStr visited (qe_node current))); [| apply IH].
  destruct (goal_ (qe_node current)) as [[|] | err]; try reflexivity.
  destruct (outgoingEdges graph (qe_node current)) as [edges | err]; [| reflexivity].
  destruct (addNeighbours _ _ _ _ _ _) as [frontier'' | err]; [| reflexivity].
  apply IH.
Qed.

(** While the clock stays within the budget, neither the budget nor the
    clock has any influence on what the search returns. *)
Theorem aStarSearch_within_budget (timeout' : Z) (clock' : nat -> Z) fuel :
  (forall k, clock k - clock 0%nat <= timeout * 1000) ->
  (forall k, clock' k - clock' 0%nat <= timeout' * 1000) ->
  aStarSearch toStr graph goal_ heuristics_ timeout clock fuel start
  = aStarSearch toStr graph goal_ heuristics_ timeout' clock' fuel start.
Proof.
  intros Hc Hc'. unfold aStarSearch, aStarRun.
  destruct (heuristics_ start) as [h | err]; [| reflexivity].
  rewrite (aStarLoop_within_budget timeout' clock'); [reflexivity | exact Hc | exact Hc'].
Qed.

Lemma addNeighbours_throws current edges visited frontier err :
  addNeighbours toStr heuristics_ current edges visited frontier = Throw err ->
  exists n, heuristics_ n = Throw err.
Proof.
  revert frontier. induction edges as [| edge rest IH]; intros frontier; simpl; [discriminate |].
  destruct (Set_contains toStr visited (to edge)); simpl; [apply IH |].
  destruct (heuristics_ (to edge)) as [h | err'] eqn:Hh; simpl; [apply IH |].
  intros [= <-]. eauto.
Qed.

Lemma aStarLoop_throws fuel reads frontier visited expanded err :
  (aStarLoop toStr graph goal_ heuristics_ timeout clock fuel reads frontier visited expanded).1
  = Some (Throw err) ->
  err = NoPath
  \/ (err = SearchTimeout /\ exists k, clock k - clock 0%nat > timeout * 1000)
  \/ (exists n, goal_ n = Throw err \/ heuristics_ n = Throw err
                \/ outgoingEdges graph n = Throw err).
Proof.
  revert reads frontier visited expanded.
  induction fuel as [| fuel IH]; intros reads frontier visited expanded; simpl; [discriminate |].
  destruct (pq_dequeue frontier) as [[current frontier'] |]; simpl;
    [| intros [= <-]; auto].
  case_bool_decide as Hclock; simpl; [intros [= <-]; right; left; eauto |].
  destruct (negb (Set_contains toStr visited (qe_node current))); [| apply IH].
  destruct (goal_ (qe_node current)) as [[|] | err'] eqn:Hgoal; simpl.
  - discriminate.
  - destruct (outgoingEdges graph (qe_node current)) as [edges | err'] eqn:Hes; simpl.
    + destruct (addNeighbours _ _ _ _ _ _) as [frontier'' | err'] eqn:Hadd; simpl; [apply IH |].
      intros [= <-]. apply addNeighbours_throws in Hadd as (n & Hn). eauto 7.
    + intros [= <-]. eauto 7.
  - intros [= <-]. eauto 7.
Qed.

Lemma aStarRun_throws fuel err :
  (aStarRun toStr graph goal_ heuristics_ timeout clock fuel start).1 = Some (Throw err) ->
  err = NoPath
  \/ (err = SearchTimeout /\ exists k, clock k - clock 0%nat > timeout * 1000)
  \/ (exists n, goal_ n = Throw err \/ heuristics_ n = Throw err
                \/ outgoingEdges graph n = Throw err).
Proof.
  unfold aStarRun.
  destruct (heuristics_ start) as [h | err'] eqn:Hh; simpl.
  - apply aStarLoop_throws.
  - intros [= <-]. eauto 7.
Qed.

(** An error thrown by the search is "Could not find a path", or "Reached
    timeout" with a clock reading past the budget, or an error that the
    goal test, the heuristic or the graph threw and that the search passes
    on unchanged. *)
Theorem aStarSearch_throws fuel err :
  aStarSearch toStr graph goal_ heuristics_ timeout clock fuel start = Some (Throw err) ->
  err = NoPath
  \/ (err = SearchTimeout /\ exists k, clock k - clock 0%nat > timeout * 1000)
  \/ (exists n, goal_ n = Throw err \/ heuristics_ n = Throw err
                \/ outgoingEdges graph n = Throw err).
Proof. apply aStarRun_throws. Qed.

(** *** Termination on a finite state space *)

Section Finite.
(** [universe] lists the keys of the states that can be met, and no state
    has more than [branching] successors. *)
Variable universe : list Key.
Variable branching : nat.
Hypothesis universe_closed : forall n, toStr n ∈ universe ->
  exists es, outgoingEdges graph n = Ok es /\ (length es <= branching)%nat
             /\ forall e, e ∈ es -> toStr (to e) ∈ universe.

Lemma addNeighbours_bound (current : QueueElement Node) (edges : list (Edge Node))
    (visited : list Node) (frontier frontier' : pq) :
  (forall e, e ∈ edges -> toStr (to e) ∈ universe) ->
  Forall (fun q => toStr (qe_node q) ∈ universe) (pq_elements frontier) ->
  addNeighbours toStr heuristics_ current edges visited frontier = Ok frontier' ->
  Forall (fun q => toStr (qe_node q) ∈ universe) (pq_elements frontier')
  /\ (length (pq_elements frontier') <= length (pq_elements frontier) + length edges)%nat.
Proof.
  revert frontier. induction edges as [| edge rest IH]; intros frontier Hin Hall; simpl.
  - intros [= <-]. split; [exact Hall | lia].
  - assert (Hrest : forall e, e ∈ rest -> toStr (to e) ∈ universe)
      by (intros e He; apply Hin; right; exact He).
    destruct (Set_contains toStr visited (to edge)); simpl.
    + intros Hadd. destruct (IH frontier Hrest Hall Hadd) as (Hall' & Hlen).
      split; [exact Hall' | lia].
    + destruct (heuristics_ (to edge)) as [h | err]; simpl; [| discriminate].
      intros Hadd.
      assert (Hall1 : Forall (fun q => toStr (qe_node q) ∈ universe)
                (pq_elements (pq_add (newQueueElement (Some current) (to edge)
                                        (qe_g current + cost edge) h) frontier))).
      { rewrite pq_elements_add. constructor; [| exact Hall]. simpl. apply Hin. left. }
      destruct (IH _ Hrest Hall1 Hadd) as (Hall' & Hlen).
      split; [exact Hall' |].
      rewrite pq_elements_add in Hlen. simpl in Hlen. lia.
Qed.

Lemma aStarLoop_terminates fuel reads frontier visited expanded (d : nat) :
  NoDup (toStr <$> visited) ->
  (forall k, k ∈ toStr <$> visited -> k ∈ universe) ->
  (length visited + d = length universe)%nat ->
  Forall (fun q => toStr (qe_node q) ∈ universe) (pq_elements frontier) ->
  (length (pq_elements frontier) + branching * d < fuel)%nat ->
  exists r,
    (aStarLoop toStr graph goal_ heuristics_ timeout clock fuel reads frontier visited expanded).1
    = Some r.
Proof.
  revert reads frontier visited expanded d.
  induction fuel as [| fuel IH]; intros reads frontier visited expanded d Hnd Hsub Hd Hall Hfuel;
    [lia |].
  simpl.
  destruct (pq_dequeue frontier) as [[current frontier'] |] eqn:Hdq; [| simpl; eauto].
  apply pq_dequeue_Some in Hdq as (Hperm & _).
  assert (Hlen : length (pq_elements frontier) = S (length (pq_elements frontier')))
    by (rewrite Hperm; reflexivity).
  rewrite Hperm in Hall. apply Forall_cons in Hall as (Hcur & Hall').
  case_bool_decide; [simpl; eauto |].
  destruct (Set_contains toStr visited (qe_node current)) eqn:Hcontains; simpl.
  { apply (IH _ _ _ _ d); try assumption. lia. }
  destruct (goal_ (qe_node current)) as [[|] | err]; simpl; eauto.
  assert (Hadd : Set_add toStr visited (qe_node current) = visited ++ [qe_node current])
    by (unfold Set_add; rewrite Hcontains; reflexivity).
  rewrite Hadd.
  assert (Hnd' : NoDup (toStr <$> visited ++ [qe_node current])).
  { rewrite fmap_app. apply NoDup_app. split; [exact Hnd |]. split.
    - intros k Hk Hk'. simpl in Hk'. apply list_elem_of_singleton in Hk' as ->.
      unfold Set_contains in Hcontains.
      apply bool_decide_eq_false in Hcontains. contradiction.
    - simpl. apply NoDup_singleton. }
  assert (Hsub' : forall k, k ∈ toStr <$> visited ++ [qe_node current] -> k ∈ universe).
  { intros k Hk. rewrite fmap_app in Hk. apply elem_of_app in Hk as [Hk | Hk].
    - apply Hsub, Hk.
    - simpl in Hk. apply list_elem_of_singleton in Hk as ->. exact Hcur. }
  assert (Hroom : (length (visited ++ [qe_node current]) <= length universe)%nat).
  { rewrite <- (length_fmap toStr). apply submseteq_length.
    apply NoDup_submseteq; [exact Hnd' | exact Hsub']. }
  rewrite length_app in Hroom. simpl in Hroom.
  destruct d as [| d']; [lia |].
  destruct (universe_closed (qe_node current) Hcur) as (es & Hes & Hbranch & Hes_in).
  rewrite Hes.
  destruct (addNeighbours toStr heuristics_ current es (visited ++ [qe_node current]) frontier')
    as [frontier'' | err] eqn:Hnb; simpl; [| eauto].
  destruct (addNeighbours_bound _ _ _ _ _ Hes_in Hall' Hnb) as (Hall'' & Hlen'').
  apply (IH _ _ _ _ d'); try assumption.
  - rewrite length_app. simpl. lia.
  - rewrite Nat.mul_succ_r in Hfuel. lia.
Qed.

Lemma aStarRun_terminates fuel :
  toStr start ∈ universe ->
  (branching * length universe + 1 < fuel)%nat ->
  exists r, (aStarRun toStr graph goal_ heuristics_ timeout clock fuel start).1 = Some r.
Proof.
  intros Hstart Hfuel. unfold aStarRun.
  destruct (heuristics_ start) as [h | err]; simpl; [| eauto].
  apply (aStarLoop_terminates _ _ _ _ _ (length universe)).
  - constructor.
  - intros k Hk. apply elem_of_nil in Hk. contradiction.
  - reflexivity.
  - rewrite pq_elements_add, pq_elements_empty. repeat constructor. exact Hstart.
  - rewrite pq_elements_add, pq_elements_empty. simpl. lia.
Qed.

(** On a graph with finitely many states the search stops: if the keys of
    the states that can be met are among those of [universe] and no state
    has more than [branching] successors, then [branching * |universe| + 1]
    pops exhaust the frontier, so with more fuel than that the search
    returns a path or throws. *)
Theorem aStarSearch_terminates fuel :
  toStr start ∈ universe ->
  (branching * length universe + 1 < fuel)%nat ->
  exists r, aStarSearch toStr graph goal_ heuristics_ timeout clock fuel start = Some r.
Proof. apply aStarRun_terminates. Qed.

End Finite.

End AStarPaths.

(** ** Facts about the JavaScript primitives *)

Lemma JS_get_Some {A} (a : list A) (i : Z) (x : A) :
  JS.get a i = Some x <-> 0 <= i < JS.length a /\ a !! Z.to_nat i = Some x.
Proof.
  unfold JS.get, JS.length. case_bool_decide as Hi.
  - split; [discriminate | lia].
  - split.
    + intros Hx. split; [| exact Hx]. apply lookup_lt_Some in Hx. lia.
    + tauto.
Qed.

Lemma JS_get_in_range {A} (a : list A) (i : Z) :
  0 <= i < JS.length a -> exists x, JS.get a i = Some x.
Proof.
  intros Hi. unfold JS.get, JS.length in *.
  rewrite bool_decide_eq_false_2 by lia.
  apply lookup_lt_is_Some. lia.
Qed.

Lemma JS_get_None {A} (a : list A) (i : Z) :
  JS.get a i = None <-> ~ (0 <= i < JS.length a).
Proof.
  unfold JS.get, JS.length. case_bool_decide as Hi.
  - split; [lia | reflexivity].
  - rewrite lookup_ge_None. lia.
Qed.

Lemma indexOf_from_spec (a : list string) (e : string) (i : Z) :
  0 <= i ->
  (JS.indexOf_from a e i = -1 /\ e ∉ a)
  \/ (i <= JS.indexOf_from a e i < i + JS.length a
      /\ a !! Z.to_nat (JS.indexOf_from a e i - i) = Some e).
Proof.
  revert i. induction a as [| x a IH]; intros i Hi; simpl.
  - left. split; [reflexivity | apply not_elem_of_nil].
  - case_bool_decide as Hx.
    + subst x. right. unfold JS.length. simpl length. split; [lia |].
      replace (i - i) with 0 by lia. reflexivity.
    + destruct (IH (i + 1)) as [(Hr & Hnot) | (Hr & Hl)]; [lia | |].
      * left. split; [exact Hr |].
        rewrite elem_of_cons. intros [-> | Hin]; [congruence | contradiction].
      * right. unfold JS.length in *. simpl length. split; [lia |].
        replace (Z.to_nat (JS.indexOf_from a e (i + 1) - i))
          with (S (Z.to_nat (JS.indexOf_from a e (i + 1) - (i + 1)))) by lia.
        exact Hl.
Qed.

Lemma indexOf_spec (a : list string) (e : option string) :
  (JS.indexOf a e = -1 /\ forall x, e = Some x -> x ∉ a)
  \/ (0 <= JS.indexOf a e < JS.length a
      /\ exists x, e = Some x /\ a !! Z.to_nat (JS.indexOf a e) = Some x).
Proof.
  destruct e as [x |]; simpl.
  - destruct (indexOf_from_spec a x 0) as [(Hr & Hnot) | (Hr & Hl)]; [lia | |].
    + left. split; [exact Hr |]. intros y [= <-]. exact Hnot.
    + right. split; [lia |]. exists x. split; [reflexivity |].
      rewrite Z.sub_0_r in Hl. exact Hl.
  - left. split; [reflexivity | discriminate].
Qed.

Lemma indexOf_ge (a : list string) (e : option string) : -1 <= JS.indexOf a e < JS.length a.
Proof.
  destruct (indexOf_spec a e) as [(Hr & _) | (Hr & _)]; unfold JS.length in *; lia.
Qed.

Lemma indexOf_found (a : list string) (x : string) :
  x ∈ a -> 0 <= JS.indexOf a (Some x).
Proof.
  intros Hin. destruct (indexOf_spec a (Some x)) as [(_ & Hnot) | (Hr & _)]; [| lia].
  exfalso. exact (Hnot x eq_refl Hin).
Qed.

Lemma numAbove_nonneg (s : Stack) (e : option string) : 0 <= numAbove s (JS.indexOf s e).
Proof.
  unfold numAbove. pose proof (indexOf_ge s e). case_bool_decide; lia.
Qed.

(** [getStackIndex] returns the first column whose [indexOf] finds the
    entity; when it returns [undefined] no column contains the entity. *)
Lemma getStackIndex_from_Some (stacks : list Stack) (e : option string) (i c : Z) :
  getStackIndex_from stacks e i = Some c ->
  i <= c < i + JS.length stacks
  /\ exists s, stacks !! Z.to_nat (c - i) = Some s /\ 0 <= JS.indexOf s e.
Proof.
  revert i. induction stacks as [| s rest IH]; intros i; simpl; [discriminate |].
  unfold JS.length in *. simpl length. case_bool_decide as Hs.
  - intros [= <-]. split; [lia |]. exists s. replace (i - i) with 0 by lia.
    split; [reflexivity | lia].
  - intros Hc. destruct (IH _ Hc) as (Hr & s' & Hl & Hp). split; [lia |].
    exists s'. split; [| exact Hp].
    replace (Z.to_nat (c - i)) with (S (Z.to_nat (c - (i + 1)))) by lia. exact Hl.
Qed.

Lemma getStackIndex_from_None (stacks : list Stack) (e : option string) (i : Z) :
  getStackIndex_from stacks e i = None <-> Forall (fun s => JS.indexOf s e = -1) stacks.
Proof.
  revert i. induction stacks as [| s rest IH]; intros i; simpl.
  - split; [constructor | reflexivity].
  - pose proof (indexOf_ge s e). case_bool_decide as Hs.
    + split; [discriminate |]. intros Hall. inversion Hall; subst. lia.
    + rewrite IH. split.
      * intros Hall. constructor; [lia | exact Hall].
      * intros Hall. inversion Hall; subst. assumption.
Qed.

Lemma getStackIndex_Some (stacks : list Stack) (e : option string) (c : Z) :
  getStackIndex stacks e = Some c ->
  0 <= c < JS.length stacks
  /\ exists s, JS.get stacks c = Some s /\ 0 <= JS.indexOf s e.
Proof.
  intros Hc. apply getStackIndex_from_Some in Hc.
  destruct Hc as (Hr & s & Hl & Hp). split; [lia |].
  exists s. split; [| exact Hp]. apply JS_get_Some. split; [lia |].
  rewrite Z.sub_0_r in Hl. exact Hl.
Qed.

Lemma elem_of_concat {A} (x : A) (ls : list (list A)) :
  x ∈ concat ls <-> exists l, x ∈ l /\ l ∈ ls.
Proof.
  rewrite list_elem_of_In, in_concat. split.
  - intros (l & Hl & Hx). exists l. rewrite !list_elem_of_In. tauto.
  - intros (l & Hx & Hl). exists l. rewrite <- !list_elem_of_In. tauto.
Qed.

Lemma getStackIndex_found (stacks : list Stack) (x : string) :
  x ∈ concat stacks -> exists c, getStackIndex stacks (Some x) = Some c.
Proof.
  intros Hin. destruct (getStackIndex stacks (Some x)) as [c |] eqn:Hc; [eauto |].
  exfalso. apply getStackIndex_from_None in Hc.
  apply elem_of_concat in Hin as (s & Hxs & Hs).
  rewrite Forall_forall in Hc. specialize (Hc s Hs).
  apply indexOf_found in Hxs. lia.
Qed.

Lemma getStackIndex_None (stacks : list Stack) (x : string) :
  getStackIndex stacks (Some x) = None <-> x ∉ concat stacks.
Proof.
  split.
  - intros Hn Hin. apply getStackIndex_found in Hin as [c Hc]. congruence.
  - intros Hnot. destruct (getStackIndex stacks (Some x)) as [c |] eqn:Hc; [| reflexivity].
    exfalso. apply Hnot. apply getStackIndex_Some in Hc as (_ & s & Hs & Hp).
    apply JS_get_Some in Hs as (_ & Hs).
    destruct (indexOf_spec s (Some x)) as [(Hr & _) | (_ & y & [= <-] & Hy)]; [lia |].
    apply elem_of_concat. exists s. split.
    + eapply list_elem_of_lookup_2. exact Hy.
    + eapply list_elem_of_lookup_2. exact Hs.
Qed.

(** ** Inversion of the [result] monad *)

Lemma bind_Ok {A B} (m : result A) (k : A -> result B) (b : B) :
  m ≫= k = Ok b <-> exists a, m = Ok a /\ k a = Ok b.
Proof.
  destruct m as [a | e]; simpl.
  - split; [eauto | intros (a' & [= <-] & Hk); exact Hk].
  - split; [discriminate | intros (a' & [=] & _)].
Qed.

Lemma defined_Ok {A} (o : option A) (a : A) : defined o = Ok a <-> o = Some a.
Proof. destruct o; simpl; split; congruence. Qed.

Lemma field_of_Some objects (y : string) (o : ObjectDefinition) field :
  objects !! y = Some o -> field_of objects (Some y) field = Ok (Some (field o)).
Proof. intros Ho. unfold field_of. simpl. rewrite Ho. reflexivity. Qed.

(** Split the binds of a hypothesis [H : ... = Ok _] into their steps. *)
Ltac inv_result H :=
  repeat match type of H with
  | (_ ≫= _) = Ok _ =>
      let a := fresh "a" in
      let Ha := fresh "Hstep" in
      apply bind_Ok in H as (a & Ha & H)
  | Ok _ = Ok _ => injection H as H
  | Throw _ = Ok _ => discriminate H
  end.

(** ** Successor edges *)

Import PlannerGraph.

Lemma outgoingEdges_loop_spec objects node commands outgoing es :
  outgoingEdges_loop objects node commands outgoing = Ok es ->
  (forall c, c ∈ commands -> exists o, outgoingEdge objects node c = Ok o)
  /\ (forall e, e ∈ es <->
        e ∈ outgoing \/ exists c, c ∈ commands /\ outgoingEdge objects node c = Ok (Some e)).
Proof.
  revert outgoing. induction commands as [| c rest IH]; intros outgoing Hes; simpl in Hes.
  - injection Hes as <-. split.
    + intros c Hc. apply elem_of_nil in Hc. contradiction.
    + intros e. split; [tauto |]. intros [He | (c & Hc & _)]; [exact He |].
      apply elem_of_nil in Hc. contradiction.
  - apply bind_Ok in Hes as (o & Ho & Hes). apply IH in Hes as (Htot & Hmem). split.
    + intros c' Hc'. apply elem_of_cons in Hc' as [-> | Hc']; eauto.
    + intros e. rewrite Hmem. split.
      * intros [He | (c' & Hc' & He)].
        -- destruct o as [e' |]; [| tauto].
           apply elem_of_app in He as [He | He]; [tauto |].
           apply list_elem_of_singleton in He as ->. right. exists c.
           split; [apply elem_of_cons; tauto | exact Ho].
        -- right. exists c'. split; [apply elem_of_cons; tauto | exact He].
      * intros [He | (c' & Hc' & He)].
        -- left. destruct o; [apply elem_of_app |]; tauto.
        -- apply elem_of_cons in Hc' as [-> | Hc'].
           ++ left. rewrite Ho in He. injection He as ->.
              apply elem_of_app. right. apply list_elem_of_singleton. reflexivity.
           ++ right. eauto.
Qed.

(** An edge of [outgoingEdges] is the edge pushed for one of the four
    commands. *)
Lemma outgoingEdges_elem objects node es e :
  outgoingEdges objects node = Ok es ->
  e ∈ es <-> exists c, c ∈ ["l"; "r"; "p"; "d"] /\ outgoingEdge objects node c = Ok (Some e).
Proof.
  intros Hes. apply outgoingEdges_loop_spec in Hes as (_ & Hmem).
  rewrite Hmem. split; [| eauto].
  intros [He | He]; [| exact He]. apply elem_of_nil in He. contradiction.
Qed.

Lemma outgoingEdges_total objects node :
  (forall c, c ∈ ["l"; "r"; "p"; "d"] -> exists o, outgoingEdge objects node c = Ok o) ->
  exists es, outgoingEdges objects node = Ok es.
Proof.
  unfold outgoingEdges. generalize (@nil (Edge PlannerNode)).
  generalize ["l"; "r"; "p"; "d"]. intros commands.
  induction commands as [| c rest IH]; intros outgoing Htot; simpl; [eauto |].
  destruct (Htot c) as [o Ho]; [apply elem_of_cons; tauto |].
  rewrite Ho. simpl. apply IH. intros c' Hc'. apply Htot. apply elem_of_cons; tauto.
Qed.

Lemma pop_Some {A} (s : list A) (x : A) (s' : list A) :
  JS.pop s = Some (x, s') <-> s = s' ++ [x].
Proof.
  unfold JS.pop. split.
  - destruct (last s) as [y |] eqn:Hl; [| discriminate]. intros [= -> <-].
    apply last_Some in Hl as [l' ->]. rewrite removelast_last. reflexivity.
  - intros ->. rewrite last_snoc, removelast_last. reflexivity.
Qed.

(** Replacing one column: the other columns are untouched. *)
Lemma concat_set (stacks : list Stack) (i : Z) (s s' : Stack) :
  JS.get stacks i = Some s ->
  exists before after,
    concat stacks = before ++ s ++ after
    /\ concat (JS.set stacks i s') = before ++ s' ++ after.
Proof.
  intros Hs. apply JS_get_Some in Hs as (Hi & Hs).
  exists (concat (take (Z.to_nat i) stacks)), (concat (drop (S (Z.to_nat i)) stacks)).
  unfold JS.set. rewrite bool_decide_eq_false_2 by lia. split.
  - rewrite <- (take_drop_middle _ _ _ Hs) at 1.
    rewrite concat_app. reflexivity.
  - rewrite insert_take_drop by (eapply lookup_lt_Some; exact Hs).
    rewrite concat_app. reflexivity.
Qed.

Lemma cancels_l (previous : option string) :
  cancels previous "l" = bool_decide (previous = Some "r").
Proof.
  unfold cancels. repeat case_bool_decide; subst; try congruence; reflexivity.
Qed.

Lemma cancels_r (previous : option string) :
  cancels previous "r" = bool_decide (previous = Some "l").
Proof.
  unfold cancels. repeat case_bool_decide; subst; try congruence; reflexivity.
Qed.

Lemma cancels_d (previous : option string) :
  cancels previous "d" = bool_decide (previous = Some "p").
Proof.
  unfold cancels. repeat case_bool_decide; subst; try congruence; reflexivity.
Qed.

Lemma outgoingEdge_left objects n :
  outgoingEdge objects n "l" =
  if bool_decide (command n = Some "r") then Ok None
  else if bool_decide (arm n <= 0) then Ok None
  else Ok (Some {| from := n;
                   to := mkPlannerNode (stacks n) (holding n) (arm n - 1) (Some "l") None;
                   cost := 1 |}).
Proof.
  unfold outgoingEdge. rewrite cancels_l. case_bool_decide; reflexivity.
Qed.

Lemma outgoingEdge_right objects n :
  outgoingEdge objects n "r" =
  if bool_decide (command n = Some "l") then Ok None
  else if bool_decide (arm n >= JS.length (stacks n) - 1) then Ok None
  else Ok (Some {| from := n;
                   to := mkPlannerNode (stacks n) (holding n) (arm n + 1) (Some "r") None;
                   cost := 1 |}).
Proof.
  unfold outgoingEdge. rewrite cancels_r. case_bool_decide; reflexivity.
Qed.

Lemma outgoingEdge_pick_inv objects n e :
  outgoingEdge objects n "p" = Ok (Some e) ->
  exists s' top d,
    holding n = None /\ JS.get (stacks n) (arm n) = Some (s' ++ [top])
    /\ e = {| from := n;
              to := mkPlannerNode (JS.set (stacks n) (arm n) s') (Some top) (arm n)
                      (Some "p") (Some d);
              cost := 1 |}.
Proof.
  unfold outgoingEdge. intros He.
  destruct (cancels (command n) "p"); [discriminate |]. cbv zeta in He.
  rewrite (bool_decide_eq_false_2 ("p" = "l")) in He by discriminate.
  rewrite (bool_decide_eq_false_2 ("p" = "r")) in He by discriminate.
  rewrite (bool_decide_eq_true_2 ("p" = "p")) in He by reflexivity.
  case_bool_decide as Hh; [discriminate |].
  apply bind_Ok in He as (s & Hs & He). apply defined_Ok in Hs.
  destruct (JS.pop s) as [[top s'] |] eqn:Hpop; [| discriminate].
  apply bind_Ok in He as (d & _ & He). injection He as <-.
  apply pop_Some in Hpop as ->. exists s', top, d.
  split; [| split; [exact Hs | reflexivity]].
  destruct (holding n); [congruence | reflexivity].
Qed.

Lemma outgoingEdge_drop_inv objects n e :
  outgoingEdge objects n "d" = Ok (Some e) ->
  exists s held d,
    holding n = Some held /\ JS.get (stacks n) (arm n) = Some s
    /\ command n <> Some "p"
    /\ e = {| from := n;
              to := mkPlannerNode (JS.set (stacks n) (arm n) (s ++ [held])) None (arm n)
                      (Some "d") (Some d);
              cost := 1 |}.
Proof.
  unfold outgoingEdge. rewrite cancels_d. intros He.
  case_bool_decide as Hp; [discriminate |]. cbv zeta in He.
  rewrite (bool_decide_eq_false_2 ("d" = "l")) in He by discriminate.
  rewrite (bool_decide_eq_false_2 ("d" = "r")) in He by discriminate.
  rewrite (bool_decide_eq_false_2 ("d" = "p")) in He by discriminate.
  rewrite (bool_decide_eq_true_2 ("d" = "d")) in He by reflexivity.
  apply bind_Ok in He as (hf & _ & He). apply bind_Ok in He as (hs & _ & He).
  apply bind_Ok in He as (s & Hs & He). apply defined_Ok in Hs.
  apply bind_Ok in He as (tf & _ & He). apply bind_Ok in He as (ts & _ & He).
  destruct (holding n) as [held |]; [| discriminate].
  destruct (unsupported _ _ _ _); [discriminate |].
  apply bind_Ok in He as (d & _ & He). injection He as <-.
  exists s, held, d. repeat split; assumption.
Qed.

Lemma outgoingEdge_command objects node c e :
  outgoingEdge objects node c = Ok (Some e) -> command (to e) = Some c.
Proof.
  unfold outgoingEdge. intros He.
  destruct (cancels (command node) c); [discriminate |].
  repeat case_bool_decide; subst; try discriminate;
    try (injection He as <-; reflexivity).
  - destruct (holding node); [congruence |].
    apply bind_Ok in He as (s & _ & He).
    destruct (JS.pop s) as [[top s'] |]; [| discriminate].
    apply bind_Ok in He as (d & _ & He). injection He as <-. reflexivity.
  - inv_result He. destruct (holding node); [| discriminate].
    destruct (unsupported _ _ _ _); [discriminate |].
    apply bind_Ok in He as (d & _ & He). injection He as <-. reflexivity.
Qed.

(** Each of the four commands keeps the entities of the state. *)
Lemma outgoingEdge_entities objects node c e :
  c ∈ ["l"; "r"; "p"; "d"] ->
  outgoingEdge objects node c = Ok (Some e) ->
  entities (to e) ≡ₚ entities node /\ from e = node /\ cost e = 1.
Proof.
  intros Hc He.
  repeat (apply elem_of_cons in Hc as [-> | Hc]); [| | | | apply elem_of_nil in Hc; contradiction].
  - rewrite outgoingEdge_left in He.
    repeat case_bool_decide; try discriminate. injection He as <-. auto.
  - rewrite outgoingEdge_right in He.
    repeat case_bool_decide; try discriminate. injection He as <-. auto.
  - apply outgoingEdge_pick_inv in He as (s' & top & d & Hh & Hs & ->).
    split; [| auto]. unfold entities. simpl. rewrite Hh. simpl.
    destruct (concat_set _ _ _ s' Hs) as (before & after & -> & ->).
    rewrite app_nil_r, <- !app_assoc.
    apply Permutation_app_head, Permutation_app_head.
    simpl. symmetry. apply Permutation_cons_append.
  - apply outgoingEdge_drop_inv in He as (s & held & d & Hh & Hs & _ & ->).
    split; [| auto]. unfold entities. simpl. rewrite Hh. simpl.
    destruct (concat_set _ _ _ (s ++ [held]) Hs) as (before & after & -> & ->).
    rewrite app_nil_r, <- !app_assoc.
    apply Permutation_app_head, Permutation_app_head.
    simpl. apply Permutation_cons_append.
Qed.

(** C1. Every edge that [outgoingEdges] produces leads to a state with the
    same multiset of entity ids, counted over all columns and the holding
    slot, as the state it leaves: the two entity lists are permutations of
    each other.  Hence no entity is created, destroyed or duplicated: if
    every id occurs once in the parent it occurs once in the child. *)
Theorem outgoingEdges_preserve_entities objects node es e :
  outgoingEdges objects node = Ok es ->
  e ∈ es ->
  entities (to e) ≡ₚ entities node
  /\ (NoDup (entities node) -> NoDup (entities (to e))).
Proof.
  intros Hes He. apply (outgoingEdges_elem _ _ _ e) in Hes.
  apply Hes in He as (c & Hc & He).
  apply outgoingEdge_entities in He as (Hperm & _); [| exact Hc].
  split; [exact Hperm |]. intros Hnd. rewrite Hperm. exact Hnd.
Qed.

(** The drop edge of [heldAOverB] keeps its three entities. *)
Lemma outgoingEdges_preserve_entities_witness :
  entities (to dropAOnB) ≡ₚ entities heldAOverB
  /\ (NoDup (entities heldAOverB) -> NoDup (entities (to dropAOnB))).
Proof.
  apply (outgoingEdges_preserve_entities exampleObjects heldAOverB
           [ {| from := heldAOverB;
                to := mkPlannerNode [["b"]; ["c"]] (Some "a") 1 (Some "r") None;
                cost := 1 |};
             dropAOnB ] dropAOnB).
  - vm_compute. reflexivity.
  - apply list_elem_of_further, list_elem_of_here.
Defined.

(** ** Support legality of a drop *)

Lemma indexOf_ne_iff (lit : list string) (x : string) :
  JS.indexOf lit (Some x) <> -1 <-> x ∈ lit.
Proof.
  destruct (indexOf_spec lit (Some x)) as [(Hr & Hnot) | (Hr & y & [= <-] & Hy)].
  - split; [congruence |]. intros Hin. exfalso. exact (Hnot x eq_refl Hin).
  - split; [| lia]. intros _. eapply list_elem_of_lookup_2. exact Hy.
Qed.

Lemma truthy_Some (x : string) : JS.truthy (Some x) = true <-> x <> "".
Proof.
  simpl. rewrite negb_true_iff, bool_decide_eq_false. reflexivity.
Qed.

Lemma Some_eq_iff {A} (x y : A) : Some x = Some y <-> x = y.
Proof. split; congruence. Qed.

Lemma unsupported_spec (t h : ObjectDefinition) :
  form t <> "" ->
  unsupported (Some (form t)) (Some (size t)) (Some (form h)) (Some (size h)) = true
  <-> support_forbidden (Some t) h.
Proof.
  intros Hform. unfold unsupported, support_forbidden.
  rewrite !orb_true_iff, !andb_true_iff, !bool_decide_eq_true, truthy_Some,
    !indexOf_ne_iff, !Some_eq_iff.
  split.
  - intros H. exists t. split; [reflexivity |]. tauto.
  - intros (t' & [= <-] & H). tauto.
Qed.

Lemma unsupported_empty (holdForm holdSize : option string) :
  unsupported None None holdForm holdSize = false.
Proof. reflexivity. Qed.

Lemma support_forbidden_None (h : ObjectDefinition) : ~ support_forbidden None h.
Proof. intros (t & [=] & _). Qed.

(** ** [getDescription] does not throw on catalogued entities *)

Lemma countSame_Ok objects p ent existing sum :
  is_Some (objects !! ent) ->
  (forall e, e ∈ existing -> is_Some (objects !! e)) ->
  exists z, countSame objects p ent existing sum = Ok z.
Proof.
  intros [ot Hot] Hall. revert sum.
  induction existing as [| e rest IH]; intros sum; simpl; [eauto |].
  destruct (Hall e) as [oe Hoe]; [apply elem_of_cons; tauto |].
  unfold object_of. rewrite Hoe, Hot. simpl. apply IH.
  intros e' He'. apply Hall. apply elem_of_cons; tauto.
Qed.

Lemma elem_of_splice1 {A} (l : list A) (i : Z) (x : A) : x ∈ JS.splice1 l i -> x ∈ l.
Proof.
  unfold JS.splice1. intros Hx. apply elem_of_app in Hx as [Hx | Hx].
  - eapply subseteq_take; exact Hx.
  - eapply subseteq_drop; exact Hx.
Qed.

Lemma entities_alt (n : PlannerNode) :
  entities n =
  match holding n with
  | Some h => concat (stacks n) ++ [h]
  | None => concat (stacks n)
  end.
Proof. unfold entities. destruct (holding n); simpl; [| rewrite app_nil_r]; reflexivity. Qed.

Lemma getDescription_action_Ok objects node entity action :
  action = Some "p" \/ action = Some "d" ->
  (forall e, e ∈ entities node -> is_Some (objects !! e)) ->
  (forall x, entity = Some x -> x <> "" -> x ∈ entities node) ->
  exists d, getDescription node objects entity action = Ok d.
Proof.
  intros Haction Hcat Hent. unfold getDescription.
  destruct entity as [ent |]; [| simpl; eauto].
  destruct (JS.truthy (Some ent)) eqn:Htruthy; [| simpl; eauto].
  apply truthy_Some in Htruthy.
  destruct (Hcat ent (Hent ent eq_refl Htruthy)) as [o Ho].
  assert (Hobj : object_of objects ent = Ok o) by (unfold object_of; rewrite Ho; reflexivity).
  assert (Hamong : JS.among action ["p"; "d"] = true)
    by (destruct Haction as [-> | ->]; reflexivity).
  assert (Htr : JS.truthy action = true) by (destruct Haction as [-> | ->]; reflexivity).
  rewrite Hamong, Htr, Hobj. rewrite <- entities_alt.
  set (existing := JS.splice1 (entities node) _).
  assert (Hex : forall e, e ∈ existing -> is_Some (objects !! e)).
  { intros e He. apply Hcat. eapply elem_of_splice1. exact He. }
  destruct (countSame_Ok objects sameForm ent existing 0) as [z1 Hz1]; eauto.
  destruct (countSame_Ok objects sameFormColor ent existing 0) as [z2 Hz2]; eauto.
  destruct (countSame_Ok objects sameFormSize ent existing 0) as [z3 Hz3]; eauto.
  destruct (countSame_Ok objects sameFormColorSize ent existing 0) as [z4 Hz4]; eauto.
  case_bool_decide; simpl; rewrite Hz1, Hz2, Hz3, Hz4; simpl;
    repeat case_bool_decide; simpl; eauto.
Qed.

(** ** The drop edge *)

#[local] Arguments fieldOrNull : simpl never.
#[local] Arguments getDescription : simpl never.

Lemma JS_get_last {A} (s : list A) : JS.get s (JS.length s - 1) = last s.
Proof.
  unfold JS.get, JS.length. destruct s as [| x s]; [reflexivity |].
  rewrite bool_decide_eq_false_2 by (simpl length; lia).
  rewrite last_lookup. f_equal. simpl length. lia.
Qed.

Lemma column_elem (n : PlannerNode) (s : Stack) (x : string) :
  JS.get (stacks n) (arm n) = Some s -> x ∈ s -> x ∈ entities n.
Proof.
  intros Hs Hx. apply JS_get_Some in Hs as (_ & Hs).
  unfold entities. apply elem_of_app. left. apply elem_of_concat.
  exists s. split; [exact Hx |]. eapply list_elem_of_lookup_2. exact Hs.
Qed.

Lemma held_elem (n : PlannerNode) (h : string) : holding n = Some h -> h ∈ entities n.
Proof.
  intros Hh. unfold entities. rewrite Hh. apply elem_of_app. right.
  simpl. apply list_elem_of_here.
Qed.

Lemma WellFormed_column objects n :
  WellFormed objects n -> JS.get (stacks n) (arm n) = Some (column n).
Proof.
  intros Hwf. destruct (JS_get_in_range (stacks n) (arm n) (wf_arm _ _ Hwf)) as [s Hs].
  unfold column. rewrite Hs. reflexivity.
Qed.

(** The form and size that the ['d'] branch reads off the top of the column. *)
Lemma top_fields objects n :
  WellFormed objects n ->
  let s := column n in
  (s = [] /\ topObject objects n = None
   /\ forall field, fieldOrNull objects (JS.truthy (JS.get s 0)) (JS.get s (JS.length s - 1)) field
                    = Ok None)
  \/ (exists ot, topObject objects n = Some ot /\ form ot <> ""
      /\ forall field, fieldOrNull objects (JS.truthy (JS.get s 0)) (JS.get s (JS.length s - 1)) field
                       = Ok (Some (field ot))).
Proof.
  intros Hwf s. pose proof (WellFormed_column _ _ Hwf) as Hcol. fold s in Hcol.
  unfold topObject. fold s. rewrite JS_get_last.
  destruct s as [| b s'] eqn:Hs.
  - left. repeat split.
  - right.
    assert (Hb : b ∈ entities n) by (eapply column_elem; [exact Hcol | apply list_elem_of_here]).
    destruct (last (b :: s')) as [t |] eqn:Hlast;
      [| apply last_None in Hlast; discriminate].
    assert (Ht : t ∈ entities n).
    { eapply column_elem; [exact Hcol |]. apply last_Some in Hlast as [l' ->].
      apply elem_of_app. right. apply list_elem_of_here. }
    destruct (wf_catalog _ _ Hwf t Ht) as (ot & Hot & Hform).
    exists ot. simpl. rewrite Hot. repeat split; [exact Hform |].
    intros field. unfold fieldOrNull, JS.get. simpl.
    rewrite bool_decide_eq_false_2 by (apply (wf_ids _ _ Hwf); exact Hb).
    simpl. rewrite Hot. reflexivity.
Qed.

Lemma fieldOrNull_held objects h oh field :
  h <> "" -> objects !! h = Some oh ->
  fieldOrNull objects (JS.truthy (Some h)) (Some h) field = Ok (Some (field oh)).
Proof.
  intros Hh Hoh. unfold fieldOrNull. rewrite (proj2 (truthy_Some h) Hh).
  simpl. rewrite Hoh. reflexivity.
Qed.

Lemma ret_bind {A B} (a : A) (k : A -> result B) : Ok a ≫= k = k a.
Proof. reflexivity. Qed.

(** What the ['d'] branch does on a well-formed state. *)
Lemma outgoingEdge_drop objects n :
  WellFormed objects n ->
  match holding n with
  | None => outgoingEdge objects n "d" = Ok None
  | Some h =>
      exists oh, objects !! h = Some oh /\
        if bool_decide (command n = Some "p") then outgoingEdge objects n "d" = Ok None
        else
          (support_forbidden (topObject objects n) oh /\ outgoingEdge objects n "d" = Ok None)
          \/ (~ support_forbidden (topObject objects n) oh
              /\ exists d,
                   outgoingEdge objects n "d" =
                   Ok (Some {| from := n;
                               to := mkPlannerNode (JS.set (stacks n) (arm n) (column n ++ [h]))
                                       None (arm n) (Some "d") (Some d);
                               cost := 1 |}))
  end.
Proof.
  intros Hwf. pose proof (WellFormed_column _ _ Hwf) as Hcol.
  pose proof (top_fields _ _ Hwf) as Htop. simpl in Htop.
  unfold outgoingEdge. rewrite cancels_d. cbv zeta.
  rewrite (bool_decide_eq_false_2 ("d" = "l")) by discriminate.
  rewrite (bool_decide_eq_false_2 ("d" = "r")) by discriminate.
  rewrite (bool_decide_eq_false_2 ("d" = "p")) by discriminate.
  rewrite (bool_decide_eq_true_2 ("d" = "d")) by reflexivity.
  rewrite Hcol. change (defined (Some (column n))) with (Ok (column n)).
  destruct (holding n) as [h |] eqn:Hh.
  - destruct (wf_catalog _ _ Hwf h (held_elem _ _ Hh)) as (oh & Hoh & _).
    exists oh. split; [exact Hoh |].
    case_bool_decide as Hp; [reflexivity |].
    assert (Hne : h <> "") by (apply (wf_ids _ _ Hwf), held_elem, Hh).
    rewrite !(fieldOrNull_held _ _ _ _ Hne Hoh), !ret_bind.
    assert (Hdesc : exists d,
      getDescription n objects
        (JS.get (column n ++ [h]) (JS.length (column n ++ [h]) - 2)) (Some "d") = Ok d).
    { apply getDescription_action_Ok; [tauto | |].
      - intros e He. destruct (wf_catalog _ _ Hwf e He) as (o & Ho & _).
        exists o. exact Ho.
      - intros x Hx _. apply JS_get_Some in Hx as (Hr & Hx).
        eapply column_elem; [exact Hcol |].
        unfold JS.length in *. rewrite length_app in Hr, Hx. simpl in Hr, Hx.
        rewrite lookup_app_l in Hx by lia.
        eapply list_elem_of_lookup_2. exact Hx. }
    destruct Hdesc as [d Hd].
    destruct Htop as [(Hs & Hnone & Hf) | (ot & Hsome & Hform & Hf)].
    + rewrite !Hf, !ret_bind, unsupported_empty, Hnone, Hd, ret_bind. right.
      split; [apply support_forbidden_None | eauto].
    + rewrite !Hf, !ret_bind, Hsome.
      destruct (unsupported (Some (form ot)) (Some (size ot)) (Some (form oh)) (Some (size oh)))
        eqn:Hu.
      * left. split; [apply unsupported_spec; assumption | reflexivity].
      * right. split.
        { intros Hforb. apply unsupported_spec in Hforb; [congruence | assumption]. }
        rewrite Hd, ret_bind. eauto.
  - case_bool_decide as Hp; [reflexivity |].
    change (fieldOrNull objects (JS.truthy None) None form) with (@Ok (option string) None).
    change (fieldOrNull objects (JS.truthy None) None size) with (@Ok (option string) None).
    rewrite !ret_bind.
    destruct Htop as [(Hs & Hnone & Hf) | (ot & Hsome & Hform & Hf)];
      rewrite !Hf; reflexivity.
Qed.

Lemma wellFormedb_true objects n : wellFormedb objects n = true -> WellFormed objects n.
Proof.
  unfold wellFormedb. rewrite andb_true_iff, bool_decide_eq_true, forallb_forall.
  intros (Harm & Hall). split; [exact Harm | |].
  - intros e He. apply list_elem_of_In, Hall in He.
    apply andb_true_iff in He as (_ & He).
    destruct (objects !! e) as [o |]; [| discriminate].
    exists o. split; [reflexivity |].
    apply negb_true_iff, bool_decide_eq_false in He. exact He.
  - intros e He. apply list_elem_of_In, Hall in He.
    apply andb_true_iff in He as (He & _).
    apply negb_true_iff, bool_decide_eq_false in He. exact He.
Qed.

(** On a well-formed state none of the four branches throws. *)
Lemma outgoingEdge_total objects n c :
  WellFormed objects n -> c ∈ ["l"; "r"; "p"; "d"] ->
  exists o, outgoingEdge objects n c = Ok o.
Proof.
  intros Hwf Hc. pose proof (WellFormed_column _ _ Hwf) as Hcol.
  repeat (apply elem_of_cons in Hc as [-> | Hc]); [| | | | apply elem_of_nil in Hc; contradiction].
  - unfold outgoingEdge. destruct (cancels _ _); [eauto |]. cbv zeta.
    rewrite (bool_decide_eq_true_2 ("l" = "l")) by reflexivity.
    case_bool_decide; eauto.
  - unfold outgoingEdge. destruct (cancels _ _); [eauto |]. cbv zeta.
    rewrite (bool_decide_eq_false_2 ("r" = "l")) by discriminate.
    rewrite (bool_decide_eq_true_2 ("r" = "r")) by reflexivity.
    case_bool_decide; eauto.
  - unfold outgoingEdge. destruct (cancels _ _); [eauto |]. cbv zeta.
    rewrite (bool_decide_eq_false_2 ("p" = "l")) by discriminate.
    rewrite (bool_decide_eq_false_2 ("p" = "r")) by discriminate.
    rewrite (bool_decide_eq_true_2 ("p" = "p")) by reflexivity.
    case_bool_decide as Hh; [eauto |].
    rewrite Hcol. change (defined (Some (column n))) with (Ok (column n)).
    rewrite ret_bind.
    destruct (JS.pop (column n)) as [[top s'] |] eqn:Hpop; [| eauto].
    apply pop_Some in Hpop.
    destruct (getDescription_action_Ok objects n (Some top) (Some "p")) as [d Hd];
      [tauto | | |].
    + intros e He. destruct (wf_catalog _ _ Hwf e He) as (o & Ho & _).
      exists o. exact Ho.
    + intros x [= <-] _. eapply column_elem; [exact Hcol |].
      rewrite Hpop. apply elem_of_app. right. apply list_elem_of_here.
    + rewrite Hd, ret_bind. eauto.
  - pose proof (outgoingEdge_drop _ _ Hwf) as Hd.
    destruct (holding n); [| eauto].
    destruct Hd as (oh & _ & Hd).
    case_bool_decide; [eauto |].
    destruct Hd as [(_ & Hd) | (_ & d & Hd)]; eauto.
Qed.

Lemma outgoingEdges_WellFormed objects n :
  WellFormed objects n ->
  exists es, outgoingEdges objects n = Ok es
    /\ forall e, e ∈ es /\ command (to e) = Some "d" <-> outgoingEdge objects n "d" = Ok (Some e).
Proof.
  intros Hwf.
  destruct (outgoingEdges_total objects n) as [es Hes];
    [intros c Hc; apply outgoingEdge_total; assumption |].
  exists es. split; [exact Hes |]. intros e.
  rewrite (outgoingEdges_elem _ _ _ e Hes). split.
  - intros ((c & Hc & He) & Hcmd).
    pose proof (outgoingEdge_command _ _ _ _ He) as Hcmd'.
    rewrite Hcmd in Hcmd'. injection Hcmd' as <-. exact He.
  - intros He. split.
    + exists "d". split; [| exact He]. repeat constructor.
    + eapply outgoingEdge_command. exact He.
Qed.

(** C2, counterexample. In [pickedA] the arm holds [a] over an empty column,
    so no support rule forbids the drop, yet [outgoingEdges] yields no drop
    edge: the node was reached by a pick and the cancelling drop is skipped. *)
Lemma drop_iff_supported_fails : ~ drop_iff_supported exampleObjects pickedA.
Proof.
  intros Hclaim.
  specialize (Hclaim _ eq_refl) as [_ Hback].
  destruct Hback as (e & He & Hcmd).
  - exists "a", (mkObject "ball" "small" "white").
    repeat split. apply support_forbidden_None.
  - vm_compute in He. apply list_elem_of_In in He.
    destruct He as [<- | []]. discriminate Hcmd.
Qed.

(** C2 (amended). On a well-formed state [outgoingEdges] returns, and it
    contains a drop edge exactly when an entity is held, the node was not
    itself reached by a pick (the cancelling drop is pruned), and none of the
    six support rules forbids the held entity on the top of the column under
    the arm.  In particular a box held over a box of the same size never has
    a drop edge, and a held entity over an empty column has one unless the
    node was reached by a pick. *)
Theorem drop_edge_iff objects n :
  WellFormed objects n ->
  exists es, outgoingEdges objects n = Ok es
    /\ ((exists e, e ∈ es /\ command (to e) = Some "d")
        <-> (exists h oh, holding n = Some h /\ objects !! h = Some oh
                          /\ command n <> Some "p"
                          /\ ~ support_forbidden (topObject objects n) oh))
    /\ (forall h oh ot,
          holding n = Some h -> objects !! h = Some oh -> topObject objects n = Some ot ->
          form oh = "box" -> form ot = "box" -> size oh = size ot ->
          ~ exists e, e ∈ es /\ command (to e) = Some "d")
    /\ (column n = [] -> is_Some (holding n) -> command n <> Some "p" ->
        exists e, e ∈ es /\ command (to e) = Some "d").
Proof.
  intros Hwf. destruct (outgoingEdges_WellFormed _ _ Hwf) as (es & Hes & Hd).
  exists es. split; [exact Hes |].
  pose proof (outgoingEdge_drop _ _ Hwf) as Hdrop.
  assert (Hiff : (exists e, e ∈ es /\ command (to e) = Some "d")
        <-> (exists h oh, holding n = Some h /\ objects !! h = Some oh
                          /\ command n <> Some "p"
                          /\ ~ support_forbidden (topObject objects n) oh)).
  { split.
    - intros (e & He). apply Hd in He.
      destruct (holding n) as [h |]; [| congruence].
      destruct Hdrop as (oh & Hoh & Hdrop). exists h, oh.
      case_bool_decide as Hp; [congruence |].
      destruct Hdrop as [(_ & Hnone) | (Hok & _)]; [congruence | auto].
    - intros (h & oh & Hh & Hoh & Hp & Hsup). rewrite Hh in Hdrop.
      destruct Hdrop as (oh' & Hoh' & Hdrop).
      assert (oh' = oh) as -> by congruence.
      rewrite bool_decide_eq_false_2 in Hdrop by exact Hp.
      destruct Hdrop as [(Hforb & _) | (_ & d & Hedge)]; [contradiction |].
      eexists. apply Hd. exact Hedge. }
  split; [exact Hiff |]. split.
  - intros h oh ot Hh Hoh Htop Hfh Hft Hsize Hedge.
    apply Hiff in Hedge as (h' & oh' & Hh' & Hoh' & _ & Hsup).
    assert (h' = h) as -> by congruence. assert (oh' = oh) as -> by congruence.
    apply Hsup. exists ot. split; [exact Htop |].
    right. right. right. left. rewrite Hfh. repeat split; auto.
    repeat constructor.
  - intros Hempty [h Hh] Hp. apply Hiff.
    destruct (wf_catalog _ _ Hwf h (held_elem _ _ Hh)) as (oh & Hoh & _).
    exists h, oh. repeat split; auto.
    unfold topObject. rewrite Hempty. simpl. apply support_forbidden_None.
Qed.

(** The characterisation at [heldAOverB], a well-formed state. *)
Lemma drop_edge_iff_witness :
  exists es, outgoingEdges exampleObjects heldAOverB = Ok es
    /\ ((exists e, e ∈ es /\ command (to e) = Some "d")
        <-> (exists h oh, holding heldAOverB = Some h /\ exampleObjects !! h = Some oh
                          /\ command heldAOverB <> Some "p"
                          /\ ~ support_forbidden (topObject exampleObjects heldAOverB) oh))
    /\ (forall h oh ot,
          holding heldAOverB = Some h -> exampleObjects !! h = Some oh ->
          topObject exampleObjects heldAOverB = Some ot ->
          form oh = "box" -> form ot = "box" -> size oh = size ot ->
          ~ exists e, e ∈ es /\ command (to e) = Some "d")
    /\ (column heldAOverB = [] -> is_Some (holding heldAOverB) ->
        command heldAOverB <> Some "p" ->
        exists e, e ∈ es /\ command (to e) = Some "d").
Proof.
  apply (drop_edge_iff exampleObjects heldAOverB).
  apply wellFormedb_true. vm_compute. reflexivity.
Defined.

(** ** Goal test against the satisfaction relation of the design document *)

Lemma NoDup_concat_unique {A} (ls : list (list A)) i j s s' p q (x : A) :
  NoDup (concat ls) ->
  ls !! i = Some s -> s !! p = Some x ->
  ls !! j = Some s' -> s' !! q = Some x ->
  i = j /\ p = q.
Proof.
  revert i j. induction ls as [| a ls IH]; intros i j Hnd Hi Hp Hj Hq; [discriminate |].
  simpl in Hnd. apply NoDup_app in Hnd as (Hnda & Hdisj & Hndls).
  assert (Hin : forall k t r, ls !! k = Some t -> t !! r = Some x -> x ∈ concat ls).
  { intros k t r Hk Hr. apply elem_of_concat. exists t.
    split; eapply list_elem_of_lookup_2; eassumption. }
  destruct i as [| i], j as [| j]; simpl in Hi, Hj.
  - simplify_eq. split; [reflexivity |].
    exact (NoDup_lookup _ _ _ _ Hnda Hp Hq).
  - simplify_eq. exfalso. apply (Hdisj x).
    + eapply list_elem_of_lookup_2. exact Hp.
    + eapply Hin; eassumption.
  - simplify_eq. exfalso. apply (Hdisj x).
    + eapply list_elem_of_lookup_2. exact Hq.
    + eapply Hin; eassumption.
  - destruct (IH i j Hndls Hi Hp Hj Hq) as [-> ->]. auto.
Qed.

Lemma located_unique n x c p c' p' :
  NoDup (concat (stacks n)) ->
  located n x c p -> located n x c' p' -> c = c' /\ p = p'.
Proof.
  intros Hnd (s & Hs & Hp) (s' & Hs' & Hp').
  apply JS_get_Some in Hs as (Hc & Hs). apply JS_get_Some in Hp as (Hpr & Hp).
  apply JS_get_Some in Hs' as (Hc' & Hs'). apply JS_get_Some in Hp' as (Hpr' & Hp').
  destruct (NoDup_concat_unique _ _ _ _ _ _ _ _ Hnd Hs Hp Hs' Hp') as [Hi Hq].
  lia.
Qed.

Lemma located_elem n x c p : located n x c p -> x ∈ concat (stacks n).
Proof.
  intros (s & Hs & Hp). apply JS_get_Some in Hs as (_ & Hs).
  apply JS_get_Some in Hp as (_ & Hp). apply elem_of_concat. exists s.
  split; eapply list_elem_of_lookup_2; eassumption.
Qed.

(** Where the code finds an entity of the stacks. *)
Lemma getStackIndex_located n x :
  x ∈ concat (stacks n) ->
  exists c s, getStackIndex (stacks n) (Some x) = Some c
    /\ JS.get (stacks n) c = Some s
    /\ located n x c (JS.indexOf s (Some x)).
Proof.
  intros Hin. destruct (getStackIndex_found _ _ Hin) as [c Hc].
  destruct (getStackIndex_Some _ _ _ Hc) as (_ & s & Hs & Hp).
  exists c, s. repeat split; try assumption. exists s. split; [exact Hs |].
  destruct (indexOf_spec s (Some x)) as [(Hr & _) | (Hr & y & [= <-] & Hy)]; [lia |].
  apply JS_get_Some. split; [exact Hr | exact Hy].
Qed.

Lemma getStackIndex_undefined (stacks : list Stack) : getStackIndex stacks None = None.
Proof.
  apply getStackIndex_from_None. apply Forall_forall. intros s _. reflexivity.
Qed.

Lemma relation_holds_iff r c p c' p' :
  relation_holds r c p c' p' <->
  (r = "leftof" /\ c < c') \/ (r = "rightof" /\ c > c')
  \/ (r = "beside" /\ Z.abs (c - c') = 1)
  \/ ((r = "ontop" \/ r = "inside") /\ c = c' /\ p = p' + 1)
  \/ (r = "above" /\ c = c' /\ p > p') \/ (r = "under" /\ c = c' /\ p < p').
Proof.
  split.
  - destruct 1; tauto.
  - intros [(-> & H) | [(-> & H) | [(-> & H) | [([-> | ->] & H & H') | [(-> & H & H') | (-> & H & H')]]]]];
      constructor; assumption.
Qed.

Lemma literal_satisfied_holding n pol args :
  literal_satisfied n (mkLiteral pol "holding" args)
  <-> exists x rest, args = x :: rest /\ holding n = Some x.
Proof.
  split.
  - intros Hsat. inversion Hsat; subst; try congruence; eauto.
    match goal with H : relation_holds "holding" _ _ _ _ |- _ => inversion H end.
  - intros (x & rest & -> & Hh). constructor. exact Hh.
Qed.

Lemma literal_satisfied_binary n pol r args :
  r <> "holding" ->
  literal_satisfied n (mkLiteral pol r args)
  <-> exists x y rest c p,
        args = x :: y :: rest /\ located n x c p
        /\ ((y = "floor" /\ (r = "ontop" -> p = 0))
            \/ (y <> "floor"
                /\ exists c' p', located n y c' p' /\ relation_holds r c p c' p')).
Proof.
  intros Hr. split.
  - intros Hsat. inversion Hsat; subst; try congruence.
    + eexists _, _, _, _, _. split; [reflexivity |]. split; [eassumption |]. left. auto.
    + eexists _, _, _, _, _. split; [reflexivity |]. split; [eassumption |].
      left. split; [reflexivity | congruence].
    + eexists _, _, _, _, _. split; [reflexivity |]. split; [eassumption |].
      right. split; [assumption |]. eauto.
  - intros (x & y & rest & c & p & -> & Hx & [(-> & Hp) | (Hy & c' & p' & Hy' & Hrel)]).
    + destruct (decide (r = "ontop")) as [-> | Hne].
      * rewrite (Hp eq_refl) in Hx. econstructor. exact Hx.
      * eapply sat_other_floor; eassumption.
    + eapply sat_binary; eassumption.
Qed.

Lemma returns_Ok {A} (m : result A) (P : A -> Prop) :
  returns m P <-> exists a, m = Ok a /\ P a.
Proof.
  destruct m as [a | e]; simpl.
  - split; [eauto | intros (a' & [= <-] & H); exact H].
  - split; [contradiction | intros (a' & [=] & _)].
Qed.

(** The loop body of [goal] decides [literal_satisfied]. *)
Lemma conditionHolds_spec objects n l :
  NoDup (concat (stacks n)) ->
  (forall e, e ∈ concat (stacks n) -> is_Some (objects !! e)) ->
  relation l ∈ relation_kinds ->
  returns (conditionHolds objects n l) (fun b => b = true <-> literal_satisfied n l).
Proof.
  intros Hnd Hcat Hkind. destruct l as [pol r xs]. simpl in Hkind.
  unfold conditionHolds. cbn [relation args].
  destruct (decide (r = "holding")) as [-> | Hr].
  { rewrite bool_decide_eq_true_2 by reflexivity. simpl.
    rewrite literal_satisfied_holding. split.
    - destruct (holding n) as [h |], xs as [| x rest]; simpl; try discriminate.
      intros Heq. apply bool_decide_eq_true in Heq as ->. eauto.
    - intros (x & rest & -> & ->). simpl. apply bool_decide_eq_true. reflexivity. }
  rewrite bool_decide_eq_false_2 by exact Hr.
  destruct xs as [| x xs].
  { simpl. rewrite getStackIndex_undefined. simpl.
    rewrite (literal_satisfied_binary _ _ _ _ Hr).
    split; [discriminate |]. intros (? & ? & ? & ? & ? & [=] & _). }
  simpl lookup.
  destruct (decide (x ∈ concat (stacks n))) as [Hx | Hx]; cycle 1.
  { rewrite (proj2 (getStackIndex_None _ _) Hx). simpl.
    rewrite (literal_satisfied_binary _ _ _ _ Hr).
    split; [discriminate |]. intros (? & ? & ? & ? & ? & [= <- _] & Hloc & _).
    exfalso. apply Hx. eapply located_elem. exact Hloc. }
  destruct (getStackIndex_located n x Hx) as (c & s & Hc & Hs & Hloc).
  rewrite Hc, Hs. simpl defined. rewrite ret_bind.
  destruct xs as [| y xs].
  { simpl. rewrite getStackIndex_undefined. simpl.
    rewrite (literal_satisfied_binary _ _ _ _ Hr).
    split; [discriminate |]. intros (? & ? & ? & ? & ? & [=] & _). }
  simpl lookup.
  destruct (decide (y = "floor")) as [-> | Hy].
  { rewrite bool_decide_eq_false_2 by (intros Hne; apply Hne; reflexivity).
    assert (Hsat : literal_satisfied n (mkLiteral pol r (x :: "floor" :: xs))
                   <-> (r = "ontop" -> JS.indexOf s (Some x) = 0)).
    { rewrite (literal_satisfied_binary _ _ _ _ Hr). split.
      - intros (? & ? & ? & c0 & p0 & [= <- <- <-] & Hloc0 & [(_ & Hp) | (Hne & _)]);
          [| congruence].
        destruct (located_unique _ _ _ _ _ _ Hnd Hloc Hloc0) as [-> ->]. exact Hp.
      - intros Hp. exists x, "floor", xs, c, (JS.indexOf s (Some x)). tauto. }
    case_bool_decide as Hont; simpl; [case_bool_decide as Hpos |]; simpl;
      rewrite Hsat; split; try discriminate; try tauto; try congruence. }
  rewrite bool_decide_eq_true_2 by congruence.
  destruct (decide (y ∈ concat (stacks n))) as [Hyin | Hyin]; cycle 1.
  { rewrite (proj2 (getStackIndex_None _ _) Hyin). simpl.
    rewrite (literal_satisfied_binary _ _ _ _ Hr).
    split; [discriminate |].
    intros (? & ? & ? & ? & ? & [= <- <- <-] & _ & [(-> & _) | (_ & ? & ? & Hloc' & _)]);
      [congruence |].
    exfalso. apply Hyin. eapply located_elem. exact Hloc'. }
  destruct (getStackIndex_located n y Hyin) as (c' & s' & Hc' & Hs' & Hloc').
  destruct (Hcat y Hyin) as [oy Hoy].
  rewrite Hc', Hs'. simpl defined. rewrite ret_bind.
  rewrite (field_of_Some _ _ _ _ Hoy), !ret_bind.
  set (p := JS.indexOf s (Some x)) in *. set (p' := JS.indexOf s' (Some y)) in *.
  assert (Hsat : literal_satisfied n (mkLiteral pol r (x :: y :: xs))
                 <-> relation_holds r c p c' p').
  { rewrite (literal_satisfied_binary _ _ _ _ Hr). split.
    - intros (? & ? & ? & c0 & p0 & [= <- <- <-] & Hloc0 & [(-> & _) | (_ & c0' & p0' & Hloc0' & Hrel)]);
        [congruence |].
      destruct (located_unique _ _ _ _ _ _ Hnd Hloc Hloc0) as [-> ->].
      destruct (located_unique _ _ _ _ _ _ Hnd Hloc' Hloc0') as [-> ->].
      exact Hrel.
    - intros Hrel. exists x, y, xs, c, p. split; [reflexivity |].
      split; [exact Hloc |]. right. split; [exact Hy |]. eauto. }
  unfold relation_kinds in Hkind.
  repeat (apply elem_of_cons in Hkind as [-> | Hkind]);
    try congruence; try (apply elem_of_nil in Hkind; contradiction);
    simpl; rewrite Hsat, relation_holds_iff;
    rewrite ?negb_true_iff, ?orb_false_iff, ?negb_false_iff, ?bool_decide_eq_true,
      ?bool_decide_eq_false;
    split; intros H; naive_solver lia.
Qed.

Lemma conjunctionHolds_spec objects n conj :
  NoDup (concat (stacks n)) ->
  (forall e, e ∈ concat (stacks n) -> is_Some (objects !! e)) ->
  Forall (fun l => relation l ∈ relation_kinds) conj ->
  returns (conjunctionHolds objects n conj)
          (fun b => b = true <-> Forall (literal_satisfied n) conj).
Proof.
  intros Hnd Hcat Hkinds. induction Hkinds as [| l conj Hl Hkinds IH]; simpl.
  - split; [constructor | reflexivity].
  - pose proof (conditionHolds_spec objects n l Hnd Hcat Hl) as Hc.
    apply returns_Ok in Hc as (b & -> & Hb). rewrite ret_bind.
    destruct b.
    + apply returns_Ok in IH as (b' & -> & Hb'). simpl. rewrite Hb'. split.
      * intros Hall. constructor; [apply Hb; reflexivity | exact Hall].
      * intros Hall. inversion Hall; subst. assumption.
    + simpl. split; [discriminate |]. intros Hall. inversion Hall; subst.
      apply Hb. assumption.
Qed.

(** C3, counterexample. In [pickedA] the entity [a] is held.  The goal test
    rejects [above(a, floor)], because the first entity of every literal
    other than [holding] must be found in the stacks, although the literal
    is one towards ["floor"] with a relation other than [ontop]. *)
Lemma goal_iff_stated_fails :
  ~ goal_iff_stated [[mkLiteral true "above" ["a"; "floor"]]] exampleObjects pickedA.
Proof.
  intros Hclaim. destruct (Hclaim false eq_refl) as [_ Hback].
  assert (Hfalse : false = true); [| discriminate Hfalse].
  apply Hback. apply Exists_cons_hd. constructor; [| constructor].
  apply stated_other_floor; discriminate.
Qed.

(** C3 (amended). On a state whose stacks hold every entity at most once and
    whose stacked entities are catalogued, [goal] returns, and it returns
    [true] exactly when some conjunction of the formula has all its literals
    satisfied in the sense of [literal_satisfied]: [holding(x)] iff [x] is
    held; the seven other relations need their entities located in the
    stacks (a held entity satisfies none); [ontop(x, floor)] iff [x] is at
    height 0; with any other relation towards ["floor"] the relation is not
    evaluated and the literal is satisfied iff its first entity is located in
    the stacks. *)
Theorem goal_iff_some_conjunction_satisfied interpretations objects n :
  NoDup (concat (stacks n)) ->
  (forall e, e ∈ concat (stacks n) -> is_Some (objects !! e)) ->
  Forall (Forall (fun l => relation l ∈ relation_kinds)) interpretations ->
  exists b, goal interpretations objects n = Ok b
    /\ (b = true <-> Exists (Forall (literal_satisfied n)) interpretations).
Proof.
  intros Hnd Hcat Hkinds. apply returns_Ok.
  induction Hkinds as [| conj rest Hconj Hkinds IH]; simpl.
  - split; [discriminate |]. intros Hex. inversion Hex.
  - pose proof (conjunctionHolds_spec objects n conj Hnd Hcat Hconj) as Hc.
    apply returns_Ok in Hc as (b & -> & Hb). rewrite ret_bind.
    destruct b; simpl.
    + split; [| reflexivity]. intros _. apply Exists_cons_hd. apply Hb. reflexivity.
    + apply returns_Ok in IH as (b' & -> & Hb'). simpl. rewrite Hb'. split.
      * intros Hex. apply Exists_cons_tl. exact Hex.
      * intros Hex. inversion Hex; subst; [| assumption].
        assert (false = true) by (apply Hb; assumption). discriminate.
Qed.

(** The goal test on the 2-column example. *)
Lemma goal_iff_some_conjunction_satisfied_witness :
  exists b, goal goalAOnFloor exampleObjects startA = Ok b
    /\ (b = true <-> Exists (Forall (literal_satisfied startA)) goalAOnFloor).
Proof.
  apply (goal_iff_some_conjunction_satisfied goalAOnFloor exampleObjects startA).
  - apply (bool_decide_unpack _). vm_compute. exact I.
  - intros e He. apply list_elem_of_In in He. simpl in He.
    destruct He as [<- | []]. eexists. vm_compute. reflexivity.
  - repeat constructor.
Defined.

(** ** The heuristic as a minimum of sums *)

Lemma locate_spec n e :
  0 <= arm n < JS.length (stacks n) ->
  exists s, JS.get (stacks n) (getStackIndexD (stacks n) e (arm n)) = Some s
    /\ locate n e = Ok (getStackIndexD (stacks n) e (arm n), JS.indexOf s e,
                        numAbove s (JS.indexOf s e)).
Proof.
  intros Harm. unfold locate, getStackIndexD.
  destruct (getStackIndex (stacks n) e) as [c |] eqn:Hc; simpl.
  - destruct (getStackIndex_Some _ _ _ Hc) as (_ & s & Hs & _).
    exists s. rewrite Hs. split; reflexivity.
  - destruct (JS_get_in_range _ _ Harm) as [s Hs]. exists s. rewrite Hs.
    split; reflexivity.
Qed.

Lemma conditionCost_total n l :
  0 <= arm n < JS.length (stacks n) -> exists z, conditionCost n l = Ok z.
Proof.
  intros Harm. unfold conditionCost.
  destruct (locate_spec n (args l !! 0%nat) Harm) as (s1 & _ & ->).
  destruct (locate_spec n (args l !! 1%nat) Harm) as (s2 & _ & H2).
  rewrite ret_bind. cbv beta iota zeta.
  destruct (_ && negb (strict_eq _ _)); [eauto |].
  destruct (JS.among _ ["rightof"; "under"]).
  - rewrite H2, ret_bind. cbv beta iota zeta.
    destruct (locate_spec n (args l !! 0%nat) Harm) as (s1' & _ & ->).
    rewrite ret_bind. cbv beta iota zeta.
    repeat match goal with |- context [if ?b then _ else _] => destruct b end; eauto.
  - rewrite ret_bind. cbv beta iota zeta. rewrite H2, ret_bind. cbv beta iota zeta.
    repeat match goal with |- context [if ?b then _ else _] => destruct b end; eauto.
Qed.

Lemma conditionCost_estimate n l :
  0 <= arm n < JS.length (stacks n) -> conditionCost n l = Ok (literalEstimate n l).
Proof.
  intros Harm. unfold literalEstimate.
  destruct (conditionCost_total n l Harm) as [z ->]. reflexivity.
Qed.

Lemma conjunctionCost_sum n conj acc :
  0 <= arm n < JS.length (stacks n) ->
  conjunctionCost n conj acc = Ok (acc + sumZ (literalEstimate n <$> conj)).
Proof.
  intros Harm. revert acc. induction conj as [| l conj IH]; intros acc; simpl.
  - f_equal. unfold sumZ. simpl. lia.
  - rewrite (conditionCost_estimate n l Harm), ret_bind, IH. f_equal.
    rewrite <- Z.add_assoc. reflexivity.
Qed.

Lemma heuristics_loop_sums n interpretations results :
  0 <= arm n < JS.length (stacks n) ->
  heuristics_loop n interpretations results
  = Ok (results ++ conjunctionEstimates interpretations n).
Proof.
  intros Harm. revert results.
  induction interpretations as [| c rest IH]; intros results; simpl.
  - rewrite app_nil_r. reflexivity.
  - rewrite (conjunctionCost_sum n c 0 Harm), ret_bind, IH.
    rewrite <- app_assoc. reflexivity.
Qed.

Lemma foldl_min_spec (xs : list Z) (x : Z) :
  (foldl Z.min x xs = x \/ foldl Z.min x xs ∈ xs)
  /\ foldl Z.min x xs <= x /\ Forall (fun y => foldl Z.min x xs <= y) xs.
Proof.
  revert x. induction xs as [| y xs IH]; intros x; simpl.
  - split; [left; reflexivity |]. split; [lia | constructor].
  - destruct (IH (Z.min x y)) as (Hmem & Hle & Hall). split; [| split].
    + destruct Hmem as [Heq | Hin].
      * rewrite Heq. destruct (Z.min_spec x y) as [(_ & ->) | (_ & ->)];
          [left; reflexivity | right; apply list_elem_of_here].
      * right. apply list_elem_of_further. exact Hin.
    + lia.
    + constructor; [lia | exact Hall].
Qed.

Lemma Math_min_spec (xs : list Z) :
  xs <> [] ->
  exists m, Math_min xs = Num m /\ m ∈ xs /\ Forall (fun y => m <= y) xs.
Proof.
  destruct xs as [| x xs]; [congruence |]. intros _. simpl.
  destruct (foldl_min_spec xs x) as (Hmem & Hle & Hall).
  eexists. split; [reflexivity |]. split.
  - destruct Hmem as [-> | Hin]; [apply list_elem_of_here | apply list_elem_of_further, Hin].
  - constructor; assumption.
Qed.

Lemma heuristics_eq interpretations n :
  0 <= arm n < JS.length (stacks n) ->
  heuristics interpretations n = Ok (Math_min (conjunctionEstimates interpretations n)).
Proof.
  intros Harm. unfold heuristics.
  rewrite (heuristics_loop_sums n interpretations [] Harm), ret_bind. reflexivity.
Qed.

(** *** The earlier revision *)

Lemma stackIndexOrArm_in_range n e :
  0 <= arm n < JS.length (stacks n) ->
  exists s, JS.get (stacks n) (EarlierPlanner.stackIndexOrArm n e) = Some s.
Proof.
  intros Harm. apply JS_get_in_range. unfold EarlierPlanner.stackIndexOrArm.
  destruct (getStackIndex (stacks n) e) as [c |] eqn:Hc; [| exact Harm].
  apply getStackIndex_Some in Hc as (Hc & _).
  case_bool_decide; [exact Harm | exact Hc].
Qed.

Lemma earlier_conditionCost_total n l :
  0 <= arm n < JS.length (stacks n) -> exists z, EarlierPlanner.conditionCost n l = Ok z.
Proof.
  intros Harm. unfold EarlierPlanner.conditionCost. cbv zeta.
  destruct (_ && negb (strict_eq _ _)).
  - destruct (stackIndexOrArm_in_range n (args l !! 0%nat) Harm) as [s ->].
    simpl. eauto.
  - destruct (stackIndexOrArm_in_range n (args l !! 0%nat) Harm) as [s1 H1].
    destruct (stackIndexOrArm_in_range n (args l !! 1%nat) Harm) as [s2 H2].
    destruct (JS.among _ ["rightof"; "under"]); cbv beta iota zeta;
      rewrite H1, H2; cbn [defined mbind result_bind];
      repeat match goal with
             | |- exists z, (if ?b then _ else _) = _ => destruct b
             end; eauto.
Qed.

Lemma earlier_conditionCost_estimate n l :
  0 <= arm n < JS.length (stacks n) ->
  EarlierPlanner.conditionCost n l = Ok (earlierEstimate n l).
Proof.
  intros Harm. unfold earlierEstimate.
  destruct (earlier_conditionCost_total n l Harm) as [z ->]. reflexivity.
Qed.

Lemma earlier_conjunctionCosts_all n conj results :
  0 <= arm n < JS.length (stacks n) ->
  EarlierPlanner.conjunctionCosts n conj results = Ok (results ++ (earlierEstimate n <$> conj)).
Proof.
  intros Harm. revert results. induction conj as [| l conj IH]; intros results; simpl.
  - rewrite app_nil_r. reflexivity.
  - rewrite (earlier_conditionCost_estimate n l Harm), ret_bind, IH.
    rewrite <- app_assoc. reflexivity.
Qed.

Lemma earlier_heuristics_loop_all n interpretations results :
  0 <= arm n < JS.length (stacks n) ->
  EarlierPlanner.heuristics_loop n interpretations results
  = Ok (results ++ earlierEstimates interpretations n).
Proof.
  intros Harm. revert results. unfold earlierEstimates.
  induction interpretations as [| c rest IH]; intros results; simpl.
  - rewrite app_nil_r. reflexivity.
  - rewrite (earlier_conjunctionCosts_all n c results Harm), ret_bind, IH.
    rewrite fmap_app, app_assoc. reflexivity.
Qed.

Lemma earlier_heuristics_eq interpretations n :
  0 <= arm n < JS.length (stacks n) ->
  EarlierPlanner.heuristics interpretations n
  = Ok (Math_min (earlierEstimates interpretations n)).
Proof.
  intros Harm. unfold EarlierPlanner.heuristics.
  rewrite (earlier_heuristics_loop_all n interpretations [] Harm), ret_bind. reflexivity.
Qed.

(** C4, counterexample. The earlier revision does not sum: on the stacks
    [b, a] and [c] its literal estimates for [goalThreeWays] are 2, 3; 5;
    5, 3, 2, the per-conjunction sums are 5, 5 and 10, and its [heuristics]
    returns 2. *)
Lemma earlier_heuristics_min_of_sums_fails :
  ~ min_of_sums_stated EarlierPlanner.heuristics earlierEstimate goalThreeWays stackedAB.
Proof.
  intros Hclaim. destruct Hclaim as (m & Hm & Hin & _); [discriminate |].
  vm_compute in Hm. injection Hm as <-.
  change (2 ∈ [5; 5; 10]) in Hin.
  repeat (apply elem_of_cons in Hin as [Hin | Hin]; [discriminate Hin |]).
  apply elem_of_nil in Hin. exact Hin.
Qed.

(** The values of the two revisions on that example: 5 is the sum 2 + 0 + 3
    of the third conjunction, 2 is the least literal estimate. *)
Example heuristics_of_two_revisions :
  conjunctionEstimates goalThreeWays stackedAB = [12; 6; 5]
  /\ heuristics goalThreeWays stackedAB = Ok (Num 5)
  /\ earlierEstimates goalThreeWays stackedAB = [2; 3; 5; 5; 3; 2]
  /\ EarlierPlanner.heuristics goalThreeWays stackedAB = Ok (Num 2).
Proof. vm_compute. repeat split. Qed.

(** C4 (amended). For a formula with at least one conjunction and a state
    whose arm is over a column, every literal has an estimate in either
    revision of Planner.ts.  The latest revision returns the minimum over the
    conjunctions of the sum of the estimates of the conjunction's literals:
    the value is one of those sums and is no larger than any of them.  The
    earlier revision does not sum: it returns the minimum of its own
    estimates over all literals of all conjunctions, a value that is one of
    those estimates and no larger than any of them, and [Infinity] when no
    conjunction has a literal. *)
Theorem heuristics_min_in_both_revisions interpretations n :
  interpretations <> [] ->
  0 <= arm n < JS.length (stacks n) ->
  (forall l, conditionCost n l = Ok (literalEstimate n l))
  /\ (exists m, heuristics interpretations n = Ok (Num m)
        /\ m ∈ conjunctionEstimates interpretations n
        /\ Forall (fun s => m <= s) (conjunctionEstimates interpretations n))
  /\ (forall l, EarlierPlanner.conditionCost n l = Ok (earlierEstimate n l))
  /\ (exists r, EarlierPlanner.heuristics interpretations n = Ok r
        /\ match r with
           | Num m => m ∈ earlierEstimates interpretations n
                      /\ Forall (fun s => m <= s) (earlierEstimates interpretations n)
           | Infinity => concat interpretations = []
           end).
Proof.
  intros Hne Harm. split; [intros l; apply conditionCost_estimate, Harm |].
  split; [| split; [intros l; apply earlier_conditionCost_estimate, Harm |]].
  - rewrite (heuristics_eq interpretations n Harm).
    destruct (Math_min_spec (conjunctionEstimates interpretations n)) as (m & -> & Hm).
    + unfold conjunctionEstimates. destruct interpretations; [congruence | discriminate].
    + exists m. split; [reflexivity | exact Hm].
  - rewrite (earlier_heuristics_eq interpretations n Harm).
    eexists. split; [reflexivity |].
    destruct (earlierEstimates interpretations n) as [| z zs] eqn:Hz.
    + simpl. unfold earlierEstimates in Hz. apply fmap_nil_inv in Hz. exact Hz.
    + destruct (Math_min_spec (z :: zs)) as (m & -> & Hm); [discriminate | exact Hm].
Qed.

(** Both revisions on the three conjunctions of [goalThreeWays]. *)
Lemma heuristics_min_in_both_revisions_witness :
  (forall l, conditionCost stackedAB l = Ok (literalEstimate stackedAB l))
  /\ (exists m, heuristics goalThreeWays stackedAB = Ok (Num m)
        /\ m ∈ conjunctionEstimates goalThreeWays stackedAB
        /\ Forall (fun s => m <= s) (conjunctionEstimates goalThreeWays stackedAB))
  /\ (forall l, EarlierPlanner.conditionCost stackedAB l = Ok (earlierEstimate stackedAB l))
  /\ (exists r, EarlierPlanner.heuristics goalThreeWays stackedAB = Ok r
        /\ match r with
           | Num m => m ∈ earlierEstimates goalThreeWays stackedAB
                      /\ Forall (fun s => m <= s) (earlierEstimates goalThreeWays stackedAB)
           | Infinity => concat goalThreeWays = []
           end).
Proof.
  apply (heuristics_min_in_both_revisions goalThreeWays stackedAB).
  - discriminate.
  - unfold JS.length. simpl. lia.
Defined.

(** ** Sign of the heuristic *)

Lemma locate_facts n e s :
  JS.get (stacks n) (getStackIndexD (stacks n) e (arm n)) = Some s ->
  0 <= numAbove s (JS.indexOf s e)
  /\ (JS.indexOf s e = -1 -> getStackIndexD (stacks n) e (arm n) = arm n)
  /\ (JS.indexOf s e = -1 -> forall x, e = Some x -> x ∉ concat (stacks n))
  /\ (JS.indexOf s e <> -1 -> exists x, e = Some x /\ x ∈ concat (stacks n)).
Proof.
  intros Hs. split; [apply numAbove_nonneg |].
  unfold getStackIndexD in *.
  destruct (getStackIndex (stacks n) e) as [c |] eqn:Hc; simpl in *.
  - destruct (getStackIndex_Some _ _ _ Hc) as (_ & s' & Hs' & Hp).
    assert (s' = s) as -> by congruence.
    split; [lia |]. split; [lia |]. intros _.
    destruct (indexOf_spec s e) as [(Hr & _) | (_ & x & -> & Hx)]; [lia |].
    exists x. split; [reflexivity |]. apply elem_of_concat. exists s.
    apply JS_get_Some in Hs as (_ & Hs).
    split; eapply list_elem_of_lookup_2; eassumption.
  - split; [reflexivity |]. split.
    + intros _ x ->. apply getStackIndex_None. exact Hc.
    + intros Hpos. exfalso. apply getStackIndex_from_None in Hc.
      destruct (indexOf_spec s e) as [(Hr & _) | (_ & x & -> & Hx)]; [lia |].
      apply JS_get_Some in Hs as (_ & Hs).
      rewrite Forall_forall in Hc.
      assert (Hin : s ∈ stacks n) by (eapply list_elem_of_lookup_2; exact Hs).
      specialize (Hc s Hin). lia.
Qed.


(** Case analysis over the tests of [conditionCost], branch by branch. *)
Ltac explore_cost :=
  repeat first
    [ case_bool_decide; cbn [andb orb negb]
    | match goal with
      | |- context [strict_eq ?a ?b] => destruct (strict_eq a b) eqn:?; cbn [andb orb negb]
      | |- context [JS.among ?a ?b] => destruct (JS.among a b) eqn:?; cbn [andb orb negb]
      | |- context [JS.truthy ?a] => destruct (JS.truthy a) eqn:?; cbn [andb orb negb]
      end ].







(** ** Heuristic value against the goal test, literal by literal *)

#[local] Arguments locate : simpl never.

Lemma locate_found n x c s :
  getStackIndex (stacks n) (Some x) = Some c ->
  JS.get (stacks n) c = Some s ->
  locate n (Some x) = Ok (c, JS.indexOf s (Some x), numAbove s (JS.indexOf s (Some x))).
Proof.
  intros Hc Hs. unfold locate, getStackIndexD. rewrite Hc. simpl. rewrite Hs. reflexivity.
Qed.

(** Where [locate] and [getStackIndex] find an entity of the state. *)
Lemma locate_placed n x :
  0 <= arm n < JS.length (stacks n) ->
  x ∈ entities n ->
  (exists c s, x ∈ concat (stacks n)
     /\ getStackIndex (stacks n) (Some x) = Some c /\ JS.get (stacks n) c = Some s
     /\ 0 <= JS.indexOf s (Some x)
     /\ locate n (Some x) = Ok (c, JS.indexOf s (Some x), numAbove s (JS.indexOf s (Some x))))
  \/ ((x ∉ concat (stacks n)) /\ getStackIndex (stacks n) (Some x) = None
      /\ holding n = Some x /\ locate n (Some x) = Ok (arm n, -1, 0)).
Proof.
  intros Harm Hin. destruct (decide (x ∈ concat (stacks n))) as [Hx | Hx].
  - left. destruct (getStackIndex_found _ _ Hx) as [c Hc].
    destruct (getStackIndex_Some _ _ _ Hc) as (_ & s & Hs & Hp).
    exists c, s. repeat split; try assumption. apply locate_found; assumption.
  - right. pose proof (proj2 (getStackIndex_None _ _) Hx) as Hnone.
    split; [exact Hx |]. split; [exact Hnone |]. split.
    + unfold entities in Hin. apply elem_of_app in Hin as [Hin | Hin]; [contradiction |].
      destruct (holding n) as [h |]; simpl in Hin.
      * apply list_elem_of_singleton in Hin as ->. reflexivity.
      * apply elem_of_nil in Hin. contradiction.
    + destruct (locate_spec n (Some x) Harm) as (s & Hs & ->).
      destruct (locate_facts _ _ _ Hs) as (_ & Hd & _ & Hi).
      destruct (decide (JS.indexOf s (Some x) = -1)) as [Hp | Hp].
      * rewrite (Hd Hp), Hp. reflexivity.
      * destruct (Hi Hp) as (x' & [= <-] & Hx'). contradiction.
Qed.

Lemma held_entity n x : x ∈ entities n -> x ∉ concat (stacks n) -> holding n = Some x.
Proof.
  unfold entities. intros Hin Hnot. apply elem_of_app in Hin as [Hin | Hin]; [contradiction |].
  destruct (holding n) as [h |]; simpl in Hin.
  - apply list_elem_of_singleton in Hin as ->. reflexivity.
  - apply elem_of_nil in Hin. contradiction.
Qed.

(** Where [locate] and [getStackIndex] find an entity that is in a column,
    and what they give for one that is in none. *)
Lemma locate_stacked n x :
  x ∈ concat (stacks n) ->
  exists c s, getStackIndex (stacks n) (Some x) = Some c /\ JS.get (stacks n) c = Some s
    /\ 0 <= JS.indexOf s (Some x)
    /\ locate n (Some x) = Ok (c, JS.indexOf s (Some x), numAbove s (JS.indexOf s (Some x))).
Proof.
  intros Hx. destruct (getStackIndex_found _ _ Hx) as [c Hc].
  destruct (getStackIndex_Some _ _ _ Hc) as (_ & s & Hs & Hp).
  exists c, s. repeat split; try assumption. apply locate_found; assumption.
Qed.

Lemma locate_unstacked n x :
  0 <= arm n < JS.length (stacks n) ->
  x ∉ concat (stacks n) ->
  getStackIndex (stacks n) (Some x) = None /\ locate n (Some x) = Ok (arm n, -1, 0).
Proof.
  intros Harm Hx. pose proof (proj2 (getStackIndex_None _ _) Hx) as Hnone.
  split; [exact Hnone |].
  destruct (locate_spec n (Some x) Harm) as (s & Hs & ->).
  destruct (locate_facts _ _ _ Hs) as (_ & Hd & _ & Hi).
  destruct (decide (JS.indexOf s (Some x) = -1)) as [Hp | Hp].
  - rewrite (Hd Hp), Hp. reflexivity.
  - destruct (Hi Hp) as (x' & [= <-] & Hx'). contradiction.
Qed.

Lemma field_of_Ok objects (y : string) field :
  is_Some (objects !! y) \/ JS.inherited y = true ->
  exists v, field_of objects (Some y) field = Ok v.
Proof.
  intros Hy. unfold field_of. simpl. destruct (objects !! y) as [o |]; [eauto |].
  destruct Hy as [[o Ho] | ->]; [discriminate | eauto].
Qed.

(** The hypotheses of a relation once the relation is known. *)
Ltac use_relation :=
  repeat match goal with
  | H : ?r = ?r -> _ |- _ => specialize (H eq_refl)
  | H : ?a = ?b -> _ |- _ => clear H
  end.

(** Where the goal test returns. *)
Lemma condition_zero_iff_holds_returning objects n l :
  relation l ∈ relation_kinds ->
  0 <= arm n < JS.length (stacks n) ->
  (relation l = "holding"
   \/ exists x y, args l !! 0%nat = Some x /\ args l !! 1%nat = Some y
                  /\ (y = "floor" -> x ∉ concat (stacks n))
                  /\ (x ∈ concat (stacks n) -> y ∈ concat (stacks n) ->
                      is_Some (objects !! y) \/ JS.inherited y = true)
                  /\ (relation l = "leftof" -> x ∈ concat (stacks n) -> y ∈ entities n)
                  /\ (relation l = "rightof" -> y ∈ concat (stacks n) -> x ∈ entities n)
                  /\ (relation l = "beside" ->
                      x ∈ concat (stacks n) /\ y ∈ concat (stacks n))) ->
  exists b z, conditionHolds objects n l = Ok b /\ conditionCost n l = Ok z
              /\ (b = true -> z = 0) /\ (b = false -> 0 < z).
Proof.
  intros Hkind Harm Hcase. destruct l as [pol r xs]. simpl in Hkind, Hcase.
  unfold conditionHolds, conditionCost. cbn [relation args].
  destruct (decide (r = "holding")) as [-> | Hr].
  { destruct (locate_spec n (xs !! 0%nat) Harm) as (s1 & Hs1 & H1).
    destruct (locate_spec n (xs !! 1%nat) Harm) as (s2 & Hs2 & H2).
    pose proof (numAbove_nonneg s1 (xs !! 0%nat)) as Ha1.
    rewrite H1, ret_bind. cbv beta iota zeta.
    rewrite bool_decide_eq_true_2 by reflexivity.
    destruct (strict_eq (holding n) (xs !! 0%nat)) eqn:Heq; cbn [andb negb].
    - change (JS.among (Some "holding") ["rightof"; "under"]) with false.
      cbv beta iota zeta. rewrite ret_bind. cbv beta iota zeta.
      rewrite H2, ret_bind. cbv beta iota zeta.
      exists true, 0. split; [reflexivity |]. split; [reflexivity |].
      split; [reflexivity | discriminate].
    - eexists false, _. split; [reflexivity |]. split; [reflexivity |].
      split; [discriminate |]. intros _. destruct (JS.truthy _); lia. }
  destruct Hcase as [-> | (x & y & Hx & Hy & Hyfloor & Hycat & Hleft & Hright & Hbeside)];
    [congruence |].
  rewrite Hx, Hy.
  rewrite (bool_decide_eq_false_2 (r = "holding")) by exact Hr.
  cbn [andb].
  destruct (decide (x ∈ concat (stacks n))) as [Hxs | Hxs];
    [destruct (locate_stacked n x Hxs) as (c & s & Hc & Hs & Hp & H1)
    | destruct (locate_unstacked n x Harm Hxs) as (Hc & H1)];
  (destruct (decide (y ∈ concat (stacks n))) as [Hys | Hys];
    [destruct (locate_stacked n y Hys) as (c' & s' & Hc' & Hs' & Hp' & H2)
    | destruct (locate_unstacked n y Harm Hys) as (Hc' & H2)]).
  - (* both in the stacks *)
    rewrite (bool_decide_eq_true_2 (Some y <> Some "floor"))
      by (intros [= ->]; exact (Hyfloor eq_refl Hxs)).
    destruct (field_of_Ok objects y form (Hycat Hxs Hys)) as [oy Hoy].
    pose proof (numAbove_nonneg s (Some x)) as Ha.
    pose proof (numAbove_nonneg s' (Some y)) as Ha'.
    rewrite Hc, Hc', H1. simpl defined. rewrite Hs, Hs', Hoy, !ret_bind.
    cbv beta iota zeta. cbn [JS.indexOf] in *.
    set (p := JS.indexOf_from s x 0) in *. set (p' := JS.indexOf_from s' y 0) in *.
    set (a := numAbove s p) in *. set (a' := numAbove s' p') in *.
    unfold relation_kinds in Hkind.
    repeat (apply elem_of_cons in Hkind as [-> | Hkind]);
      try congruence; try (apply elem_of_nil in Hkind; contradiction);
      clear Hr Hx Hy Hoy Hc Hc' Hs Hs' Hycat Hleft Hright Hbeside Hxs Hys;
      simpl; rewrite ?H1, ?H2, ?ret_bind; cbv beta iota zeta;
      rewrite ?H1, ?H2, ?ret_bind; cbv beta iota zeta; clear H1 H2;
      explore_cost;
      (eexists _, _; split; [reflexivity |]; split; [reflexivity |];
       split; intros; try discriminate; lia).
  - (* [x] in the stacks, [y] in none *)
    rewrite (bool_decide_eq_true_2 (Some y <> Some "floor"))
      by (intros [= ->]; exact (Hyfloor eq_refl Hxs)).
    pose proof (numAbove_nonneg s (Some x)) as Ha.
    rewrite Hc, Hc', H1. simpl defined. rewrite Hs, !ret_bind.
    cbv beta iota zeta. cbn [JS.indexOf] in *.
    set (p := JS.indexOf_from s x 0) in *. set (a := numAbove s p) in *.
    assert (Hne : x <> y) by (intros ->; contradiction).
    unfold relation_kinds in Hkind.
    repeat (apply elem_of_cons in Hkind as [-> | Hkind]);
      try congruence; try (apply elem_of_nil in Hkind; contradiction);
      use_relation;
      try (destruct Hbeside; contradiction);
      try (rewrite (held_entity n y (Hleft Hxs) Hys) in * );
      clear Hr Hx Hy Hc Hc' Hs Hycat Hxs Hys;
      simpl; rewrite ?H1, ?H2, ?ret_bind; cbv beta iota zeta;
      rewrite ?H1, ?H2, ?ret_bind; cbv beta iota zeta; clear H1 H2;
      explore_cost;
      (eexists _, _; split; [reflexivity |]; split; [reflexivity |];
       split; intros; try discriminate; first [lia | congruence]).
  - (* [y] in the stacks, [x] in none *)
    pose proof (numAbove_nonneg s' (Some y)) as Ha'.
    rewrite Hc, H1, !ret_bind. cbv beta iota zeta. cbn [JS.indexOf] in *.
    set (p' := JS.indexOf_from s' y 0) in *. set (a' := numAbove s' p') in *.
    assert (Hne : x <> y) by (intros ->; contradiction).
    unfold relation_kinds in Hkind.
    repeat (apply elem_of_cons in Hkind as [-> | Hkind]);
      try congruence; try (apply elem_of_nil in Hkind; contradiction);
      use_relation;
      try (destruct Hbeside; contradiction);
      try (rewrite (held_entity n x (Hright Hys) Hxs) in * );
      clear Hr Hx Hy Hc Hc' Hs' Hycat Hxs Hys;
      simpl; rewrite ?H1, ?H2, ?ret_bind; cbv beta iota zeta;
      rewrite ?H1, ?H2, ?ret_bind; cbv beta iota zeta; clear H1 H2;
      explore_cost;
      (eexists _, _; split; [reflexivity |]; split; [reflexivity |];
       split; intros; try discriminate; first [lia | congruence]).
  - (* neither in the stacks *)
    rewrite Hc, H1, !ret_bind. cbv beta iota zeta.
    unfold relation_kinds in Hkind.
    repeat (apply elem_of_cons in Hkind as [-> | Hkind]);
      try congruence; try (apply elem_of_nil in Hkind; contradiction);
      use_relation;
      try (destruct Hbeside; contradiction);
      clear Hr Hx Hy Hc Hc' Hycat Hxs Hys;
      simpl; rewrite ?H1, ?H2, ?ret_bind; cbv beta iota zeta;
      rewrite ?H1, ?H2, ?ret_bind; cbv beta iota zeta; clear H1 H2;
      explore_cost;
      (eexists _, _; split; [reflexivity |]; split; [reflexivity |];
       split; intros; try discriminate; first [lia | congruence]).
Qed.

(** Where the goal test throws: both entities are in columns and the
    second has no entry in the catalog, inherited or its own. *)
Lemma conditionHolds_uncatalogued objects n l x y :
  relation l <> "holding" ->
  args l !! 0%nat = Some x -> args l !! 1%nat = Some y -> y <> "floor" ->
  x ∈ concat (stacks n) -> y ∈ concat (stacks n) ->
  objects !! y = None -> JS.inherited y = false ->
  conditionHolds objects n l = Throw TypeError.
Proof.
  intros Hr Hx Hy Hyfloor Hxs Hys Hnone Hown.
  destruct (locate_stacked n x Hxs) as (c & s & Hc & Hs & _).
  destruct (locate_stacked n y Hys) as (c' & s' & Hc' & Hs' & _).
  unfold conditionHolds. rewrite Hx, Hy, Hc, Hc', Hs, Hs'.
  rewrite (bool_decide_eq_false_2 (relation l = "holding")) by exact Hr.
  rewrite (bool_decide_eq_true_2 (Some y <> Some "floor")) by congruence.
  unfold field_of. simpl. rewrite Hnone, Hown. reflexivity.
Qed.

Lemma condition_zero_iff_holds objects n l :
  relation l ∈ relation_kinds ->
  0 <= arm n < JS.length (stacks n) ->
  (relation l = "holding"
   \/ exists x y, args l !! 0%nat = Some x /\ args l !! 1%nat = Some y
                  /\ (y = "floor" -> x ∉ concat (stacks n))
                  /\ (relation l = "leftof" -> x ∈ concat (stacks n) -> y ∈ entities n)
                  /\ (relation l = "rightof" -> y ∈ concat (stacks n) -> x ∈ entities n)
                  /\ (relation l = "beside" ->
                      x ∈ concat (stacks n) /\ y ∈ concat (stacks n))) ->
  exists z, conditionCost n l = Ok z
            /\ (conditionHolds objects n l = Ok true -> z = 0)
            /\ (conditionHolds objects n l = Ok false -> 0 < z)
            /\ ((forall y, args l !! 1%nat = Some y -> y ∈ concat (stacks n) ->
                   is_Some (objects !! y) \/ JS.inherited y = true) ->
                exists b, conditionHolds objects n l = Ok b).
Proof.
  intros Hkind Harm Hcase.
  assert (Hreturning :
            (exists b z, conditionHolds objects n l = Ok b /\ conditionCost n l = Ok z
                         /\ (b = true -> z = 0) /\ (b = false -> 0 < z)) ->
            exists z, conditionCost n l = Ok z
              /\ (conditionHolds objects n l = Ok true -> z = 0)
              /\ (conditionHolds objects n l = Ok false -> 0 < z)
              /\ ((forall y, args l !! 1%nat = Some y -> y ∈ concat (stacks n) ->
                     is_Some (objects !! y) \/ JS.inherited y = true) ->
                  exists b, conditionHolds objects n l = Ok b)).
  { intros (b & z & Hb & Hz & Htrue & Hfalse). exists z. rewrite Hb.
    split; [exact Hz |]. split; [intros [= Hb']; auto |]. split; [intros [= Hb']; auto |].
    intros _. exists b. reflexivity. }
  destruct (decide (relation l = "holding")) as [Hr | Hr].
  { apply Hreturning, condition_zero_iff_holds_returning; auto. }
  destruct Hcase as [Hholding | (x & y & Hx & Hy & Hyfloor & Hleft & Hright & Hbeside)];
    [contradiction |].
  destruct (decide (x ∈ concat (stacks n) /\ y ∈ concat (stacks n)
                    /\ objects !! y = None /\ JS.inherited y = false))
    as [(Hxs & Hys & Hnone & Hown) | Hcat].
  - assert (Hyf : y <> "floor") by (intros ->; exact (Hyfloor eq_refl Hxs)).
    rewrite (conditionHolds_uncatalogued objects n l x y Hr Hx Hy Hyf Hxs Hys Hnone Hown).
    destruct (conditionCost_total n l Harm) as [z Hz]. exists z.
    split; [exact Hz |]. split; [discriminate |]. split; [discriminate |].
    intros Hall. destruct (Hall y Hy Hys) as [[o Ho] | Hin]; congruence.
  - apply Hreturning, condition_zero_iff_holds_returning; [exact Hkind | exact Harm |].
    right. exists x, y. repeat split; try assumption; try (apply Hbeside; assumption).
    intros Hxs Hys. destruct (objects !! y) as [o |] eqn:Ho; [left; eauto |].
    destruct (JS.inherited y) eqn:Hin; [right; reflexivity |].
    exfalso. apply Hcat. auto.
Qed.

(** C7, counterexample. In [startA] the entity [a] is on the floor, so the
    goal test accepts [ontop(a, floor)], but the heuristic treats ["floor"]
    as an entity that is nowhere and returns 2. *)
Lemma zero_iff_satisfied_fails :
  ~ zero_iff_satisfied exampleObjects (mkLiteral true "ontop" ["a"; "floor"]) startA.
Proof.
  intros Hclaim. destruct (Hclaim true (Num 2) eq_refl eq_refl) as [Hzero _].
  specialize (Hzero eq_refl). discriminate Hzero.
Qed.

(** The same happens for the other relations with the floor token and the
    first entity in a column: the goal test accepts each of them. *)
Example floor_token_positive :
  Forall (fun r => goal [[mkLiteral true r ["a"; "floor"]]] exampleObjects startA = Ok true
                   /\ heuristics [[mkLiteral true r ["a"; "floor"]]] startA = Ok (Num 2))
    ["inside"; "above"; "under"; "leftof"; "rightof"].
Proof. repeat constructor. Qed.

(** With the arm away from the column of [a], so does [beside(a, floor)]. *)
Example beside_floor_positive :
  goal [[mkLiteral true "beside" ["a"; "floor"]]] exampleObjects armFarRight = Ok true
  /\ heuristics [[mkLiteral true "beside" ["a"; "floor"]]] armFarRight = Ok (Num 3).
Proof. split; reflexivity. Qed.

(** The other way round: with [a] held over the column of [b], the goal test
    rejects [beside(a, b)] but the heuristic is 0. *)
Example beside_held_zero :
  goal [[mkLiteral true "beside" ["a"; "b"]]] exampleObjects heldAOverB = Ok false
  /\ heuristics [[mkLiteral true "beside" ["a"; "b"]]] heldAOverB = Ok (Num 0).
Proof. split; reflexivity. Qed.

(** So it is for [beside] whenever one of the two entities is in no column
    and the arm is over the column of the other, or neither is in a column:
    the second entity held, the second nowhere, the first nowhere, both
    nowhere. *)
Example beside_unstacked_zero :
  Forall (fun '(x, y, n) =>
            goal [[mkLiteral true "beside" [x; y]]] exampleObjects n = Ok false
            /\ heuristics [[mkLiteral true "beside" [x; y]]] n = Ok (Num 0))
    [("b", "a", heldAOverB); ("a", "z", startA); ("z", "a", startA); ("z", "w", startA)].
Proof. repeat constructor. Qed.

(** And for [leftof(a, b)] with [a] in a column and [b] nowhere in the
    state, the goal test rejects while the heuristic is not positive; so for
    [rightof(b, a)]. *)
Example leftof_unplaced_negative :
  goal goalALeftOfB exampleObjects armFarRight = Ok false
  /\ heuristics goalALeftOfB armFarRight = Ok (Num (-1))
  /\ goal [[mkLiteral true "rightof" ["b"; "a"]]] exampleObjects armFarRight = Ok false
  /\ heuristics [[mkLiteral true "rightof" ["b"; "a"]]] armFarRight = Ok (Num (-1)).
Proof. repeat split; reflexivity. Qed.

(** C7 (amended). Take a literal of any of the eight relation kinds that is
    a [holding] literal or has two entities, where the second is the token
    ["floor"] only if the first is in no column.  For [ontop], [inside],
    [above] and [under] the entities may otherwise be anywhere or nowhere;
    for [leftof(x, y)] with [x] in a column, [y] is in a column or held, for
    [rightof(x, y)] with [y] in a column, [x] is in a column or held, and
    for [beside] both are in columns.  Then on a state whose arm is over a
    column the heuristic of the single-literal formula returns a number that
    is exactly 0 when the goal test accepts and strictly positive when it
    rejects; and the goal test does return when a second entity that is in a
    column is catalogued or names an inherited property. *)
Theorem heuristics_zero_iff_goal objects l n :
  relation l ∈ relation_kinds ->
  0 <= arm n < JS.length (stacks n) ->
  (relation l = "holding"
   \/ exists x y, args l !! 0%nat = Some x /\ args l !! 1%nat = Some y
                  /\ (y = "floor" -> x ∉ concat (stacks n))
                  /\ (relation l = "leftof" -> x ∈ concat (stacks n) -> y ∈ entities n)
                  /\ (relation l = "rightof" -> y ∈ concat (stacks n) -> x ∈ entities n)
                  /\ (relation l = "beside" ->
                      x ∈ concat (stacks n) /\ y ∈ concat (stacks n))) ->
  exists z, heuristics [[l]] n = Ok (Num z)
            /\ (goal [[l]] objects n = Ok true -> z = 0)
            /\ (goal [[l]] objects n = Ok false -> 0 < z)
            /\ ((forall y, args l !! 1%nat = Some y -> y ∈ concat (stacks n) ->
                   is_Some (objects !! y) \/ JS.inherited y = true) ->
                exists b, goal [[l]] objects n = Ok b).
Proof.
  intros Hkind Harm Hcase.
  destruct (condition_zero_iff_holds objects n l Hkind Harm Hcase)
    as (z & Hz & Htrue & Hfalse & Hreturns).
  assert (Hgoal : goal [[l]] objects n = conditionHolds objects n l).
  { simpl. destruct (conditionHolds objects n l) as [[|] | e]; reflexivity. }
  exists z. rewrite Hgoal. split; [| split; [| split]]; try assumption.
  rewrite (heuristics_eq [[l]] n Harm). unfold conjunctionEstimates, literalEstimate.
  simpl. rewrite Hz. unfold sumZ. simpl. do 2 f_equal. lia.
Qed.

(** [ontop(a, z)] on [stackedAB], where [a] is stacked and [z] is neither in
    the state nor in the catalog: the goal test rejects and the heuristic is
    positive. *)
Lemma heuristics_zero_iff_goal_witness :
  exists z, heuristics [[mkLiteral true "ontop" ["a"; "z"]]] stackedAB = Ok (Num z)
    /\ (goal [[mkLiteral true "ontop" ["a"; "z"]]] exampleObjects stackedAB = Ok true -> z = 0)
    /\ (goal [[mkLiteral true "ontop" ["a"; "z"]]] exampleObjects stackedAB = Ok false -> 0 < z)
    /\ ((forall y, args (mkLiteral true "ontop" ["a"; "z"]) !! 1%nat = Some y ->
           y ∈ concat (stacks stackedAB) ->
           is_Some (exampleObjects !! y) \/ JS.inherited y = true) ->
        exists b, goal [[mkLiteral true "ontop" ["a"; "z"]]] exampleObjects stackedAB = Ok b).
Proof.
  apply (heuristics_zero_iff_goal exampleObjects (mkLiteral true "ontop" ["a"; "z"]) stackedAB).
  - apply list_elem_of_In. simpl. tauto.
  - unfold JS.length. simpl. lia.
  - right. exists "a", "z". simpl. repeat split; discriminate.
Defined.

(** ** Inverse actions *)

Lemma is_edge_outgoingEdge objects n c e :
  is_edge objects n c e -> outgoingEdge objects n c = Ok (Some e).
Proof.
  intros (es & Hes & He & Hcmd).
  apply (outgoingEdges_elem _ _ _ e Hes) in He as (c' & _ & He).
  pose proof (outgoingEdge_command _ _ _ _ He) as Hcmd'.
  rewrite Hcmd in Hcmd'. injection Hcmd' as <-. exact He.
Qed.

Lemma outgoingEdge_is_edge objects n c e :
  WellFormed objects n -> c ∈ ["l"; "r"; "p"; "d"] ->
  outgoingEdge objects n c = Ok (Some e) -> is_edge objects n c e.
Proof.
  intros Hwf Hc He.
  destruct (outgoingEdges_total objects n) as [es Hes];
    [intros c' Hc'; apply outgoingEdge_total; assumption |].
  exists es. split; [exact Hes |]. split.
  - apply (outgoingEdges_elem _ _ _ e Hes). eauto.
  - eapply outgoingEdge_command. exact He.
Qed.

Lemma WellFormed_same_state objects n m :
  toString m = toString n -> WellFormed objects n -> WellFormed objects m.
Proof.
  unfold toString. intros [= Hst Hh Ha] [Harm Hcat Hids].
  split; unfold entities in *; rewrite ?Hst, ?Hh, ?Ha; assumption.
Qed.

Lemma JS_get_set {A} (l : list A) (i : Z) (x y : A) :
  JS.get l i = Some x -> JS.get (JS.set l i y) i = Some y.
Proof.
  intros Hx. apply JS_get_Some in Hx as (Hi & Hx). apply JS_get_Some.
  unfold JS.set, JS.length in *. rewrite bool_decide_eq_false_2 by lia.
  rewrite length_insert. split; [exact Hi |].
  apply list_lookup_insert_eq. eapply lookup_lt_Some. exact Hx.
Qed.

Lemma JS_set_set_id {A} (l : list A) (i : Z) (x y : A) :
  JS.get l i = Some x -> JS.set (JS.set l i y) i x = l.
Proof.
  intros Hx. apply JS_get_Some in Hx as (Hi & Hx).
  unfold JS.set. rewrite bool_decide_eq_false_2 by lia.
  rewrite list_insert_insert_eq. apply list_insert_id. exact Hx.
Qed.

(** C8, counterexample. Moving left from [armOverColumn1] gives a node
    labelled ['l'], and [outgoingEdges] of that node skips the cancelling
    ['r']: its only edge is the pick. *)
Lemma left_right_edges_fails : ~ left_right_edges exampleObjects armOverColumn1.
Proof.
  intros Hclaim. destruct Hclaim as (e1 & e2 & H1 & H2 & _); [reflexivity |].
  apply is_edge_outgoingEdge in H1. vm_compute in H1. injection H1 as <-.
  apply is_edge_outgoingEdge in H2. vm_compute in H2. discriminate H2.
Qed.

(** C8 (amended). On a well-formed state: (a) if the arm is right of column
    0 and the node was not reached by a move right, move-left is an edge of
    cost 1; the node it leads to has no move-right edge of its own (the
    cancelling command is pruned), but every node carrying that same state
    under another label has a move-right edge of cost 1 back to a state
    structurally equal to the original; (b) likewise a pick edge has cost 1,
    the node it leads to has no drop edge of its own, and a drop edge of any
    node carrying that same state has cost 1 and leads back to a state
    structurally equal to the original. *)
Theorem inverse_actions_restore_state objects n :
  WellFormed objects n ->
  (0 < arm n -> command n <> Some "r" ->
   exists e1, is_edge objects n "l" e1 /\ cost e1 = 1
     /\ (~ exists e, is_edge objects (to e1) "r" e)
     /\ forall m, toString m = toString (to e1) -> command m <> Some "l" ->
          exists e2, is_edge objects m "r" e2 /\ cost e2 = 1
                     /\ toString (to e2) = toString n)
  /\ (forall e1, is_edge objects n "p" e1 ->
        cost e1 = 1
        /\ (~ exists e, is_edge objects (to e1) "d" e)
        /\ forall m e2, toString m = toString (to e1) -> is_edge objects m "d" e2 ->
             cost e2 = 1 /\ toString (to e2) = toString n).
Proof.
  intros Hwf. split.
  - intros Harm Hcmd.
    set (n1 := mkPlannerNode (stacks n) (holding n) (arm n - 1) (Some "l") None).
    assert (He1 : outgoingEdge objects n "l" = Ok (Some {| from := n; to := n1; cost := 1 |})).
    { rewrite outgoingEdge_left.
      rewrite bool_decide_eq_false_2 by exact Hcmd.
      rewrite bool_decide_eq_false_2 by lia. reflexivity. }
    assert (Hwf1 : WellFormed objects n1).
    { destruct Hwf as [Ha Hcat Hids]. split; [simpl; lia | exact Hcat | exact Hids]. }
    eexists. split; [apply outgoingEdge_is_edge; [exact Hwf | | exact He1] |].
    { apply list_elem_of_In. simpl. tauto. }
    split; [reflexivity |]. split.
    + intros (e & He). apply is_edge_outgoingEdge in He.
      rewrite outgoingEdge_right in He. simpl in He. discriminate He.
    + intros m Hm Hcm. simpl in Hm.
      injection Hm as Hst Hh Ha.
      eexists. split; [apply outgoingEdge_is_edge |].
      * eapply WellFormed_same_state; [| exact Hwf1]. unfold toString.
        rewrite Hst, Hh, Ha. reflexivity.
      * apply list_elem_of_In. simpl. tauto.
      * rewrite outgoingEdge_right.
        rewrite bool_decide_eq_false_2 by exact Hcm.
        rewrite bool_decide_eq_false_2; [reflexivity |].
        rewrite Hst, Ha. pose proof (wf_arm _ _ Hwf). lia.
      * split; [reflexivity |]. unfold toString. simpl.
        rewrite Hst, Hh, Ha. f_equal. lia.
  - intros e1 He1. apply is_edge_outgoingEdge in He1.
    apply outgoingEdge_pick_inv in He1 as (s' & top & d & Hh & Hs & ->).
    split; [reflexivity |]. split.
    + intros (e & He). apply is_edge_outgoingEdge in He.
      apply outgoingEdge_drop_inv in He as (_ & _ & _ & _ & _ & Hp & _).
      apply Hp. reflexivity.
    + intros m e2 Hm He2. simpl in Hm. injection Hm as Hst Hhm Ha.
      apply is_edge_outgoingEdge in He2.
      apply outgoingEdge_drop_inv in He2 as (s & held & d' & Hheld & Hs2 & _ & ->).
      split; [reflexivity |]. unfold toString. simpl.
      rewrite Hst, Ha in *.
      pose proof (eq_trans (eq_sym (JS_get_set _ _ _ s' Hs)) Hs2) as Heq.
      injection Heq as <-. rewrite Hhm in Hheld. injection Hheld as <-.
      f_equal; [| symmetry; exact Hh]. exact (JS_set_set_id _ _ _ _ Hs).
Qed.

(** In [stackedAB] the arm can move left and can pick [c] up. *)
Lemma inverse_actions_restore_state_witness :
  (0 < arm stackedAB -> command stackedAB <> Some "r" ->
   exists e1, is_edge exampleObjects stackedAB "l" e1 /\ cost e1 = 1
     /\ (~ exists e, is_edge exampleObjects (to e1) "r" e)
     /\ forall m, toString m = toString (to e1) -> command m <> Some "l" ->
          exists e2, is_edge exampleObjects m "r" e2 /\ cost e2 = 1
                     /\ toString (to e2) = toString stackedAB)
  /\ (forall e1, is_edge exampleObjects stackedAB "p" e1 ->
        cost e1 = 1
        /\ (~ exists e, is_edge exampleObjects (to e1) "d" e)
        /\ forall m e2, toString m = toString (to e1) -> is_edge exampleObjects m "d" e2 ->
             cost e2 = 1 /\ toString (to e2) = toString stackedAB).
Proof.
  apply (inverse_actions_restore_state exampleObjects stackedAB).
  apply wellFormedb_true. vm_compute. reflexivity.
Defined.

(** ** The search on the planner graph *)

(** C5, counterexample. The goal test already accepts the start state ([a]
    is at height 0 of column 0; the literal names no column), so the search
    returns the one-node path of cost 0. *)
Lemma pick_right_drop_found_fails :
  ~ pick_right_drop_found (PQ := ListQueue qe_f) frozenClock 10.
Proof.
  intros (r & Hr & Hcost & _). vm_compute in Hr. injection Hr as <-.
  discriminate Hcost.
Qed.

(** C5 (amended). On the example the goal test holds at the start state, so
    for every lawful queue, every clock that has not run past the budget of
    100 s at the first pop and every positive fuel, the search returns the
    path consisting of the start node alone with cost 0, and
    [planInterpretation] returns the empty plan. *)
Theorem example_plan_is_empty `{PQ : PriorityQueue (QueueElement PlannerNode)}
    {PQL : LawfulQueue qe_f PQ} (clock : nat -> Z) (fuel : nat) :
  clock 1%nat - clock 0%nat <= 100 * 1000 ->
  aStarSearch toString (newPlannerGraph objectsA) (goal goalAOnFloor objectsA)
    (heuristics goalAOnFloor) 100 clock (S fuel) startA
  = Some (Ok {| path := [startA]; path_cost := 0 |})
  /\ planInterpretation clock (S fuel) goalAOnFloor worldA = Some (Ok []).
Proof.
  intros Hclock.
  assert (Hrun : aStarSearch toString (newPlannerGraph objectsA) (goal goalAOnFloor objectsA)
    (heuristics goalAOnFloor) 100 clock (S fuel) startA
    = Some (Ok {| path := [startA]; path_cost := 0 |})).
  { unfold aStarSearch.
    rewrite (aStarRun_goal_at_start toString (newPlannerGraph objectsA) _ _ 100 clock
               fuel startA (Num 2)); [reflexivity | reflexivity | reflexivity | exact Hclock]. }
  split; [exact Hrun |].
  transitivity
    (match aStarSearch toString (newPlannerGraph objectsA) (goal goalAOnFloor objectsA)
             (heuristics goalAOnFloor) 100 clock (S fuel) startA with
     | None => None
     | Some (Throw e) => Some (Throw e)
     | Some (Ok r) => Some (Ok (planOfPath (tail (path r)) []))
     end); [reflexivity |].
  rewrite Hrun. reflexivity.
Qed.

(** The example run on the reference queue with a frozen clock. *)
Lemma example_plan_is_empty_witness :
  aStarSearch (PQ := ListQueue qe_f) toString (newPlannerGraph objectsA)
    (goal goalAOnFloor objectsA) (heuristics goalAOnFloor) 100 frozenClock 1 startA
  = Some (Ok {| path := [startA]; path_cost := 0 |})
  /\ planInterpretation (PQ := ListQueue qe_f) frozenClock 1 goalAOnFloor worldA = Some (Ok []).
Proof.
  apply (example_plan_is_empty (PQ := ListQueue qe_f) (PQL := ListQueue_lawful qe_f) frozenClock 0).
  vm_compute. discriminate.
Defined.




(** C10. The key under which the closed set stores a node is made of its
    stacks, holding and arm fields only: two nodes have the same key exactly
    when these three fields agree, whatever their command and description,
    and membership in the closed set does not tell them apart.  In every run
    of the search on the planner graph, however long, the nodes handed to
    [outgoingEdges] have pairwise distinct keys: no state is expanded twice. *)
Theorem closed_set_by_state `{PQ : PriorityQueue (QueueElement PlannerNode)}
    (objects : gmap string ObjectDefinition) (interpretations : DNFFormula)
    (timeout : Z) (clock : nat -> Z) (fuel : nat) (start : PlannerNode) :
  (forall n1 n2, toString n1 = toString n2
                 <-> stacks n1 = stacks n2 /\ holding n1 = holding n2 /\ arm n1 = arm n2)
  /\ (forall s n1 n2,
        stacks n1 = stacks n2 -> holding n1 = holding n2 -> arm n1 = arm n2 ->
        Set_contains toString s n1 = Set_contains toString s n2)
  /\ NoDup (toString <$>
              (aStarRun toString (newPlannerGraph objects) (goal interpretations objects)
                 (heuristics interpretations) timeout clock fuel start).2).
Proof.
  assert (Hkey : forall n1 n2, toString n1 = toString n2
                 <-> stacks n1 = stacks n2 /\ holding n1 = holding n2 /\ arm n1 = arm n2).
  { intros n1 n2. unfold toString. split.
    - intros [= -> -> ->]. auto.
    - intros (-> & -> & ->). reflexivity. }
  split; [exact Hkey |]. split.
  - intros s n1 n2 Hs Hh Ha. apply Set_contains_same_key. apply Hkey. auto.
  - apply aStarRun_expanded_NoDup.
Qed.

(** ** Helper entry points of Planner.ts *)

Lemma getStackIndex_from_first (stacks : list Stack) (x : string) (i c : Z) :
  getStackIndex_from stacks (Some x) i = Some c ->
  forall (k : nat) s', (Z.of_nat k < c - i) -> stacks !! k = Some s' -> x ∉ s'.
Proof.
  revert i. induction stacks as [| s rest IH]; intros i; simpl; [discriminate |].
  case_bool_decide as Hs.
  - intros [= <-] k s' Hk. lia.
  - intros Hrest k s' Hk Hlook. destruct k as [| k]; simpl in Hlook.
    + injection Hlook as <-. intros Hin. apply indexOf_found in Hin. simpl in Hin. lia.
    + apply (IH (i + 1) Hrest k s'); [lia | exact Hlook].
Qed.

(** [getStackIndex] returns the lowest column that contains the entity, and
    [undefined] exactly when no column contains it. *)
Theorem getStackIndex_first_column (stacks : list Stack) (x : string) :
  (forall c, getStackIndex stacks (Some x) = Some c <->
     (exists s, JS.get stacks c = Some s /\ x ∈ s)
     /\ (forall c' s', 0 <= c' < c -> JS.get stacks c' = Some s' -> x ∉ s'))
  /\ (getStackIndex stacks (Some x) = None <-> forall s, s ∈ stacks -> x ∉ s).
Proof.
  assert (Hfwd : forall c, getStackIndex stacks (Some x) = Some c ->
     (exists s, JS.get stacks c = Some s /\ x ∈ s)
     /\ (forall c' s', 0 <= c' < c -> JS.get stacks c' = Some s' -> x ∉ s')).
  { intros c Hc. split.
    - apply getStackIndex_Some in Hc as (_ & s & Hs & Hpos).
      exists s. split; [exact Hs |].
      destruct (indexOf_spec s (Some x)) as [(Hm & _) | (_ & y & [= <-] & Hy)]; [lia |].
      eapply list_elem_of_lookup_2. exact Hy.
    - intros c' s' Hc' Hs'. apply JS_get_Some in Hs' as (_ & Hs').
      apply (getStackIndex_from_first stacks x 0 c Hc (Z.to_nat c') s'); [lia | exact Hs']. }
  split.
  - intros c. split; [apply Hfwd |].
    intros ((s & Hs & Hin) & Hmin).
    destruct (getStackIndex stacks (Some x)) as [c0 |] eqn:Hc0.
    + destruct (Hfwd c0 eq_refl) as ((s0 & Hs0 & Hin0) & Hmin0).
      apply JS_get_Some in Hs as Hr. apply JS_get_Some in Hs0 as Hr0.
      destruct (Z.lt_trichotomy c0 c) as [Hlt | [-> | Hgt]]; [| reflexivity |].
      * exfalso. apply (Hmin c0 s0); [lia | exact Hs0 | exact Hin0].
      * exfalso. apply (Hmin0 c s); [lia | exact Hs | exact Hin].
    + exfalso. apply getStackIndex_None in Hc0. apply Hc0.
      apply elem_of_concat. exists s. split; [exact Hin |].
      apply JS_get_Some in Hs as (_ & Hs). eapply list_elem_of_lookup_2. exact Hs.
  - rewrite getStackIndex_None. split.
    + intros Hnot s Hs Hin. apply Hnot. apply elem_of_concat. eauto.
    + intros Hall Hin. apply elem_of_concat in Hin as (s & Hin & Hs). exact (Hall s Hs Hin).
Qed.

Lemma string_length_app (s t : string) :
  String.length (s +:+ t) = (String.length s + String.length t)%nat.
Proof. induction s as [| c s IH]; simpl; [reflexivity | rewrite IH; reflexivity]. Qed.

Lemma string_app_inj_r (s1 s2 t : string) : s1 +:+ t = s2 +:+ t -> s1 = s2.
Proof.
  revert s2. induction s1 as [| c s1 IH]; intros [| d s2]; simpl; intros Heq.
  - reflexivity.
  - exfalso. apply (f_equal String.length) in Heq. simpl in Heq.
    rewrite !string_length_app in Heq. simpl in Heq. lia.
  - exfalso. apply (f_equal String.length) in Heq. simpl in Heq.
    rewrite !string_length_app in Heq. simpl in Heq. lia.
  - injection Heq as -> Heq. f_equal. apply IH, Heq.
Qed.

Ltac peel_string H s :=
  destruct s as [| ? s]; simpl in H;
  [discriminate H | first [discriminate H | injection H as _ H; peel_string H s]].

(** No text of the form [s ++ "th"] is one of the three ordinal words. *)
Lemma app_th_not_word (s : string) :
  s +:+ "th" ∉ ["first"; "second"; "third"].
Proof.
  intros Hin. repeat (apply elem_of_cons in Hin as [Hin | Hin]);
    [| | | apply elem_of_nil in Hin; exact Hin]; peel_string Hin s.
Qed.

(** [mapNumberToText] names different non-negative numbers differently:
    ["first"], ["second"], ["third"], then ["4th"], ["5th"], ... for 3, 4,
    ...; so two positions in a stack are never given the same ordinal. *)
Theorem mapNumberToText_inj (a b : Z) :
  0 <= a -> 0 <= b -> mapNumberToText a = mapNumberToText b -> a = b.
Proof.
  assert (Hsmall : forall k, 0 <= k -> ~ 2 < k ->
            k = 0 /\ mapNumberToText k = "first"
            \/ k = 1 /\ mapNumberToText k = "second"
            \/ k = 2 /\ mapNumberToText k = "third").
  { intros k Hk Hk2. assert (Hc : k = 0 \/ k = 1 \/ k = 2) by lia.
    destruct Hc as [-> | [-> | ->]]; vm_compute; auto. }
  assert (Hword : forall k, 0 <= k -> ~ 2 < k ->
            mapNumberToText k ∈ ["first"; "second"; "third"]).
  { intros k Hk Hk2.
    destruct (Hsmall k Hk Hk2) as [(_ & ->) | [(_ & ->) | (_ & ->)]];
      repeat constructor. }
  intros Ha Hb Heq.
  destruct (decide (2 < a)) as [Ha2 | Ha2], (decide (2 < b)) as [Hb2 | Hb2].
  - unfold mapNumberToText in Heq.
    rewrite !bool_decide_eq_true_2 in Heq by assumption.
    apply string_app_inj_r in Heq. apply (inj pretty) in Heq. lia.
  - exfalso. apply (app_th_not_word (pretty (a + 1))).
    pose proof (Hword b Hb Hb2) as Hw. rewrite <- Heq in Hw.
    unfold mapNumberToText in Hw. rewrite bool_decide_eq_true_2 in Hw by assumption.
    exact Hw.
  - exfalso. apply (app_th_not_word (pretty (b + 1))).
    pose proof (Hword a Ha Ha2) as Hw. rewrite Heq in Hw.
    unfold mapNumberToText in Hw. rewrite bool_decide_eq_true_2 in Hw by assumption.
    exact Hw.
  - destruct (Hsmall a Ha Ha2) as [(-> & Ea) | [(-> & Ea) | (-> & Ea)]],
             (Hsmall b Hb Hb2) as [(-> & Eb) | [(-> & Eb) | (-> & Eb)]];
      try reflexivity; rewrite Ea, Eb in Heq; discriminate Heq.
Qed.

(** The numbers 7 and 7 are both called ["8th"]. *)
Lemma mapNumberToText_inj_witness : 7 = 7 :> Z.
Proof.
  apply (mapNumberToText_inj 7 7); [lia | lia | reflexivity].
Defined.

(** ** What the goal test and the heuristic do not read *)

Lemma conditionHolds_withPolarity b objects n l :
  conditionHolds objects n (withPolarity b l) = conditionHolds objects n l.
Proof. reflexivity. Qed.

Lemma conditionCost_withPolarity b n l :
  conditionCost n (withPolarity b l) = conditionCost n l.
Proof. reflexivity. Qed.

Lemma conjunctionHolds_ext objects n (f g : Literal -> Literal) conj :
  (forall l, conditionHolds objects n (f l) = conditionHolds objects n (g l)) ->
  conjunctionHolds objects n (f <$> conj) = conjunctionHolds objects n (g <$> conj).
Proof.
  intros Hfg. induction conj as [| l conj IH]; simpl; [reflexivity |].
  rewrite Hfg. destruct (conditionHolds objects n (g l)) as [[|] | e]; simpl; auto.
Qed.

Lemma goal_ext objects n (f g : Literal -> Literal) interpretations :
  (forall l, conditionHolds objects n (f l) = conditionHolds objects n (g l)) ->
  goal (mapLiterals f interpretations) objects n = goal (mapLiterals g interpretations) objects n.
Proof.
  intros Hfg. induction interpretations as [| c rest IH]; simpl; [reflexivity |].
  rewrite (conjunctionHolds_ext objects n f g c Hfg).
  destruct (conjunctionHolds objects n (g <$> c)) as [[|] | e]; simpl; auto.
Qed.

Lemma conjunctionCost_ext n (f g : Literal -> Literal) conj acc :
  (forall l, conditionCost n (f l) = conditionCost n (g l)) ->
  conjunctionCost n (f <$> conj) acc = conjunctionCost n (g <$> conj) acc.
Proof.
  intros Hfg. revert acc. induction conj as [| l conj IH]; intros acc; simpl; [reflexivity |].
  rewrite Hfg. destruct (conditionCost n (g l)) as [z | e]; simpl; auto.
Qed.

Lemma heuristics_loop_ext n (f g : Literal -> Literal) interpretations results :
  (forall l, conditionCost n (f l) = conditionCost n (g l)) ->
  heuristics_loop n (mapLiterals f interpretations) results
  = heuristics_loop n (mapLiterals g interpretations) results.
Proof.
  intros Hfg. revert results.
  induction interpretations as [| c rest IH]; intros results; simpl; [reflexivity |].
  rewrite (conjunctionCost_ext n f g c 0 Hfg).
  destruct (conjunctionCost n (g <$> c) 0) as [z | e]; simpl; auto.
Qed.

Lemma heuristics_ext n (f g : Literal -> Literal) interpretations :
  (forall l, conditionCost n (f l) = conditionCost n (g l)) ->
  heuristics (mapLiterals f interpretations) n = heuristics (mapLiterals g interpretations) n.
Proof.
  intros Hfg. unfold heuristics. rewrite (heuristics_loop_ext n f g _ _ Hfg). reflexivity.
Qed.

Lemma mapLiterals_id (interpretations : DNFFormula) :
  mapLiterals (fun l => l) interpretations = interpretations.
Proof.
  unfold mapLiterals. induction interpretations as [| c rest IH]; simpl; [reflexivity |].
  rewrite list_fmap_id. f_equal. exact IH.
Qed.

(** Neither the goal test nor the heuristic reads a literal's polarity: a
    formula and the same formula with every polarity set to an arbitrary
    value (a negated literal, for one) are tested and estimated alike. *)
Theorem polarity_is_ignored (b : bool) interpretations objects n :
  goal (mapLiterals (withPolarity b) interpretations) objects n = goal interpretations objects n
  /\ heuristics (mapLiterals (withPolarity b) interpretations) n = heuristics interpretations n.
Proof.
  split.
  - rewrite (goal_ext objects n (withPolarity b) (fun l => l)).
    + rewrite mapLiterals_id. reflexivity.
    + intros l. apply conditionHolds_withPolarity.
  - rewrite (heuristics_ext n (withPolarity b) (fun l => l)).
    + rewrite mapLiterals_id. reflexivity.
    + intros l. apply conditionCost_withPolarity.
Qed.

Lemma locate_Throw n e err : locate n e = Throw err -> err = TypeError.
Proof.
  unfold locate. destruct (JS.get (stacks n) _); simpl; [discriminate |].
  intros [= <-]. reflexivity.
Qed.

Lemma conditionCost_mirror n l : conditionCost n (mirror l) = conditionCost n l.
Proof.
  unfold mirror. destruct (args l) as [| x [| y rest]] eqn:Ha; try reflexivity.
  case_bool_decide as Hr; [| case_bool_decide as Hu; [| reflexivity]].
  - unfold conditionCost. simpl. rewrite Ha, Hr. simpl.
    destruct (locate n (Some x)) as [[[cx px] ax] | ex] eqn:Hx,
             (locate n (Some y)) as [[[cy py] ay] | ey] eqn:Hy; simpl;
      rewrite ?Hx, ?Hy; simpl; try reflexivity.
    apply locate_Throw in Hx, Hy. congruence.
  - unfold conditionCost. simpl. rewrite Ha, Hu. simpl.
    destruct (locate n (Some x)) as [[[cx px] ax] | ex] eqn:Hx,
             (locate n (Some y)) as [[[cy py] ay] | ey] eqn:Hy; simpl;
      rewrite ?Hx, ?Hy; simpl; try reflexivity.
    apply locate_Throw in Hx, Hy. congruence.
Qed.

(** The heuristic gives [rightof(x, y)] the estimate of [leftof(y, x)] and
    [under(x, y)] the estimate of [above(y, x)], in every state and also
    where it throws: mirroring every literal of a formula leaves
    [heuristics] unchanged. *)
Theorem heuristics_mirror interpretations n :
  heuristics (mapLiterals mirror interpretations) n = heuristics interpretations n.
Proof.
  rewrite (heuristics_ext n mirror (fun l => l)).
  - rewrite mapLiterals_id. reflexivity.
  - intros l. apply conditionCost_mirror.
Qed.

Lemma getStackIndex_get (stacks : list Stack) (e : option string) (c : Z) :
  getStackIndex stacks e = Some c ->
  exists s x, JS.get stacks c = Some s /\ e = Some x /\ x ∈ s.
Proof.
  intros Hc. apply getStackIndex_Some in Hc as (_ & s & Hs & Hpos).
  destruct (indexOf_spec s e) as [(Hm & _) | (_ & x & -> & Hx)]; [lia |].
  exists s, x. split; [exact Hs |]. split; [reflexivity |].
  eapply list_elem_of_lookup_2. exact Hx.
Qed.

Lemma stacked_catalogued (objects : gmap string ObjectDefinition) (stacks : list Stack)
    (e : option string) (c : Z) :
  (forall x, x ∈ concat stacks -> is_Some (objects !! x)) ->
  getStackIndex stacks e = Some c ->
  exists o, e ≫= (objects !!.) = Some o.
Proof.
  intros Hcat Hc. apply getStackIndex_get in Hc as (s & x & Hs & -> & Hx).
  destruct (Hcat x) as [o Ho].
  - apply elem_of_concat. exists s. split; [exact Hx |].
    apply JS_get_Some in Hs as (_ & Hs). eapply list_elem_of_lookup_2. exact Hs.
  - exists o. exact Ho.
Qed.

Lemma conditionHolds_mirror objects n l :
  (forall x, x ∈ concat (stacks n) -> is_Some (objects !! x)) ->
  "floor" ∉ args l ->
  conditionHolds objects n (mirror l) = conditionHolds objects n l.
Proof.
  intros Hcat Hfloor.
  unfold mirror. destruct (args l) as [| x [| y rest]] eqn:Ha; try reflexivity.
  assert (Hx : x <> "floor") by (intros ->; apply Hfloor; constructor).
  assert (Hy : y <> "floor") by (intros ->; apply Hfloor; do 2 constructor).
  assert (Hcases : relation l = "rightof" \/ relation l = "under"
                   \/ (relation l <> "rightof" /\ relation l <> "under")).
  { destruct (decide (relation l = "rightof")); [tauto |].
    destruct (decide (relation l = "under")); tauto. }
  destruct Hcases as [Hr | [Hr | (Hr1 & Hr2)]].
  - rewrite bool_decide_eq_true_2 by exact Hr.
    unfold conditionHolds. simpl. rewrite Ha, Hr. simpl.
    rewrite !bool_decide_eq_true_2 by congruence.
    destruct (getStackIndex (stacks n) (Some x)) as [cx |] eqn:Hcx,
             (getStackIndex (stacks n) (Some y)) as [cy |] eqn:Hcy; simpl; try reflexivity.
    + destruct (getStackIndex_get _ _ _ Hcx) as (sx & ? & Hsx & _ & _).
      destruct (getStackIndex_get _ _ _ Hcy) as (sy & ? & Hsy & _ & _).
      destruct (stacked_catalogued objects _ _ _ Hcat Hcx) as [ox Hox].
      destruct (stacked_catalogued objects _ _ _ Hcat Hcy) as [oy Hoy].
      simpl in Hox, Hoy. rewrite Hsx, Hsy. unfold field_of. simpl. rewrite Hox, Hoy. simpl.
      f_equal. apply bool_decide_ext. lia.
    + destruct (getStackIndex_get _ _ _ Hcx) as (sx & ? & Hsx & _ & _).
      rewrite Hsx. reflexivity.
    + destruct (getStackIndex_get _ _ _ Hcy) as (sy & ? & Hsy & _ & _).
      rewrite Hsy. reflexivity.
  - rewrite bool_decide_eq_false_2 by (rewrite Hr; discriminate).
    rewrite bool_decide_eq_true_2 by exact Hr.
    unfold conditionHolds. simpl. rewrite Ha, Hr. simpl.
    rewrite !bool_decide_eq_true_2 by congruence.
    destruct (getStackIndex (stacks n) (Some x)) as [cx |] eqn:Hcx,
             (getStackIndex (stacks n) (Some y)) as [cy |] eqn:Hcy; simpl; try reflexivity.
    + destruct (getStackIndex_get _ _ _ Hcx) as (sx & ? & Hsx & _ & _).
      destruct (getStackIndex_get _ _ _ Hcy) as (sy & ? & Hsy & _ & _).
      destruct (stacked_catalogued objects _ _ _ Hcat Hcx) as [ox Hox].
      destruct (stacked_catalogued objects _ _ _ Hcat Hcy) as [oy Hoy].
      simpl in Hox, Hoy. rewrite Hsx, Hsy. unfold field_of. simpl. rewrite Hox, Hoy. simpl.
      f_equal. f_equal. f_equal; [f_equal |]; apply bool_decide_ext; [lia |].
      split; congruence.
    + destruct (getStackIndex_get _ _ _ Hcx) as (sx & ? & Hsx & _ & _).
      rewrite Hsx. reflexivity.
    + destruct (getStackIndex_get _ _ _ Hcy) as (sy & ? & Hsy & _ & _).
      rewrite Hsy. reflexivity.
  - rewrite !bool_decide_eq_false_2 by assumption. reflexivity.
Qed.

(** On a state whose stacked entities are catalogued, the goal test treats
    [rightof(x, y)] as [leftof(y, x)] and [under(x, y)] as [above(y, x)],
    provided no literal names the floor. *)
Theorem goal_mirror interpretations objects n :
  (forall x, x ∈ concat (stacks n) -> is_Some (objects !! x)) ->
  Forall (Forall (fun l => "floor" ∉ args l)) interpretations ->
  goal (mapLiterals mirror interpretations) objects n = goal interpretations objects n.
Proof.
  intros Hcat Hall. unfold mapLiterals.
  induction Hall as [| c rest Hc _ IH]; simpl; [reflexivity |].
  assert (Hconj : conjunctionHolds objects n (mirror <$> c) = conjunctionHolds objects n c).
  { clear IH. induction Hc as [| l c' Hl _ IHc]; simpl; [reflexivity |].
    rewrite (conditionHolds_mirror objects n l Hcat Hl).
    destruct (conditionHolds objects n l) as [[|] | e]; simpl; auto. }
  rewrite Hconj.
  destruct (conjunctionHolds objects n c) as [[|] | e]; simpl; auto.
Qed.

(** Every entity of the example states is in [exampleObjects]. *)
Lemma exampleObjects_catalog (x : string) :
  x ∈ ["a"; "b"; "c"] -> is_Some (exampleObjects !! x).
Proof.
  intros Hx. repeat (apply elem_of_cons in Hx as [-> | Hx]);
    [eexists; reflexivity .. | apply elem_of_nil in Hx; contradiction].
Qed.

Lemma goal_mirror_witness :
  goal (mapLiterals mirror goalCRightOfB) exampleObjects stackedAB
  = goal goalCRightOfB exampleObjects stackedAB.
Proof.
  apply goal_mirror.
  - intros x Hx. apply exampleObjects_catalog. simpl in Hx.
    repeat (apply elem_of_cons in Hx as [-> | Hx]); [repeat constructor .. |].
    apply elem_of_nil in Hx. contradiction.
  - repeat constructor; apply (bool_decide_unpack _); vm_compute; exact I.
Defined.

Lemma goal_same_state interpretations objects n m :
  stacks n = stacks m -> holding n = holding m ->
  goal interpretations objects n = goal interpretations objects m.
Proof.
  intros Hs Hh.
  assert (Hcond : forall l, conditionHolds objects n l = conditionHolds objects m l).
  { intros l. unfold conditionHolds. rewrite Hs, Hh. reflexivity. }
  assert (Hconj : forall c, conjunctionHolds objects n c = conjunctionHolds objects m c).
  { induction c as [| l c IH]; simpl; [reflexivity |].
    rewrite Hcond. destruct (conditionHolds objects m l) as [[|] | e]; simpl; auto. }
  induction interpretations as [| c rest IH]; simpl; [reflexivity |].
  rewrite Hconj. destruct (conjunctionHolds objects m c) as [[|] | e]; simpl; auto.
Qed.

Lemma outgoingEdges_heldAOverB :
  outgoingEdges exampleObjects heldAOverB = Ok [rightOfHeldAOverB; dropAOnB].
Proof. vm_compute. reflexivity. Qed.

(** The goal test reads the stacks and the holding slot only, so moving the
    arm neither reaches nor leaves a goal: across an edge for [l] or [r] the
    goal test gives the same answer, or throws the same error. *)
Theorem arm_moves_keep_goal interpretations objects catalog n es e :
  outgoingEdges objects n = Ok es ->
  e ∈ es ->
  command (to e) ∈ [Some "l"; Some "r"] ->
  goal interpretations catalog (to e) = goal interpretations catalog n.
Proof.
  intros Hes He Hcmd. apply (outgoingEdges_elem _ _ _ e) in Hes.
  apply Hes in He as (c & Hc & He).
  pose proof (outgoingEdge_command _ _ _ _ He) as Hce. rewrite Hce in Hcmd.
  assert (Hlr : c = "l" \/ c = "r").
  { repeat (apply elem_of_cons in Hcmd as [[= ->] | Hcmd]); auto.
    apply elem_of_nil in Hcmd. contradiction. }
  destruct Hlr as [-> | ->].
  - rewrite outgoingEdge_left in He.
    repeat case_bool_decide; try discriminate. injection He as <-.
    apply goal_same_state; reflexivity.
  - rewrite outgoingEdge_right in He.
    repeat case_bool_decide; try discriminate. injection He as <-.
    apply goal_same_state; reflexivity.
Qed.

Lemma arm_moves_keep_goal_witness :
  goal goalALeftOfC exampleObjects (to rightOfHeldAOverB)
  = goal goalALeftOfC exampleObjects heldAOverB.
Proof.
  apply (arm_moves_keep_goal goalALeftOfC exampleObjects exampleObjects heldAOverB
           [rightOfHeldAOverB; dropAOnB] rightOfHeldAOverB).
  - exact outgoingEdges_heldAOverB.
  - apply list_elem_of_here.
  - apply list_elem_of_further, list_elem_of_here.
Defined.

(** ** Invariants of the successor function *)

Lemma JS_length_set {A} (l : list A) (i : Z) (y : A) : JS.length (JS.set l i y) = JS.length l.
Proof.
  unfold JS.set, JS.length. case_bool_decide; [reflexivity |].
  rewrite length_insert. reflexivity.
Qed.

Lemma Forall_JS_set {A} (P : A -> Prop) (l : list A) (i : Z) (y : A) :
  Forall P l -> P y -> Forall P (JS.set l i y).
Proof.
  intros Hl Hy. unfold JS.set. case_bool_decide; [exact Hl |].
  apply Forall_insert; assumption.
Qed.

Lemma successors_WellFormed_lemma objects n :
  WellFormed objects n ->
  exists es, outgoingEdges objects n = Ok es /\ forall e, e ∈ es -> WellFormed objects (to e).
Proof.
  intros Hwf. destruct (outgoingEdges_WellFormed objects n Hwf) as (es & Hes & _).
  exists es. split; [exact Hes |]. intros e He.
  apply (outgoingEdges_elem _ _ _ e) in Hes. apply Hes in He as (c & Hc & He).
  pose proof (outgoingEdge_entities _ _ _ _ Hc He) as (Hperm & _ & _).
  destruct Hwf as [Harm Hcat Hids].
  split.
  - repeat (apply elem_of_cons in Hc as [-> | Hc]); [| | | | apply elem_of_nil in Hc; contradiction].
    + rewrite outgoingEdge_left in He.
      repeat case_bool_decide; try discriminate. injection He as <-. simpl. lia.
    + rewrite outgoingEdge_right in He.
      repeat case_bool_decide; try discriminate. injection He as <-. simpl. lia.
    + apply outgoingEdge_pick_inv in He as (s' & top & d & _ & _ & ->). simpl.
      rewrite JS_length_set. exact Harm.
    + apply outgoingEdge_drop_inv in He as (s & held & d & _ & _ & _ & ->). simpl.
      rewrite JS_length_set. exact Harm.
  - intros x Hx. apply Hcat. rewrite <- Hperm. exact Hx.
  - intros x Hx. apply Hids. rewrite <- Hperm. exact Hx.
Qed.

(** Every successor of a well-formed state is well-formed: the arm stays
    over a column, and the entities stay catalogued and named. *)
Theorem successors_WellFormed objects n :
  WellFormed objects n ->
  exists es, outgoingEdges objects n = Ok es /\ forall e, e ∈ es -> WellFormed objects (to e).
Proof. intros Hwf. apply successors_WellFormed_lemma. exact Hwf. Qed.

Lemma successors_WellFormed_witness :
  exists es, outgoingEdges exampleObjects heldAOverB = Ok es
             /\ forall e, e ∈ es -> WellFormed exampleObjects (to e).
Proof.
  apply successors_WellFormed. apply wellFormedb_true. vm_compute. reflexivity.
Defined.

Lemma legal_stack_prefix objects (s s' : list string) :
  legal_stack objects (s ++ s') -> legal_stack objects s.
Proof.
  intros Hl i below above ob oa Hb Ha. apply (Hl i below above ob oa).
  - apply lookup_app_l_Some. exact Hb.
  - apply lookup_app_l_Some. exact Ha.
Qed.

Lemma legal_stack_push objects (s : list string) (held : string) :
  legal_stack objects s ->
  (forall oh, objects !! held = Some oh ->
     ~ support_forbidden (last s ≫= (objects !!.)) oh) ->
  legal_stack objects (s ++ [held]).
Proof.
  intros Hl Htop i below above ob oa Hb Ha Hob Hoa.
  destruct (decide (S i < length s)%nat) as [Hlt | Hge].
  - rewrite lookup_app_l in Hb by lia. rewrite lookup_app_l in Ha by lia.
    exact (Hl i below above ob oa Hb Ha Hob Hoa).
  - assert (Hi : S i = length s).
    { apply lookup_lt_Some in Ha. rewrite length_app in Ha. simpl in Ha. lia. }
    rewrite lookup_app_l in Hb by lia.
    rewrite lookup_app_r in Ha by lia.
    replace (S i - length s)%nat with 0%nat in Ha by lia. injection Ha as <-.
    assert (Hlast : last s = Some below).
    { rewrite last_lookup. rewrite <- Hi. simpl. exact Hb. }
    specialize (Htop oa Hoa). rewrite Hlast in Htop. simpl in Htop.
    rewrite Hob in Htop. exact Htop.
Qed.

Lemma successors_keep_stacks_legal_lemma objects n es e :
  WellFormed objects n ->
  legal_state objects n ->
  outgoingEdges objects n = Ok es ->
  e ∈ es ->
  legal_state objects (to e).
Proof.
  intros Hwf Hlegal Hes He.
  apply (outgoingEdges_elem _ _ _ e) in Hes. apply Hes in He as (c & Hc & He).
  unfold legal_state in *.
  repeat (apply elem_of_cons in Hc as [-> | Hc]); [| | | | apply elem_of_nil in Hc; contradiction].
  - rewrite outgoingEdge_left in He.
    repeat case_bool_decide; try discriminate. injection He as <-. exact Hlegal.
  - rewrite outgoingEdge_right in He.
    repeat case_bool_decide; try discriminate. injection He as <-. exact Hlegal.
  - apply outgoingEdge_pick_inv in He as (s' & top & d & _ & Hs & ->). simpl.
    apply Forall_JS_set; [exact Hlegal |].
    apply (legal_stack_prefix objects s' [top]).
    rewrite Forall_forall in Hlegal. apply Hlegal.
    apply JS_get_Some in Hs as (_ & Hs). eapply list_elem_of_lookup_2. exact Hs.
  - pose proof (outgoingEdge_drop objects n Hwf) as Hdrop.
    pose proof (WellFormed_column objects n Hwf) as Hcol.
    destruct (holding n) as [h |] eqn:Hh; [| rewrite Hdrop in He; discriminate].
    destruct Hdrop as (oh & Hoh & Hdrop).
    case_bool_decide as Hp; [rewrite Hdrop in He; discriminate |].
    destruct Hdrop as [(_ & Hnone) | (Hok & d & Hedge)];
      [rewrite Hnone in He; discriminate |].
    rewrite Hedge in He. injection He as <-. simpl.
    apply Forall_JS_set; [exact Hlegal |].
    apply legal_stack_push.
    + rewrite Forall_forall in Hlegal. apply Hlegal.
      apply JS_get_Some in Hcol as (_ & Hcol). eapply list_elem_of_lookup_2. exact Hcol.
    + intros oh' Hoh'. rewrite Hoh in Hoh'. injection Hoh' as <-. exact Hok.
Qed.

(** The successor function keeps the physical laws: if no stack of a
    well-formed state holds an entity on one that may not support it, the
    same is true of every successor. *)
Theorem successors_keep_stacks_legal objects n es e :
  WellFormed objects n ->
  legal_state objects n ->
  outgoingEdges objects n = Ok es ->
  e ∈ es ->
  legal_state objects (to e).
Proof. intros Hwf Hlegal Hes He. exact (successors_keep_stacks_legal_lemma objects n es e Hwf Hlegal Hes He). Qed.

Lemma successors_keep_stacks_legal_witness : legal_state exampleObjects (to dropAOnB).
Proof.
  apply (successors_keep_stacks_legal exampleObjects heldAOverB
           [rightOfHeldAOverB; dropAOnB] dropAOnB).
  - apply wellFormedb_true. vm_compute. reflexivity.
  - repeat constructor; intros [| i] below above ob oa Hb Ha; discriminate.
  - exact outgoingEdges_heldAOverB.
  - apply list_elem_of_further, list_elem_of_here.
Defined.

#[local] Arguments outgoingEdge : simpl never.

Lemma outgoingEdges_decompose objects n es :
  outgoingEdges objects n = Ok es ->
  exists el er ep ed,
    outgoingEdge objects n "l" = Ok el /\ outgoingEdge objects n "r" = Ok er
    /\ outgoingEdge objects n "p" = Ok ep /\ outgoingEdge objects n "d" = Ok ed
    /\ es = option_list el ++ option_list er ++ option_list ep ++ option_list ed.
Proof.
  unfold outgoingEdges. simpl.
  destruct (outgoingEdge objects n "l") as [el | ?]; simpl; [| discriminate].
  destruct (outgoingEdge objects n "r") as [er | ?]; simpl; [| discriminate].
  destruct (outgoingEdge objects n "p") as [ep | ?]; simpl; [| discriminate].
  destruct (outgoingEdge objects n "d") as [ed | ?]; simpl; [| discriminate].
  intros [= <-]. exists el, er, ep, ed. repeat split; try reflexivity.
  destruct el, er, ep, ed; reflexivity.
Qed.

Ltac solve_sublist :=
  repeat first [apply sublist_nil | apply sublist_skip | apply sublist_cons].

Lemma outgoingEdges_shape_lemma objects n es :
  outgoingEdges objects n = Ok es ->
  (length es <= 3)%nat
  /\ (fun e => command (to e)) <$> es `sublist_of` [Some "l"; Some "r"; Some "p"; Some "d"]
  /\ (Forall (fun e => command (to e) <> Some "p") es
      \/ Forall (fun e => command (to e) <> Some "d") es)
  /\ Forall (fun e => from e = n /\ cost e = 1) es.
Proof.
  intros Hes.
  destruct (outgoingEdges_decompose _ _ _ Hes) as (el & er & ep & ed & Hl & Hr & Hp & Hd & ->).
  assert (Hpd : ep = None \/ ed = None).
  { destruct ep as [e1 |]; [| auto]. destruct ed as [e2 |]; [| auto]. exfalso.
    apply outgoingEdge_pick_inv in Hp as (? & ? & ? & Hnone & _).
    apply outgoingEdge_drop_inv in Hd as (? & ? & ? & Hsome & _). congruence. }
  assert (Hfact : forall c e, c ∈ ["l"; "r"; "p"; "d"] -> outgoingEdge objects n c = Ok (Some e) ->
                         command (to e) = Some c /\ from e = n /\ cost e = 1).
  { intros c e Hc Ho. split; [eapply outgoingEdge_command; exact Ho |].
    eapply outgoingEdge_entities; eassumption. }
  assert (Hinl : "l" ∈ ["l"; "r"; "p"; "d"]) by repeat constructor.
  assert (Hinr : "r" ∈ ["l"; "r"; "p"; "d"]) by repeat constructor.
  assert (Hinp : "p" ∈ ["l"; "r"; "p"; "d"]) by repeat constructor.
  assert (Hind : "d" ∈ ["l"; "r"; "p"; "d"]) by repeat constructor.
  assert (Fl : forall e, el = Some e -> command (to e) = Some "l" /\ from e = n /\ cost e = 1)
    by (intros e ->; apply Hfact; assumption).
  assert (Fr : forall e, er = Some e -> command (to e) = Some "r" /\ from e = n /\ cost e = 1)
    by (intros e ->; apply Hfact; assumption).
  assert (Fp : forall e, ep = Some e -> command (to e) = Some "p" /\ from e = n /\ cost e = 1)
    by (intros e ->; apply Hfact; assumption).
  assert (Fd : forall e, ed = Some e -> command (to e) = Some "d" /\ from e = n /\ cost e = 1)
    by (intros e ->; apply Hfact; assumption).
  clear Hl Hr Hp Hd Hfact Hes.
  destruct el as [e1 |]; [destruct (Fl e1 eq_refl) as (Cl & ? & ?) |];
  (destruct er as [e2 |]; [destruct (Fr e2 eq_refl) as (Cr & ? & ?) |]);
  (destruct ep as [e3 |]; [destruct (Fp e3 eq_refl) as (Cp & ? & ?) |]);
  (destruct ed as [e4 |]; [destruct (Fd e4 eq_refl) as (Cd & ? & ?) |]);
  (destruct Hpd as [Hpd | Hpd]; try discriminate Hpd);
  clear Fl Fr Fp Fd; simpl; rewrite ?Cl, ?Cr, ?Cp, ?Cd;
  (split; [lia |]); (split; [solve_sublist |]);
  (split; [first [left; repeat constructor; congruence | right; repeat constructor; congruence]
          | repeat constructor; assumption]).
Qed.

(** A state has at most three successors; they come in the order of the
    commands [l], [r], [p], [d], each command at most once, and never both
    a pick and a drop; every edge leaves the state it was asked for at cost 1. *)
Theorem outgoingEdges_shape objects n es :
  outgoingEdges objects n = Ok es ->
  (length es <= 3)%nat
  /\ (fun e => command (to e)) <$> es `sublist_of` [Some "l"; Some "r"; Some "p"; Some "d"]
  /\ (Forall (fun e => command (to e) <> Some "p") es
      \/ Forall (fun e => command (to e) <> Some "d") es)
  /\ Forall (fun e => from e = n /\ cost e = 1) es.
Proof. intros Hes. exact (outgoingEdges_shape_lemma objects n es Hes). Qed.

Lemma outgoingEdges_shape_witness :
  (length [rightOfHeldAOverB; dropAOnB] <= 3)%nat
  /\ (fun e => command (to e)) <$> [rightOfHeldAOverB; dropAOnB]
       `sublist_of` [Some "l"; Some "r"; Some "p"; Some "d"]
  /\ (Forall (fun e => command (to e) <> Some "p") [rightOfHeldAOverB; dropAOnB]
      \/ Forall (fun e => command (to e) <> Some "d") [rightOfHeldAOverB; dropAOnB])
  /\ Forall (fun e => from e = heldAOverB /\ cost e = 1) [rightOfHeldAOverB; dropAOnB].
Proof.
  apply (outgoingEdges_shape exampleObjects heldAOverB). exact outgoingEdges_heldAOverB.
Defined.

(** ** The errors of the planner's callbacks *)

Lemma oT_Ok {A} (a : A) : only_TypeError (Ok a).
Proof. intros e. discriminate. Qed.

Lemma oT_defined {A} (o : option A) : only_TypeError (defined o).
Proof. intros e. destruct o; simpl; [discriminate |]. intros [= <-]. reflexivity. Qed.

Lemma oT_bind {A B} (m : result A) (k : A -> result B) :
  only_TypeError m -> (forall a, only_TypeError (k a)) -> only_TypeError (m ≫= k).
Proof.
  intros Hm Hk e. destruct m as [a | e']; simpl.
  - apply Hk.
  - intros [= <-]. apply Hm. reflexivity.
Qed.

Ltac only_TypeError_step :=
  first
    [ apply oT_Ok
    | apply oT_defined
    | assumption
    | apply oT_bind; [| intros ?]
    | match goal with
      | |- only_TypeError (if ?b then _ else _) => destruct b
      | |- only_TypeError (match ?x with _ => _ end) => destruct x
      | |- only_TypeError (let '(_, _) := ?x in _) => destruct x
      end ].

Ltac only_TypeError_tac := repeat only_TypeError_step.

Lemma oT_locate n e : only_TypeError (locate n e).
Proof. intros err. apply locate_Throw. Qed.

Lemma oT_conditionCost n l : only_TypeError (conditionCost n l).
Proof.
  unfold conditionCost. pose proof (oT_locate n) as Hloc.
  apply oT_bind; [apply Hloc |]. intros [[c1 p1] a1].
  destruct (_ && _); [apply oT_Ok |].
  destruct (JS.among _ _).
  - apply oT_bind; [apply Hloc |]. intros [[c2 p2] a2].
    apply oT_bind; [apply Hloc |]. intros [[c3 p3] a3].
    only_TypeError_tac.
  - apply oT_bind; [apply oT_Ok |]. intros [[c2 p2] a2].
    apply oT_bind; [apply Hloc |]. intros [[c3 p3] a3].
    only_TypeError_tac.
Qed.

Lemma oT_heuristics interpretations n : only_TypeError (heuristics interpretations n).
Proof.
  assert (Hconj : forall c acc, only_TypeError (conjunctionCost n c acc)).
  { induction c as [| l c IH]; intros acc; simpl; [apply oT_Ok |].
    apply oT_bind; [apply oT_conditionCost | intros d; apply IH]. }
  assert (Hloop : forall f results, only_TypeError (heuristics_loop n f results)).
  { induction f as [| c f IH]; intros results; simpl; [apply oT_Ok |].
    apply oT_bind; [apply Hconj | intros h; apply IH]. }
  unfold heuristics. apply oT_bind; [apply Hloop | intros r; apply oT_Ok].
Qed.

Lemma oT_field_of objects e (field : ObjectDefinition -> string) :
  only_TypeError (field_of objects e field).
Proof. unfold field_of. cbv zeta. only_TypeError_tac. intros err [= <-]. reflexivity. Qed.

Lemma oT_conditionHolds objects n l : only_TypeError (conditionHolds objects n l).
Proof.
  unfold conditionHolds. pose proof (oT_field_of objects) as Hfield. only_TypeError_tac.
  apply Hfield.
Qed.

Lemma oT_goal interpretations objects n : only_TypeError (goal interpretations objects n).
Proof.
  assert (Hconj : forall c, only_TypeError (conjunctionHolds objects n c)).
  { induction c as [| l c IH]; simpl; [apply oT_Ok |].
    apply oT_bind; [apply oT_conditionHolds |]. intros [|]; [apply IH | apply oT_Ok]. }
  induction interpretations as [| c f IH]; simpl; [apply oT_Ok |].
  apply oT_bind; [apply Hconj |]. intros [|]; [apply oT_Ok | apply IH].
Qed.

Lemma oT_countSame objects p entity existing sum :
  only_TypeError (countSame objects p entity existing sum).
Proof.
  revert sum. induction existing as [| e rest IH]; intros sum; simpl; [apply oT_Ok |].
  unfold object_of. repeat first [apply IH | only_TypeError_step].
Qed.

Lemma oT_getDescription node objects entity action :
  only_TypeError (getDescription node objects entity action).
Proof.
  unfold getDescription, object_of.
  pose proof (oT_countSame objects) as Hcount.
  apply oT_bind; [| intros ?; apply oT_Ok].
  destruct entity as [ent |]; [| apply oT_Ok].
  destruct (JS.truthy (Some ent)); [| apply oT_Ok].
  repeat first [apply Hcount | only_TypeError_step].
Qed.

Lemma oT_fieldOrNull objects cond e field : only_TypeError (fieldOrNull objects cond e field).
Proof. unfold fieldOrNull. only_TypeError_tac. Qed.

Lemma oT_outgoingEdge objects node cmd : only_TypeError (outgoingEdge objects node cmd).
Proof.
  unfold outgoingEdge.
  pose proof (oT_getDescription node objects) as Hdesc.
  pose proof (oT_fieldOrNull objects) as Hfield.
  repeat first [apply Hdesc | apply Hfield | only_TypeError_step].
Qed.

Lemma oT_outgoingEdges objects node : only_TypeError (outgoingEdges objects node).
Proof.
  unfold outgoingEdges. generalize (@nil (Edge PlannerNode)).
  generalize ["l"; "r"; "p"; "d"]. intros commands.
  induction commands as [| c rest IH]; intros outgoing; simpl; [apply oT_Ok |].
  apply oT_bind; [apply oT_outgoingEdge | intros e; apply IH].
Qed.

Lemma oT_whereLocation state start matches : only_TypeError (whereLocation state start matches).
Proof.
  unfold whereLocation. pose proof (oT_getDescription start (w_objects state)) as Hdesc.
  repeat first [apply Hdesc | only_TypeError_step].
Qed.

Lemma oT_mapM {A B} (f : A -> result B) (l : list A) :
  (forall a, only_TypeError (f a)) -> only_TypeError (mapM f l).
Proof.
  intros Hf. induction l as [| a l IH]; simpl; [apply oT_Ok |].
  apply oT_bind; [apply Hf |]. intros b.
  apply oT_bind; [apply IH |]. intros bs. apply oT_Ok.
Qed.

(** [planInterpretation] throws nothing but a [TypeError], "Could not find
    a path", or "Reached timeout"; the last only when some clock reading of
    the search lies more than 100 seconds after the first. *)
Theorem planInterpretation_throws `{PQ : PriorityQueue (QueueElement PlannerNode)}
    (clock : nat -> Z) (fuel : nat) (interpretations : DNFFormula) (state : WorldState)
    (err : exn) :
  planInterpretation clock fuel interpretations state = Some (Throw err) ->
  err = TypeError \/ err = NoPath
  \/ (err = SearchTimeout /\ exists k, clock k - clock 0%nat > 100 * 1000).
Proof.
  unfold planInterpretation.
  destruct (defined (interpretations !! 0%nat) ≫= _) as [l00 | e0] eqn:Hl00.
  - case_bool_decide as Hwhere.
    + intros [= Hthrow]. left. revert Hthrow.
      apply oT_bind; [| intros ?; apply oT_Ok].
      apply oT_mapM. intros c. apply oT_whereLocation.
    + unfold aStarSearch.
      destruct (aStarRun _ _ _ _ _ _ _ _).1 as [[r | e] |] eqn:Hrun; try discriminate.
      intros [= ->]. apply aStarRun_throws in Hrun.
      destruct Hrun as [-> | [(-> & Hk) | (n & [Hn | [Hn | Hn]])]]; auto.
      * left. exact (oT_goal _ _ _ _ Hn).
      * left. exact (oT_heuristics _ _ _ Hn).
      * left. exact (oT_outgoingEdges _ _ _ Hn).
  - intros [= <-]. left. revert Hl00.
    apply oT_bind; [apply oT_defined | intros ?; apply oT_defined].
Qed.

Lemma planInterpretation_throws_witness :
  SearchTimeout = TypeError \/ SearchTimeout = NoPath
  \/ (SearchTimeout = SearchTimeout
      /\ exists k, jumpingClock k - jumpingClock 0%nat > 100 * 1000).
Proof.
  apply (planInterpretation_throws (PQ := ListQueue qe_f) jumpingClock 1 goalHoldingA worldA).
  vm_compute. reflexivity.
Defined.

(** ** Plans found on the planner graph *)

Lemma outgoingEdge_not_cancelled objects n c e :
  outgoingEdge objects n c = Ok (Some e) -> cancels (command n) c = false.
Proof.
  unfold outgoingEdge. destruct (cancels (command n) c); [discriminate | reflexivity].
Qed.

(** What a path of the planner graph that starts in a well-formed state
    looks like. *)
Lemma planner_path_facts objects (ns : list PlannerNode) (c : Z) (start : PlannerNode) :
  graph_path (newPlannerGraph objects) ns c ->
  head ns = Some start ->
  WellFormed objects start ->
  Forall (WellFormed objects) ns
  /\ Forall (fun n => entities n ≡ₚ entities start) ns
  /\ c = JS.length ns - 1
  /\ (legal_state objects start -> Forall (legal_state objects) ns)
  /\ (forall (i : nat) n m, ns !! i = Some n -> ns !! S i = Some m ->
        exists cmd, command m = Some cmd /\ cmd ∈ ["l"; "r"; "p"; "d"]
                    /\ cancels (command n) cmd = false).
Proof.
  induction 1 as [n | ns n c es e Hpath IH Hes He]; intros Hhead Hwf.
  - injection Hhead as ->.
    split; [apply Forall_singleton; exact Hwf |].
    split; [apply Forall_singleton; reflexivity |].
    split; [reflexivity |].
    split; [intros Hl; apply Forall_singleton; exact Hl |].
    intros [| i] x y Hx Hy; discriminate.
  - assert (Hhead' : head (ns ++ [n]) = Some start) by (destruct ns; exact Hhead).
    destruct (IH Hhead' Hwf) as (Hwfs & Hperms & Hc & Hlegal & Hadj).
    simpl in Hes.
    assert (Hlast : forall P : PlannerNode -> Prop, Forall P (ns ++ [n]) -> P n).
    { intros P HP. apply Forall_app in HP as (_ & Hn).
      exact (proj1 (Forall_singleton _ _) Hn). }
    assert (Hsnoc : forall (P : PlannerNode -> Prop) x,
              Forall P (ns ++ [n]) -> P x -> Forall P ((ns ++ [n]) ++ [x])).
    { intros P x HP Hx. apply Forall_app. split; [exact HP |].
      apply Forall_singleton. exact Hx. }
    pose proof (Hlast _ Hwfs) as Hwfn.
    pose proof (Hlast _ Hperms) as Hpn. simpl in Hpn.
    pose proof Hes as Hes'.
    apply (outgoingEdges_elem _ _ _ e) in Hes'. apply Hes' in He as Hedge.
    destruct Hedge as (cmd & Hcmd & Hedge).
    pose proof (outgoingEdge_entities _ _ _ _ Hcmd Hedge) as (Hperm & _ & Hcost).
    split; [| split; [| split; [| split]]].
    + apply Hsnoc; [exact Hwfs |].
      destruct (successors_WellFormed_lemma objects n Hwfn) as (es' & Hes'' & Hsucc).
      rewrite Hes in Hes''. injection Hes'' as <-. apply Hsucc, He.
    + apply Hsnoc; [exact Hperms |]. rewrite Hperm. exact Hpn.
    + rewrite Hcost, Hc. unfold JS.length. rewrite !length_app. simpl. lia.
    + intros Hl. specialize (Hlegal Hl). apply Hsnoc; [exact Hlegal |].
      exact (successors_keep_stacks_legal_lemma objects n es e Hwfn (Hlast _ Hlegal) Hes He).
    + intros i x y Hx Hy.
      destruct (decide (S i < length (ns ++ [n]))%nat) as [Hlt | Hge].
      * rewrite lookup_app_l in Hx by lia. rewrite lookup_app_l in Hy by lia.
        exact (Hadj i x y Hx Hy).
      * assert (Hi : S i = length (ns ++ [n])).
        { apply lookup_lt_Some in Hy. rewrite length_app in Hy. simpl in Hy. lia. }
        rewrite lookup_app_r in Hy by lia.
        replace (S i - length (ns ++ [n]))%nat with 0%nat in Hy by lia.
        injection Hy as <-.
        rewrite lookup_app_l in Hx by lia.
        rewrite length_app in Hi. simpl in Hi.
        rewrite lookup_app_r in Hx by lia.
        replace (i - length ns)%nat with 0%nat in Hx by lia. injection Hx as <-.
        exists cmd. split; [eapply outgoingEdge_command; exact Hedge |].
        split; [exact Hcmd |]. eapply outgoingEdge_not_cancelled. exact Hedge.
Qed.

(** ** Termination of the planner's search *)

Lemma elem_of_words (alphabet : list string) (m : nat) (w : list string) :
  w ∈ words alphabet m <-> (length w <= m)%nat /\ Forall (fun x => x ∈ alphabet) w.
Proof.
  revert w. induction m as [| m IH]; intros w; simpl.
  - rewrite list_elem_of_singleton. split.
    + intros ->. split; [simpl; lia | constructor].
    + intros (Hlen & _). destruct w; [reflexivity | simpl in Hlen; lia].
  - rewrite elem_of_cons, list_elem_of_bind. split.
    + intros [-> | (a & Hw & Ha)]; [split; [simpl; lia | constructor] |].
      apply list_elem_of_bind in Hw as (w' & Hw & Hw').
      apply list_elem_of_singleton in Hw as ->. apply IH in Hw' as (Hlen & Hall).
      split; [simpl; lia | constructor; assumption].
    + intros (Hlen & Hall). destruct w as [| a w']; [left; reflexivity |]. right.
      apply Forall_cons in Hall as (Ha & Hall). exists a. split; [| exact Ha].
      apply list_elem_of_bind. exists w'. split; [apply list_elem_of_singleton; reflexivity |].
      apply IH. split; [simpl in Hlen; lia | exact Hall].
Qed.

Lemma elem_of_tuples {X} (choices : list X) (k : nat) (t : list X) :
  t ∈ tuples choices k <-> length t = k /\ Forall (fun x => x ∈ choices) t.
Proof.
  revert t. induction k as [| k IH]; intros t; simpl.
  - rewrite list_elem_of_singleton. split.
    + intros ->. split; [reflexivity | constructor].
    + intros (Hlen & _). destruct t; [reflexivity | discriminate].
  - rewrite list_elem_of_bind. split.
    + intros (x & Ht & Hx).
      apply list_elem_of_bind in Ht as (t' & Ht & Ht').
      apply list_elem_of_singleton in Ht as ->. apply IH in Ht' as (Hlen & Hall).
      split; [simpl; lia | constructor; assumption].
    + intros (Hlen & Hall). destruct t as [| x t']; [discriminate |].
      apply Forall_cons in Hall as (Hx & Hall). exists x. split; [| exact Hx].
      apply list_elem_of_bind. exists t'. split; [apply list_elem_of_singleton; reflexivity |].
      apply IH. split; [simpl in Hlen; lia | exact Hall].
Qed.

Lemma elem_of_stateKeys (ents : list string) (columns m : nat) (k : StateJSON) :
  k ∈ stateKeys ents columns m <->
    length (j_stacks k) = columns
    /\ Forall (fun s => (length s <= m)%nat /\ Forall (fun x => x ∈ ents) s) (j_stacks k)
    /\ (forall h, j_holding k = Some h -> h ∈ ents)
    /\ 0 <= j_arm k < Z.of_nat columns
    /\ length (concat (j_stacks k) ++ option_list (j_holding k)) = m.
Proof.
  unfold stateKeys. rewrite list_elem_of_bind. split.
  - intros (st & Hk & Hst).
    apply list_elem_of_bind in Hk as (h & Hk & Hh).
    apply list_elem_of_bind in Hk as (a & Hk & Ha).
    case_bool_decide as Hm; [| apply elem_of_nil in Hk; contradiction].
    apply list_elem_of_singleton in Hk as ->. simpl.
    apply elem_of_tuples in Hst as (Hlen & Hall).
    apply elem_of_seqZ in Ha.
    split; [exact Hlen |]. split.
    { eapply Forall_impl; [exact Hall |]. intros s Hs. apply elem_of_words. exact Hs. }
    split.
    { intros h' ->. apply elem_of_cons in Hh as [Hh | Hh]; [discriminate |].
      apply list_elem_of_fmap in Hh as (y & [= ->] & Hy). exact Hy. }
    split; [lia | exact Hm].
  - intros (Hlen & Hall & Hh & Ha & Hm). destruct k as [st h a].
    cbn [j_stacks j_holding j_arm] in *.
    exists st. split.
    + apply list_elem_of_bind. exists h. split.
      * apply list_elem_of_bind. exists a. split.
        -- rewrite bool_decide_eq_true_2 by exact Hm. apply list_elem_of_singleton. reflexivity.
        -- apply elem_of_seqZ. lia.
      * destruct h as [h |]; [| left]. right. apply list_elem_of_fmap.
        exists h. split; [reflexivity | apply Hh; reflexivity].
    + apply elem_of_tuples. split; [exact Hlen |].
      eapply Forall_impl; [exact Hall |]. intros s Hs. apply elem_of_words. exact Hs.
Qed.

Lemma length_le_concat {A} (ls : list (list A)) (s : list A) :
  s ∈ ls -> (length s <= length (concat ls))%nat.
Proof.
  induction ls as [| l ls IH]; intros Hs; [apply elem_of_nil in Hs; contradiction |].
  simpl. rewrite length_app. apply elem_of_cons in Hs as [-> | Hs]; [lia |].
  specialize (IH Hs). lia.
Qed.

(** Membership of a node's key in the state space, in terms of the node. *)
Lemma toString_in_stateKeys (ents : list string) (columns m : nat) (n : PlannerNode) :
  toString n ∈ stateKeys ents columns m <->
    length (stacks n) = columns
    /\ (forall x, x ∈ entities n -> x ∈ ents)
    /\ 0 <= arm n < Z.of_nat columns
    /\ length (entities n) = m.
Proof.
  rewrite elem_of_stateKeys. unfold toString, entities. simpl. split.
  - intros (Hlen & Hall & Hh & Ha & Hm). repeat split; try assumption; try lia.
    intros x Hx. apply elem_of_app in Hx as [Hx | Hx].
    + apply elem_of_concat in Hx as (s & Hx & Hs).
      rewrite Forall_forall in Hall. destruct (Hall s Hs) as (_ & Hin).
      rewrite Forall_forall in Hin. apply Hin, Hx.
    + destruct (holding n) as [h |]; simpl in Hx.
      * apply list_elem_of_singleton in Hx as ->. apply Hh. reflexivity.
      * apply elem_of_nil in Hx. contradiction.
  - intros (Hlen & Hin & Ha & Hm). repeat split; try assumption; try lia.
    + apply Forall_forall. intros s Hs. split.
      * pose proof (length_le_concat _ _ Hs) as Hle.
        rewrite length_app in Hm. lia.
      * apply Forall_forall. intros x Hx. apply Hin. apply elem_of_app. left.
        apply elem_of_concat. eauto.
    + intros h Hh. apply Hin. apply elem_of_app. right. rewrite Hh.
      apply list_elem_of_singleton. reflexivity.
Qed.

Lemma outgoingEdge_columns objects n c e :
  c ∈ ["l"; "r"; "p"; "d"] ->
  outgoingEdge objects n c = Ok (Some e) ->
  length (stacks (to e)) = length (stacks n).
Proof.
  intros Hc He.
  assert (Hset : forall i (s : Stack), length (JS.set (stacks n) i s) = length (stacks n)).
  { intros i s. pose proof (JS_length_set (stacks n) i s) as Hl. unfold JS.length in Hl. lia. }
  repeat (apply elem_of_cons in Hc as [-> | Hc]); [| | | | apply elem_of_nil in Hc; contradiction].
  - rewrite outgoingEdge_left in He.
    repeat case_bool_decide; try discriminate. injection He as <-. reflexivity.
  - rewrite outgoingEdge_right in He.
    repeat case_bool_decide; try discriminate. injection He as <-. reflexivity.
  - apply outgoingEdge_pick_inv in He as (s' & top & d & _ & _ & ->). simpl. apply Hset.
  - apply outgoingEdge_drop_inv in He as (s & held & d & _ & _ & _ & ->). simpl. apply Hset.
Qed.

(** The state space of a well-formed start state contains its key and is
    closed under the successor function, which is defined on all of it. *)
Lemma planner_stateKeys_closed objects start :
  WellFormed objects start ->
  let universe :=
    stateKeys (entities start) (length (stacks start)) (length (entities start)) in
  toString start ∈ universe
  /\ forall n, toString n ∈ universe ->
       exists es, outgoingEdges objects n = Ok es /\ (length es <= 3)%nat
                  /\ forall e, e ∈ es -> toString (to e) ∈ universe.
Proof.
  intros Hwf universe. subst universe. split.
  - apply toString_in_stateKeys. repeat split; auto.
    + apply Hwf.
    + pose proof (wf_arm _ _ Hwf) as Ha. unfold JS.length in Ha. lia.
  - intros n Hn. apply toString_in_stateKeys in Hn as (Hcols & Hents & Harm & Hm).
    assert (Hwfn : WellFormed objects n).
    { split.
      - unfold JS.length. lia.
      - intros x Hx. apply (wf_catalog _ _ Hwf), Hents, Hx.
      - intros x Hx. apply (wf_ids _ _ Hwf), Hents, Hx. }
    destruct (successors_WellFormed_lemma objects n Hwfn) as (es & Hes & Hsucc).
    exists es. split; [exact Hes |].
    split; [apply (outgoingEdges_shape_lemma objects n es Hes) |].
    intros e He. pose proof (Hsucc e He) as Hwfe.
    pose proof Hes as Hes'. apply (outgoingEdges_elem _ _ _ e) in Hes'.
    apply Hes' in He as (c & Hc & Hedge).
    pose proof (outgoingEdge_entities _ _ _ _ Hc Hedge) as (Hperm & _ & _).
    pose proof (outgoingEdge_columns _ _ _ _ Hc Hedge) as Hlen.
    apply toString_in_stateKeys. repeat split.
    + congruence.
    + intros x Hx. apply Hents. rewrite <- Hperm. exact Hx.
    + apply Hwfe.
    + pose proof (wf_arm _ _ Hwfe) as Ha. unfold JS.length in Ha. lia.
    + rewrite Hperm. exact Hm.
Qed.

(** The search of [planInterpretation] always stops: for every world whose
    start state is well-formed there is a number of iterations within which
    the search loop has returned a plan or thrown, whatever the goal
    formula and the clock. *)
Theorem planInterpretation_terminates `{PQ : PriorityQueue (QueueElement PlannerNode)}
    {PQL : LawfulQueue qe_f PQ} (clock : nat -> Z) (interpretations : DNFFormula)
    (state : WorldState) :
  WellFormed (w_objects state) (startNode state) ->
  exists bound : nat, forall fuel, (bound < fuel)%nat ->
    exists r, planInterpretation clock fuel interpretations state = Some r.
Proof.
  intros Hwf.
  destruct (planner_stateKeys_closed _ _ Hwf) as (Hstart & Hclosed).
  set (universe := stateKeys (entities (startNode state)) (length (stacks (startNode state)))
                     (length (entities (startNode state)))) in *.
  exists (3 * length universe + 1)%nat. intros fuel Hfuel.
  unfold planInterpretation.
  destruct (defined (interpretations !! 0%nat) ≫= _) as [l00 | e0]; [| eauto].
  case_bool_decide; [eauto |].
  destruct (aStarRun_terminates toString (newPlannerGraph (w_objects state))
              (goal interpretations (w_objects state)) (heuristics interpretations)
              100 clock (startNode state) universe 3 Hclosed fuel Hstart Hfuel) as (r & Hr).
  change (exists r0,
            match aStarSearch toString (newPlannerGraph (w_objects state))
                    (goal interpretations (w_objects state)) (heuristics interpretations)
                    100 clock fuel (startNode state) with
            | None => None
            | Some (Throw e) => Some (Throw e)
            | Some (Ok r1) => Some (Ok (planOfPath (tail (path r1)) []))
            end = Some r0).
  unfold aStarSearch. rewrite Hr. destruct r as [r | e]; eauto.
Qed.

Lemma planInterpretation_terminates_witness :
  exists bound : nat, forall fuel, (bound < fuel)%nat ->
    exists r, planInterpretation (PQ := ListQueue qe_f) frozenClock fuel goalHoldingA worldA
              = Some r.
Proof.
  apply (planInterpretation_terminates (PQ := ListQueue qe_f) (PQL := ListQueue_lawful qe_f)).
  apply wellFormedb_true. vm_compute. reflexivity.
Defined.

(** Every state on a path that the search returns for a well-formed start
    state is well-formed and holds the entities of the start state, and
    if the start state obeys the physical laws, so does every state on the
    path. *)
Theorem planner_path_invariants `{PQ : PriorityQueue (QueueElement PlannerNode)}
    {PQL : LawfulQueue qe_f PQ} (objects : gmap string ObjectDefinition)
    (goal_ : PlannerNode -> result bool) (heuristics_ : PlannerNode -> result number)
    (timeout : Z) (clock : nat -> Z) (fuel : nat) (start : PlannerNode)
    (r : SearchResult PlannerNode) :
  WellFormed objects start ->
  aStarSearch toString (newPlannerGraph objects) goal_ heuristics_ timeout clock fuel start
  = Some (Ok r) ->
  Forall (WellFormed objects) (path r)
  /\ Forall (fun n => entities n ≡ₚ entities start) (path r)
  /\ (legal_state objects start -> Forall (legal_state objects) (path r)).
Proof.
  intros Hwf Hrun. apply aStarRun_returns_path in Hrun as (Hpath & Hhead & _); [| exact PQL].
  destruct (planner_path_facts objects _ _ start Hpath Hhead Hwf) as (H1 & H2 & _ & H4 & _).
  auto.
Qed.

(** The cost that the search reports for a plan is the number of its
    steps, every step is one of the commands [l], [r], [p], [d], and no
    step undoes the step before it (no [r] after [l], [l] after [r], [d]
    after [p] or [p] after [d]). *)
Theorem planner_path_commands `{PQ : PriorityQueue (QueueElement PlannerNode)}
    {PQL : LawfulQueue qe_f PQ} (objects : gmap string ObjectDefinition)
    (goal_ : PlannerNode -> result bool) (heuristics_ : PlannerNode -> result number)
    (timeout : Z) (clock : nat -> Z) (fuel : nat) (start : PlannerNode)
    (r : SearchResult PlannerNode) :
  WellFormed objects start ->
  aStarSearch toString (newPlannerGraph objects) goal_ heuristics_ timeout clock fuel start
  = Some (Ok r) ->
  path_cost r = JS.length (path r) - 1
  /\ forall (i : nat) n m, path r !! i = Some n -> path r !! S i = Some m ->
       exists cmd, command m = Some cmd /\ cmd ∈ ["l"; "r"; "p"; "d"]
                   /\ cancels (command n) cmd = false.
Proof.
  intros Hwf Hrun. apply aStarRun_returns_path in Hrun as (Hpath & Hhead & _); [| exact PQL].
  destruct (planner_path_facts objects _ _ start Hpath Hhead Hwf) as (_ & _ & H3 & _ & H5).
  auto.
Qed.

(** ** Runs of the search on the example world *)

Lemma search_holding_a :
  aStarSearch (PQ := ListQueue qe_f) toString (newPlannerGraph exampleObjects)
    (goal goalHoldingA exampleObjects) (heuristics goalHoldingA) 100 frozenClock 10 startA
  = Some (Ok {| path := [startA; pickedA]; path_cost := 1 |}).
Proof. vm_compute. reflexivity. Qed.

Lemma startA_WellFormed : WellFormed exampleObjects startA.
Proof. apply wellFormedb_true. vm_compute. reflexivity. Qed.

Lemma aStarSearch_returns_path_witness :
  graph_path (newPlannerGraph exampleObjects) [startA; pickedA] 1
  /\ head [startA; pickedA] = Some startA
  /\ exists g, last [startA; pickedA] = Some g /\ goal goalHoldingA exampleObjects g = Ok true.
Proof.
  exact (@aStarSearch_returns_path PlannerNode StateJSON _ toString (ListQueue qe_f)
           (ListQueue_lawful qe_f)
           (newPlannerGraph exampleObjects) (goal goalHoldingA exampleObjects)
           (heuristics goalHoldingA) 100 frozenClock startA 10
           {| path := [startA; pickedA]; path_cost := 1 |} search_holding_a).
Defined.

Lemma planner_path_invariants_witness :
  Forall (WellFormed exampleObjects) [startA; pickedA]
  /\ Forall (fun n => entities n ≡ₚ entities startA) [startA; pickedA]
  /\ (legal_state exampleObjects startA -> Forall (legal_state exampleObjects) [startA; pickedA]).
Proof.
  exact (planner_path_invariants (PQ := ListQueue qe_f) (PQL := ListQueue_lawful qe_f)
           exampleObjects (goal goalHoldingA exampleObjects) (heuristics goalHoldingA)
           100 frozenClock 10 startA {| path := [startA; pickedA]; path_cost := 1 |}
           startA_WellFormed search_holding_a).
Defined.

Lemma planner_path_commands_witness :
  1 = JS.length [startA; pickedA] - 1
  /\ forall (i : nat) n m, [startA; pickedA] !! i = Some n -> [startA; pickedA] !! S i = Some m ->
       exists cmd, command m = Some cmd /\ cmd ∈ ["l"; "r"; "p"; "d"]
                   /\ cancels (command n) cmd = false.
Proof.
  exact (planner_path_commands (PQ := ListQueue qe_f) (PQL := ListQueue_lawful qe_f)
           exampleObjects (goal goalHoldingA exampleObjects) (heuristics goalHoldingA)
           100 frozenClock 10 startA {| path := [startA; pickedA]; path_cost := 1 |}
           startA_WellFormed search_holding_a).
Defined.

Lemma aStarSearch_terminates_witness :
  exists r,
    aStarSearch (PQ := ListQueue qe_f) toString (newPlannerGraph exampleObjects)
      (goal goalALeftOfB exampleObjects) (heuristics goalALeftOfB) 100 frozenClock 20 startA
    = Some r.
Proof.
  destruct (planner_stateKeys_closed exampleObjects startA startA_WellFormed)
    as (Hstart & Hclosed).
  apply (@aStarSearch_terminates PlannerNode StateJSON _ toString (ListQueue qe_f)
           (ListQueue_lawful qe_f)
           (newPlannerGraph exampleObjects) (goal goalALeftOfB exampleObjects)
           (heuristics goalALeftOfB) 100 frozenClock startA
           (stateKeys (entities startA) (length (stacks startA)) (length (entities startA)))
           3 Hclosed 20 Hstart).
  vm_compute. lia.
Defined.

Lemma aStarSearch_within_budget_witness :
  aStarSearch (PQ := ListQueue qe_f) toString (newPlannerGraph exampleObjects)
    (goal goalHoldingA exampleObjects) (heuristics goalHoldingA) 100 frozenClock 10 startA
  = aStarSearch (PQ := ListQueue qe_f) toString (newPlannerGraph exampleObjects)
      (goal goalHoldingA exampleObjects) (heuristics goalHoldingA) 0 frozenClock 10 startA.
Proof.
  apply aStarSearch_within_budget; intros k; unfold frozenClock; lia.
Defined.

Lemma search_times_out :
  aStarSearch (PQ := ListQueue qe_f) toString (newPlannerGraph exampleObjects)
    (goal goalHoldingA exampleObjects) (heuristics goalHoldingA) 100 jumpingClock 10 startA
  = Some (Throw SearchTimeout).
Proof. vm_compute. reflexivity. Qed.

Lemma aStarSearch_throws_witness :
  SearchTimeout = NoPath
  \/ (SearchTimeout = SearchTimeout
      /\ exists k, jumpingClock k - jumpingClock 0%nat > 100 * 1000)
  \/ (exists n, goal goalHoldingA exampleObjects n = Throw SearchTimeout
                \/ heuristics goalHoldingA n = Throw SearchTimeout
                \/ outgoingEdges exampleObjects n = Throw SearchTimeout).
Proof.
  exact (@aStarSearch_throws PlannerNode StateJSON _ toString (ListQueue qe_f)
           (newPlannerGraph exampleObjects)
           (goal goalHoldingA exampleObjects) (heuristics goalHoldingA) 100 jumpingClock
           startA 10 SearchTimeout search_times_out).
Defined.

(** ** The errors of the goal test *)

Lemma elem_of_stack_concat (stacks : list Stack) (c : Z) (s : Stack) (x : string) :
  JS.get stacks c = Some s -> x ∈ s -> x ∈ concat stacks.
Proof.
  intros Hs Hx. apply elem_of_concat. exists s. split; [exact Hx |].
  apply JS_get_Some in Hs as (_ & Hs). eapply list_elem_of_lookup_2. exact Hs.
Qed.

Lemma conditionHolds_Throw objects n l e :
  conditionHolds objects n l = Throw e <-> e = TypeError /\ reads_uncatalogued objects n l.
Proof.
  unfold conditionHolds, reads_uncatalogued.
  case_bool_decide as Hrel.
  { split; [discriminate |]. intros (_ & Hr & _). contradiction. }
  destruct (getStackIndex (stacks n) (args l !! 0%nat)) as [c1 |] eqn:Hc1.
  2:{ split; [discriminate |]. intros (_ & _ & x & y & Hx & _ & _ & Hin & _).
      rewrite Hx in Hc1. apply getStackIndex_None in Hc1. contradiction. }
  destruct (getStackIndex_get _ _ _ Hc1) as (s1 & x & Hs1 & Hx & Hxin).
  rewrite Hs1. simpl.
  case_bool_decide as Hfloor.
  2:{ split; [repeat case_match; discriminate |].
      intros (_ & _ & x' & y & _ & Hy & Hyf & _). exfalso. apply Hyf.
      congruence. }
  destruct (getStackIndex (stacks n) (args l !! 1%nat)) as [c2 |] eqn:Hc2.
  2:{ split; [discriminate |]. intros (_ & _ & x' & y & _ & Hy & _ & _ & Hin & _).
      rewrite Hy in Hc2. apply getStackIndex_None in Hc2. contradiction. }
  destruct (getStackIndex_get _ _ _ Hc2) as (s2 & y & Hs2 & Hy & Hyin).
  rewrite Hs2, Hy. unfold field_of. simpl.
  destruct (objects !! y) as [oy |] eqn:Hoy; simpl.
  { split; [repeat case_match; discriminate |].
    intros (_ & _ & x' & y' & _ & Hy' & _ & _ & _ & Hnone & _). congruence. }
  destruct (JS.inherited y) eqn:Hinherited; simpl.
  { split; [repeat case_match; discriminate |].
    intros (_ & _ & x' & y' & _ & Hy' & _ & _ & _ & _ & Hown). congruence. }
  split.
  - intros [= <-]. split; [reflexivity |]. split; [exact Hrel |].
    exists x, y. repeat split; try assumption.
    + intros ->. apply Hfloor. exact Hy.
    + exact (elem_of_stack_concat _ _ _ _ Hs1 Hxin).
    + exact (elem_of_stack_concat _ _ _ _ Hs2 Hyin).
  - intros (-> & _). reflexivity.
Qed.

(** The goal test throws nothing but a [TypeError], and it throws one only
    because a literal makes it dereference the catalog entry of a stacked
    second entity that the catalog does not have and that does not name a
    property inherited by every object (under such a name the read finds a
    function, whose [form] is [undefined], and nothing is thrown); a formula
    consisting of one such literal always throws. *)
Theorem goal_throws objects n :
  (forall interpretations e, goal interpretations objects n = Throw e ->
     e = TypeError
     /\ exists c l, c ∈ interpretations /\ l ∈ c /\ reads_uncatalogued objects n l)
  /\ (forall l, reads_uncatalogued objects n l -> goal [[l]] objects n = Throw TypeError).
Proof.
  split.
  - assert (Hconj : forall c e, conjunctionHolds objects n c = Throw e ->
              e = TypeError /\ exists l, l ∈ c /\ reads_uncatalogued objects n l).
    { induction c as [| l c IH]; intros e; simpl; [discriminate |].
      destruct (conditionHolds objects n l) as [[|] | e'] eqn:Hl; simpl.
      - intros Hc. destruct (IH e Hc) as (-> & l' & Hl' & Hun).
        split; [reflexivity |]. exists l'. split; [right; exact Hl' | exact Hun].
      - discriminate.
      - intros [= <-]. apply conditionHolds_Throw in Hl as (-> & Hun).
        split; [reflexivity |]. exists l. split; [left | exact Hun]. }
    induction interpretations as [| c f IH]; intros e; simpl; [discriminate |].
    destruct (conjunctionHolds objects n c) as [[|] | e'] eqn:Hc; simpl.
    + discriminate.
    + intros Hf. destruct (IH e Hf) as (-> & c' & l & Hc' & Hl & Hun).
      split; [reflexivity |]. exists c', l. split; [right; exact Hc' | auto].
    + intros [= <-]. destruct (Hconj c e' Hc) as (-> & l & Hl & Hun).
      split; [reflexivity |]. exists c, l. split; [left | auto].
  - intros l Hun. simpl.
    assert (Hl : conditionHolds objects n l = Throw TypeError)
      by (apply conditionHolds_Throw; auto).
    rewrite Hl. reflexivity.
Qed.

Lemma goal_throws_witness :
  goal [[mkLiteral true "ontop" ["a"; "b"]]] objectsA stackedAB = Throw TypeError.
Proof.
  apply (proj2 (goal_throws objectsA stackedAB)).
  split; [discriminate |]. exists "a", "b".
  repeat split; try reflexivity; try discriminate; simpl; set_solver.
Defined.

(** ** Descriptions *)

Lemma countSame_none objects (p : ObjectDefinition -> ObjectDefinition -> bool)
    (x : string) (o : ObjectDefinition) (existing : list string) (sum : Z) :
  objects !! x = Some o ->
  (forall y, y ∈ existing -> exists oy, objects !! y = Some oy /\ p oy o = false) ->
  countSame objects p x existing sum = Ok sum.
Proof.
  intros Hx. revert sum. induction existing as [| y rest IH]; intros sum Hall; simpl;
    [reflexivity |].
  destruct (Hall y) as (oy & Hoy & Hp); [left |].
  unfold object_of. rewrite Hoy, Hx. simpl. rewrite Hp.
  rewrite Z.add_0_r. apply IH. intros z Hz. apply Hall. right. exact Hz.
Qed.

Lemma splice1_indexOf (l : list string) (x y : string) :
  NoDup l -> x ∈ l -> y ∈ JS.splice1 l (JS.indexOf l (Some x)) -> y ∈ l /\ y <> x.
Proof.
  intros Hnd Hx Hy. split; [eapply elem_of_splice1; exact Hy |].
  destruct (indexOf_spec l (Some x)) as [(_ & Hnot) | (Hrange & x' & [= <-] & Hlook)];
    [exfalso; exact (Hnot x eq_refl Hx) |].
  unfold JS.splice1, JS.splice_start in Hy.
  rewrite bool_decide_eq_false_2 in Hy by lia.
  replace (Z.to_nat (Z.min (JS.indexOf l (Some x)) (JS.length l)))
    with (Z.to_nat (JS.indexOf l (Some x))) in Hy by lia.
  set (i := Z.to_nat (JS.indexOf l (Some x))) in *.
  rewrite <- (take_drop_middle l i x Hlook) in Hnd.
  apply NoDup_app in Hnd as (_ & Hdisj & Hnd2).
  apply NoDup_cons in Hnd2 as (Hnotin & _).
  intros ->. apply elem_of_app in Hy as [Hy | Hy].
  - apply (Hdisj x Hy). left.
  - exact (Hnotin Hy).
Qed.

(** When no other entity of the state has the form of [x], the descriptions
    of picking [x] up and of putting something on [x] name it by its form
    alone, without colour or size. *)
Theorem description_of_unique_form node objects (x : string) (o : ObjectDefinition) :
  x <> "" ->
  objects !! x = Some o ->
  NoDup (entities node) ->
  x ∈ entities node ->
  (forall y, y ∈ entities node -> y <> x ->
     exists oy, objects !! y = Some oy /\ form oy <> form o) ->
  getDescription node objects (Some x) (Some "p")
  = Ok ("Picking up the " +:+ form o +:+ ".")
  /\ getDescription node objects (Some x) (Some "d")
     = Ok ("Putting it " +:+ (if bool_decide (form o = "box") then "inside " else "on ")
           +:+ "the " +:+ form o +:+ ".").
Proof.
  intros Hne Hx Hnd Hin Hother.
  assert (Hexisting : forall y,
            y ∈ JS.splice1 (entities node) (JS.indexOf (entities node) (Some x)) ->
            exists oy, objects !! y = Some oy /\ form oy <> form o).
  { intros y Hy. apply splice1_indexOf in Hy as (Hy & Hyx); auto. }
  assert (Hform : countSame objects sameForm x
                    (JS.splice1 (entities node) (JS.indexOf (entities node) (Some x))) 0
                  = Ok 0).
  { apply (countSame_none objects sameForm x o); [exact Hx |].
    intros y Hy. destruct (Hexisting y Hy) as (oy & Hoy & Hf).
    exists oy. split; [exact Hoy |]. unfold sameForm. apply bool_decide_eq_false_2. exact Hf. }
  assert (Hcount : forall p, exists z,
            countSame objects p x
              (JS.splice1 (entities node) (JS.indexOf (entities node) (Some x))) 0 = Ok z).
  { intros p. apply countSame_Ok; [eexists; exact Hx |].
    intros y Hy. destruct (Hexisting y Hy) as (oy & Hoy & _). eexists. exact Hoy. }
  destruct (Hcount sameFormColor) as (z1 & Hz1).
  destruct (Hcount sameFormSize) as (z2 & Hz2).
  destruct (Hcount sameFormColorSize) as (z3 & Hz3).
  rewrite entities_alt in Hform, Hz1, Hz2, Hz3.
  unfold getDescription, object_of. simpl.
  rewrite (bool_decide_eq_false_2 (x = "")) by exact Hne. simpl.
  rewrite Hx. simpl.
  split.
  - destruct (holding node); simpl in Hform, Hz1, Hz2, Hz3;
      rewrite Hform; simpl; rewrite Hz1; simpl; rewrite Hz2; simpl;
      rewrite Hz3; reflexivity.
  - destruct (holding node); simpl in Hform, Hz1, Hz2, Hz3;
      rewrite Hform; simpl; rewrite Hz1; simpl; rewrite Hz2; simpl;
      rewrite Hz3; simpl; case_bool_decide; reflexivity.
Qed.

Lemma description_of_unique_form_witness :
  getDescription stackedAB exampleObjects (Some "a") (Some "p")
  = Ok ("Picking up the " +:+ "ball" +:+ ".")
  /\ getDescription stackedAB exampleObjects (Some "a") (Some "d")
     = Ok ("Putting it " +:+ (if bool_decide ("ball" = "box") then "inside " else "on ")
           +:+ "the " +:+ "ball" +:+ ".").
Proof.
  apply (description_of_unique_form stackedAB exampleObjects "a"
           (mkObject "ball" "small" "white")).
  - discriminate.
  - reflexivity.
  - apply (bool_decide_unpack _). vm_compute. exact I.
  - apply (bool_decide_unpack _). vm_compute. exact I.
  - intros y Hy Hya. simpl in Hy.
    repeat (apply elem_of_cons in Hy as [-> | Hy]); try contradiction.
    + eexists. split; [reflexivity | discriminate].
    + eexists. split; [reflexivity | discriminate].
    + apply elem_of_nil in Hy. contradiction.
Defined.

(** ** The driver [plan] *)

Section PlanFacts.
Context `{PQ : PriorityQueue (QueueElement PlannerNode)} {P : Type}.
Variable clocks : nat -> nat -> Z.
Variable fuel : nat.
Variable currentState : WorldState.

Lemma plan_loop_spec (interpretations : list (InterpretationResult P)) (i : nat)
    (errors errors' : list exn) (plans plans' : list (PlannerResult P)) :
  plan_loop clocks fuel i interpretations currentState errors plans = Some (errors', plans') ->
  exists newErrors newPlans,
    errors' = errors ++ newErrors /\ plans' = plans ++ newPlans
    /\ Forall (fun p => pr_plan p <> []) newPlans
    /\ pr_result <$> newPlans `sublist_of` interpretations
    /\ (newPlans = [] ->
        forall (k : nat) r, interpretations !! k = Some r ->
          exists e, newErrors !! k = Some e
                    /\ planInterpretation (clocks (i + k)%nat) fuel (interpretation r) currentState
                       = Some (Throw e)).
Proof.
  revert i errors plans.
  induction interpretations as [| r rest IH]; intros i errors plans; simpl.
  - intros [= <- <-]. exists [], []. rewrite !app_nil_r.
    repeat split; try constructor. intros _ k r Hk. discriminate.
  - destruct (planInterpretation (clocks i) fuel (interpretation r) currentState)
      as [[p | err] |] eqn:Hplan; [| | discriminate].
    + intros Hloop. apply IH in Hloop as (newE & newP & -> & -> & Hne & Hsub & _).
      exists newE, (mkPlannerResult r
                      (if bool_decide (JS.length p = 0)
                       then p ++ [Some "That is already true!"] else p) :: newP).
      split; [reflexivity |]. split; [rewrite <- app_assoc; reflexivity |].
      split; [| split].
      * constructor; [| exact Hne]. simpl. case_bool_decide as Hlen.
        -- destruct p; discriminate.
        -- intros ->. apply Hlen. reflexivity.
      * simpl. apply sublist_skip. exact Hsub.
      * discriminate.
    + intros Hloop. apply IH in Hloop as (newE & newP & -> & -> & Hne & Hsub & Hall).
      exists (err :: newE), newP.
      split; [rewrite <- app_assoc; reflexivity |]. split; [reflexivity |].
      split; [exact Hne |]. split; [apply sublist_cons; exact Hsub |].
      intros Hnil [| k] r' Hk; simpl in Hk.
      * injection Hk as <-. exists err. split; [reflexivity |].
        rewrite Nat.add_0_r. exact Hplan.
      * destruct (Hall Hnil k r' Hk) as (e & He & Hthrow).
        exists e. split; [exact He |].
        replace (i + S k)%nat with (S i + k)%nat by lia. exact Hthrow.
Qed.

(** What [plan] returns is never empty: it holds a result for at least one
    of the interpretations, in their order, and each of these results has a
    plan of at least one entry. *)
Theorem plan_returns_plans (interpretations : list (InterpretationResult P))
    (plans : list (PlannerResult P)) :
  plan clocks fuel interpretations currentState = Some (inl plans) ->
  plans <> []
  /\ Forall (fun p => pr_plan p <> []) plans
  /\ pr_result <$> plans `sublist_of` interpretations.
Proof.
  unfold plan.
  destruct (plan_loop clocks fuel 0 interpretations currentState [] []) as [[errors ps] |]
    eqn:Hloop; [| discriminate].
  case_bool_decide as Hlen; [| discriminate]. intros [= <-].
  apply plan_loop_spec in Hloop as (newE & newP & _ & -> & Hne & Hsub & _).
  simpl in *. split; [| split; assumption].
  intros ->. apply Hlen. reflexivity.
Qed.

(** [plan] throws only when planning failed for every interpretation, and
    what it throws is the error of the first interpretation; with no
    interpretation at all it throws [undefined]. *)
Theorem plan_throws_first_error (interpretations : list (InterpretationResult P))
    (err : option exn) :
  plan clocks fuel interpretations currentState = Some (inr err) ->
  (forall (k : nat) r, interpretations !! k = Some r ->
     exists e, planInterpretation (clocks k) fuel (interpretation r) currentState
               = Some (Throw e))
  /\ match interpretations with
     | [] => err = None
     | r :: _ =>
         exists e, err = Some e
                   /\ planInterpretation (clocks 0%nat) fuel (interpretation r) currentState
                      = Some (Throw e)
     end.
Proof.
  unfold plan.
  destruct (plan_loop clocks fuel 0 interpretations currentState [] []) as [[errors ps] |]
    eqn:Hloop; [| discriminate].
  case_bool_decide as Hlen; [discriminate |]. intros [= <-].
  pose proof Hloop as Hloop'.
  apply plan_loop_spec in Hloop as (newE & newP & -> & -> & _ & _ & Hall).
  simpl in *.
  assert (Hnil : newP = []).
  { destruct newP; [reflexivity |]. exfalso. unfold JS.length in Hlen. simpl in Hlen. lia. }
  specialize (Hall Hnil). split.
  - intros k r Hk. destruct (Hall k r Hk) as (e & _ & He). eauto.
  - destruct interpretations as [| r rest].
    + simpl in Hloop'. injection Hloop' as <- _. reflexivity.
    + destruct (Hall 0%nat r eq_refl) as (e & He & Hthrow). eauto.
Qed.

End PlanFacts.

Lemma planInterpretation_search `{PQ : PriorityQueue (QueueElement PlannerNode)}
    (clock : nat -> Z) (fuel : nat) (interpretations : DNFFormula) (state : WorldState)
    (l00 : Literal) :
  firstLiteral interpretations = Some l00 ->
  relation l00 <> "where" ->
  planInterpretation clock fuel interpretations state
  = match aStarSearch toString (newPlannerGraph (w_objects state))
            (goal interpretations (w_objects state)) (heuristics interpretations)
            100 clock fuel (startNode state) with
    | None => None
    | Some (Throw e) => Some (Throw e)
    | Some (Ok r) => Some (Ok (planOfPath (tail (path r)) []))
    end.
Proof.
  intros Hfirst Hrel. unfold planInterpretation, firstLiteral in *.
  destruct (interpretations !! 0%nat) as [c |]; simpl in *; [| discriminate].
  rewrite Hfirst. simpl. rewrite bool_decide_eq_false_2 by exact Hrel. reflexivity.
Qed.

(** When the goal test already holds in the current state (and the clock
    has not run past the budget before the first pop), [plan] answers with
    the single entry "That is already true!". *)
Theorem plan_already_true `{PQ : PriorityQueue (QueueElement PlannerNode)}
    {PQL : LawfulQueue qe_f PQ} {P : Type} (clocks : nat -> nat -> Z) (fuel : nat)
    (r : InterpretationResult P) (state : WorldState) (l00 : Literal) (h : number) :
  firstLiteral (interpretation r) = Some l00 ->
  relation l00 <> "where" ->
  heuristics (interpretation r) (startNode state) = Ok h ->
  goal (interpretation r) (w_objects state) (startNode state) = Ok true ->
  clocks 0%nat 1%nat - clocks 0%nat 0%nat <= 100 * 1000 ->
  plan clocks (S fuel) [r] state
  = Some (inl [mkPlannerResult r [Some "That is already true!"]]).
Proof.
  intros Hfirst Hrel Hh Hgoal Hclock. unfold plan. simpl.
  rewrite (planInterpretation_search _ _ _ _ l00 Hfirst Hrel).
  unfold aStarSearch.
  rewrite (aStarRun_goal_at_start toString (newPlannerGraph (w_objects state)) _ _ 100
             (clocks 0%nat) fuel (startNode state) h Hh Hgoal Hclock).
  reflexivity.
Qed.

Lemma plan_already_true_witness :
  plan (PQ := ListQueue qe_f) (fun _ => frozenClock) 1 [putAOnFloor] worldA
  = Some (inl [mkPlannerResult putAOnFloor [Some "That is already true!"]]).
Proof.
  apply (plan_already_true (PQ := ListQueue qe_f) (PQL := ListQueue_lawful qe_f)
           (fun _ => frozenClock) 0 putAOnFloor worldA
           (mkLiteral true "ontop" ["a"; "floor"]) (Num 2)).
  - reflexivity.
  - discriminate.
  - vm_compute. reflexivity.
  - vm_compute. reflexivity.
  - vm_compute. discriminate.
Defined.

Lemma plan_returns_plans_witness :
  [mkPlannerResult putAOnFloor [Some "That is already true!"]] <> []
  /\ Forall (fun p => pr_plan p <> [])
       [mkPlannerResult putAOnFloor [Some "That is already true!"]]
  /\ pr_result <$> [mkPlannerResult putAOnFloor [Some "That is already true!"]]
     `sublist_of` [noFormula; putAOnFloor].
Proof.
  apply (plan_returns_plans (PQ := ListQueue qe_f) (fun _ => frozenClock) 1 worldA
           [noFormula; putAOnFloor]).
  vm_compute. reflexivity.
Defined.

Lemma plan_throws_first_error_witness :
  (forall (k : nat) r, [noFormula] !! k = Some r ->
     exists e, planInterpretation (PQ := ListQueue qe_f) frozenClock 1 (interpretation r) worldA
               = Some (Throw e))
  /\ exists e, Some TypeError = Some e
               /\ planInterpretation (PQ := ListQueue qe_f) frozenClock 1
                    (interpretation noFormula) worldA
                  = Some (Throw e).
Proof.
  apply (plan_throws_first_error (PQ := ListQueue qe_f) (fun _ => frozenClock) 1 worldA
           [noFormula] (Some TypeError)).
  vm_compute. reflexivity.
Defined.

(** ** Edge cases of [planInterpretation] *)

(** [planInterpretation] reads [interpretations[0][0].relation] before
    anything else: on a formula without conjunctions, and on a formula whose
    first conjunction is empty, it throws a [TypeError] whatever the world,
    although the goal test accepts the latter formula in every state (an
    empty conjunction holds vacuously). *)
Theorem planInterpretation_needs_first_literal
    `{PQ : PriorityQueue (QueueElement PlannerNode)}
    (clock : nat -> Z) (fuel : nat) (rest : DNFFormula) (state : WorldState)
    (objects : gmap string ObjectDefinition) (n : PlannerNode) :
  planInterpretation clock fuel [] state = Some (Throw TypeError)
  /\ planInterpretation clock fuel ([] :: rest) state = Some (Throw TypeError)
  /\ goal ([] :: rest) objects n = Ok true.
Proof. split; [| split]; reflexivity. Qed.

(** ** Answers to "where is ...?" *)

Lemma string_app_assoc (s t u : string) : (s +:+ t) +:+ u = s +:+ (t +:+ u).
Proof.
  induction s as [| c s IH]; [reflexivity |].
  change (String c ((s +:+ t) +:+ u) = String c (s +:+ (t +:+ u))). f_equal. exact IH.
Qed.

Lemma indexOf_head (s : list string) (x : string) :
  head s = Some x -> JS.indexOf s (Some x) = 0.
Proof.
  destruct s as [| y s]; simpl; [discriminate |]. intros [= ->].
  rewrite bool_decide_eq_true_2 by reflexivity. reflexivity.
Qed.

(** A question about one entity is answered without a search, by one
    sentence.  An entity that is in no stack is said to be in the claw,
    whether or not the claw holds it; an entity at the bottom of a stack is
    said to be on the floor of that stack. *)
Theorem where_answers `{PQ : PriorityQueue (QueueElement PlannerNode)}
    (clock : nat -> Z) (fuel : nat) (state : WorldState) (l : Literal) (x : string) :
  relation l = "where" ->
  args l !! 0%nat = Some x ->
  (x ∉ concat (w_stacks state) ->
   planInterpretation clock fuel [[l]] state = Some (Ok [Some "It is in the claw."]))
  /\ (forall c s, getStackIndex (w_stacks state) (Some x) = Some c ->
        JS.get (w_stacks state) c = Some s -> head s = Some x ->
        planInterpretation clock fuel [[l]] state
        = Some (Ok [Some ("It is in the " +:+ mapNumberToText c +:+ " stack on the floor.")])).
Proof.
  intros Hrel Hx. split.
  - intros Hnot. apply getStackIndex_None in Hnot.
    unfold planInterpretation. simpl. rewrite bool_decide_eq_true_2 by exact Hrel.
    simpl. unfold whereLocation. simpl. rewrite Hx, Hnot. reflexivity.
  - intros c s Hc Hs Hhead.
    pose proof (getStackIndex_Some _ _ _ Hc) as (Hrange & _).
    unfold planInterpretation. simpl. rewrite bool_decide_eq_true_2 by exact Hrel.
    simpl. unfold whereLocation. simpl. rewrite Hx, Hc.
    rewrite bool_decide_eq_true_2 by lia. rewrite Hs. simpl.
    pose proof (indexOf_head s x Hhead) as Hi. simpl in Hi. rewrite Hi. simpl.
    unfold getDescription. simpl.
    rewrite !string_app_assoc. reflexivity.
Qed.

Lemma where_answers_witness :
  ("a" ∉ concat (w_stacks worldWithoutA) ->
   planInterpretation (PQ := ListQueue qe_f) frozenClock 0 whereIsA worldWithoutA
   = Some (Ok [Some "It is in the claw."]))
  /\ (forall c s, getStackIndex (w_stacks worldWithoutA) (Some "a") = Some c ->
        JS.get (w_stacks worldWithoutA) c = Some s -> head s = Some "a" ->
        planInterpretation (PQ := ListQueue qe_f) frozenClock 0 whereIsA worldWithoutA
        = Some (Ok [Some ("It is in the " +:+ mapNumberToText c +:+ " stack on the floor.")])).
Proof.
  apply (where_answers (PQ := ListQueue qe_f) frozenClock 0 worldWithoutA
           (mkLiteral true "where" ["a"]) "a"); reflexivity.
Defined.

(** ** The interpreter's physical laws *)

Lemma form_cases (f : string) :
  f = "ball" \/ f = "box" \/ f = "pyramid" \/ f = "plank" \/ f = "brick"
  \/ (f <> "ball" /\ f <> "box" /\ f <> "pyramid" /\ f <> "plank" /\ f <> "brick").
Proof.
  destruct (decide (f = "ball")); [tauto |]. destruct (decide (f = "box")); [tauto |].
  destruct (decide (f = "pyramid")); [tauto |]. destruct (decide (f = "plank")); [tauto |].
  destruct (decide (f = "brick")); tauto.
Qed.

(** Decide every test of a form or size against a constant, given the
    facts at hand. *)
Ltac decide_tests :=
  repeat match goal with
    | |- context [bool_decide (?a = ?b)] =>
        first [ rewrite (bool_decide_eq_true_2 (a = b)) by congruence
              | rewrite (bool_decide_eq_false_2 (a = b)) by congruence ]
    | |- context [bool_decide (?a ≠ ?b)] =>
        first [ rewrite (bool_decide_eq_true_2 (a ≠ b)) by congruence
              | rewrite (bool_decide_eq_false_2 (a ≠ b)) by (intros ?; congruence) ]
    end.

(** The interpreter and the planner agree on what may lie on what: for two
    catalogued entities whose sizes are small or large, the second with a
    form that is not the empty text, [isValid] accepts
    "[x] ontop [y]" or "[x] inside [y]" exactly when [x] and [y] differ and
    the drop rules of [outgoingEdges] allow [x] to be dropped onto [y]. *)
Theorem isValid_agrees_with_drop_rules objects (x y : string) ox oy :
  objects !! x = Some ox -> objects !! y = Some oy -> x <> "floor" -> y <> "floor" ->
  size ox ∈ ["small"; "large"] -> size oy ∈ ["small"; "large"] -> form oy <> "" ->
  (isValid objects "ontop" (Some x) (Some y) = Ok true
   \/ isValid objects "inside" (Some x) (Some y) = Ok true)
  <-> x <> y
      /\ unsupported (Some (form oy)) (Some (size oy)) (Some (form ox)) (Some (size ox)) = false.
Proof.
  intros Hx Hy Hxf Hyf Hsx Hsy Hfy.
  unfold isValid, fieldUnlessFloor, object_of, keyOf, unsupported, JS.among, JS.truthy. simpl.
  destruct (decide (x = y)) as [Hxy | Hxy].
  { rewrite !(bool_decide_eq_true_2 (Some x = Some y)) by congruence.
    split; [intros [? | ?]; discriminate | intros (? & _); contradiction]. }
  rewrite !(bool_decide_eq_false_2 (Some x = Some y)) by congruence.
  rewrite !(bool_decide_eq_true_2 (Some x ≠ Some "floor")) by congruence.
  rewrite !(bool_decide_eq_true_2 (Some y ≠ Some "floor")) by congruence.
  rewrite !(bool_decide_eq_false_2 (Some y = Some "floor")) by congruence.
  rewrite !(bool_decide_eq_false_2 (Some x = Some "floor")) by congruence.
  simpl. rewrite Hx, Hy. simpl.
  destruct ox as [fx sx cx], oy as [fy sy cy]. simpl in *.
  assert (Hsx' : sx = "small" \/ sx = "large") by set_solver.
  assert (Hsy' : sy = "small" \/ sy = "large") by set_solver.
  clear Hsx Hsy Hx Hy.
  destruct Hsx' as [-> | ->], Hsy' as [-> | ->];
  destruct (form_cases fx) as [-> | [-> | [-> | [-> | [-> | (? & ? & ? & ? & ?)]]]]];
  destruct (form_cases fy) as [-> | [-> | [-> | [-> | [-> | (? & ? & ? & ? & ?)]]]]];
  simpl; decide_tests; simpl;
  (split;
     [intros [Hv | Hv]; first [discriminate Hv | (split; [assumption | reflexivity])]
     | intros (_ & Hv); first [discriminate Hv | left; reflexivity | right; reflexivity]]).
Qed.

Lemma isValid_agrees_with_drop_rules_witness :
  (isValid exampleObjects "ontop" (Some "a") (Some "b") = Ok true
   \/ isValid exampleObjects "inside" (Some "a") (Some "b") = Ok true)
  <-> "a" <> "b"
      /\ unsupported (Some "box") (Some "large") (Some "ball") (Some "small") = false.
Proof.
  apply (isValid_agrees_with_drop_rules exampleObjects "a" "b"
           (mkObject "ball" "small" "white") (mkObject "box" "large" "red"));
    first [reflexivity | discriminate | set_solver].
Defined.

(** ** The interpreter's helpers *)

Lemma foldl_snoc_each {X} (f : X -> list X) (group : list X) (r : list (list X)) :
  foldl (fun r x => r ++ [f x]) r group = r ++ (f <$> group).
Proof.
  revert r. induction group as [| x group IH]; intros r; simpl.
  - rewrite app_nil_r. reflexivity.
  - rewrite IH, <- app_assoc. reflexivity.
Qed.

Lemma bind_singleton {X Y} (f : X -> Y) (l : list X) : l ≫= (fun t => [f t]) = f <$> l.
Proof. induction l as [| t l IH]; simpl; [reflexivity | f_equal; exact IH]. Qed.

Lemma cartesian_helper_spec {X} (groups : list (list X)) (arr : list X) (r : list (list X)) :
  groups <> [] ->
  cartesian_helper groups arr r = r ++ ((arr ++.) <$> selections groups).
Proof.
  revert arr r. induction groups as [| group rest IH]; intros arr r Hne; [contradiction |].
  clear Hne. simpl. destruct rest as [| group' rest'].
  - rewrite foldl_snoc_each. f_equal.
    induction group as [| x group IHg]; simpl; [reflexivity |]. f_equal. exact IHg.
  - assert (Hrest : group' :: rest' <> []) by discriminate.
    generalize dependent (selections (group' :: rest')). intros sel IH.
    revert r. induction group as [| x group IHg]; intros r.
    + simpl. rewrite app_nil_r. reflexivity.
    + cbn [foldl]. rewrite IH by exact Hrest. rewrite IHg.
      rewrite <- app_assoc. f_equal.
      cbn [mbind list_bind]. rewrite fmap_app. f_equal.
      rewrite bind_singleton, <- list_fmap_compose.
      apply list_fmap_ext. intros i t Ht. simpl.
      rewrite <- app_assoc. reflexivity.
Qed.

Lemma elem_of_selections {X} (groups : list (list X)) (c : list X) :
  c ∈ selections groups <-> Forall2 (fun x group => x ∈ group) c groups.
Proof.
  revert c. induction groups as [| group rest IH]; intros c; simpl.
  - rewrite list_elem_of_singleton. split; [intros ->; constructor | intros Hc; inversion Hc; reflexivity].
  - rewrite list_elem_of_bind. split.
    + intros (x & Hc & Hx). apply list_elem_of_bind in Hc as (t & Hc & Ht).
      apply list_elem_of_singleton in Hc as ->. constructor; [exact Hx | apply IH, Ht].
    + intros Hc. inversion Hc as [| x g t gs Hx Ht]; subst.
      exists x. split; [| exact Hx]. apply list_elem_of_bind. exists t.
      split; [apply list_elem_of_singleton; reflexivity | apply IH, Ht].
Qed.

Lemma length_bind_const {X Y} (f : X -> list Y) (l : list X) (k : nat) :
  (forall x, length (f x) = k) -> length (l ≫= f) = (length l * k)%nat.
Proof.
  intros Hf. induction l as [| x l IH]; [reflexivity |].
  change ((x :: l) ≫= f) with (f x ++ (l ≫= f)).
  rewrite length_app, IH, Hf. reflexivity.
Qed.

Lemma length_selections {X} (groups : list (list X)) :
  length (selections groups) = foldr (fun group k => (length group * k)%nat) 1%nat groups.
Proof.
  induction groups as [| group rest IH]; [reflexivity |].
  change (selections (group :: rest))
    with (group ≫= fun x => selections rest ≫= fun t => [x :: t]).
  cbn [foldr]. rewrite <- IH. apply length_bind_const.
  intros x. rewrite bind_singleton, length_fmap. reflexivity.
Qed.

(** [cartesian] throws a [TypeError] on the empty array; on a non-empty
    array of groups it returns every way to choose one element from each
    group, each exactly as often as it arises, the number of combinations
    being the product of the group sizes. *)
Theorem cartesian_selections {X} :
  cartesian (@nil (list X)) = Throw TypeError
  /\ forall (group : list X) (rest : list (list X)),
       exists r, cartesian (group :: rest) = Ok r
                 /\ r = selections (group :: rest)
                 /\ (forall c, c ∈ r <-> Forall2 (fun x g => x ∈ g) c (group :: rest))
                 /\ length r = foldr (fun g k => (length g * k)%nat) 1%nat (group :: rest).
Proof.
  split; [reflexivity |]. intros group rest.
  exists (selections (group :: rest)). split; [| split; [reflexivity | split]].
  - unfold cartesian. rewrite cartesian_helper_spec by discriminate.
    simpl. f_equal. rewrite <- (list_fmap_id (_ ≫= _)) at 2.
    apply list_fmap_ext. intros i t Ht. reflexivity.
  - intros c. apply elem_of_selections.
  - apply length_selections.
Qed.
(** ** The entities that a description matches *)

Lemma matchingEntities_sublist objects psize pcolor pform existing results r :
  matchingEntities objects psize pcolor pform existing results = Ok r ->
  exists new, r = results ++ new /\ new `sublist_of` existing.
Proof.
  revert results. induction existing as [| e rest IH]; intros results; simpl.
  - intros [= <-]. exists []. rewrite app_nil_r. split; [reflexivity | constructor].
  - destruct (matchesAttributes objects psize pcolor pform e) as [[|] | err]; simpl;
      [| | discriminate].
    + intros Hr. apply IH in Hr as (new & -> & Hsub).
      exists (e :: new). rewrite <- app_assoc. split; [reflexivity |].
      apply sublist_skip. exact Hsub.
    + intros Hr. apply IH in Hr as (new & -> & Hsub).
      exists new. split; [reflexivity |]. apply sublist_cons. exact Hsub.
Qed.

Lemma relatedEntities_sublist state relation first second results r :
  relatedEntities state relation first second results = Ok r ->
  exists new, r = results ++ new /\ new `sublist_of` first.
Proof.
  revert results. induction first as [| e rest IH]; intros results; simpl.
  - intros [= <-]. exists []. rewrite app_nil_r. split; [reflexivity | constructor].
  - destruct (someRelated state relation e second) as [[|] | err]; simpl; [| | discriminate].
    + intros Hr. apply IH in Hr as (new & -> & Hsub).
      exists (e :: new). rewrite <- app_assoc. split; [reflexivity |].
      apply sublist_skip. exact Hsub.
    + intros Hr. apply IH in Hr as (new & -> & Hsub).
      exists new. split; [reflexivity |]. apply sublist_cons. exact Hsub.
Qed.

Lemma sublist_singleton {X} (l : list X) (x : X) : l `sublist_of` [x] -> l = [] \/ l = [x].
Proof.
  intros Hl. inversion Hl as [| y l1 l2 H12 | y l1 l2 H12]; subst.
  - apply sublist_nil_r in H12 as ->. right. reflexivity.
  - apply sublist_nil_r in H12 as ->. left. reflexivity.
Qed.

Lemma getEntities_exist_lemma state condition r :
  getEntities state condition = Ok r ->
  r = ["floor"] \/ r `sublist_of` existingEntities state.
Proof.
  revert r. induction condition as [psize pcolor pform | pobject IHo prelation pquantifier ptarget IHt];
    intros r; simpl.
  - case_bool_decide; [intros [= <-]; left; reflexivity |].
    intros Hr. apply matchingEntities_sublist in Hr as (new & -> & Hsub). right. exact Hsub.
  - destruct (getEntities state pobject) as [first | err]; simpl; [| discriminate].
    destruct (getEntities state ptarget) as [second | err]; simpl; [| discriminate].
    intros Hr. apply relatedEntities_sublist in Hr as (new & -> & Hsub). simpl.
    destruct (IHo first eq_refl) as [-> | Hfirst].
    + apply sublist_singleton in Hsub as [-> | ->];
        [right; apply sublist_nil_l | left; reflexivity].
    + right. etrans; eassumption.
Qed.

(** [getEntities] returns the floor alone or entities that exist, each at
    most as often and in the same order as the world lists them (its stacks
    from left to right and bottom to top, then the held entity); a relative
    clause only narrows what its head matches. *)
Theorem getEntities_exist state :
  (forall condition r, getEntities state condition = Ok r ->
     r = ["floor"] \/ r `sublist_of` existingEntities state)
  /\ (forall pobject prelation pquantifier ptarget r,
        getEntities state (RelativeObject pobject prelation pquantifier ptarget) = Ok r ->
        exists first, getEntities state pobject = Ok first /\ r `sublist_of` first).
Proof.
  split; [intros condition r; apply getEntities_exist_lemma |].
  intros pobject prelation pquantifier ptarget r. simpl.
  destruct (getEntities state pobject) as [first | err]; simpl; [| discriminate].
  destruct (getEntities state ptarget) as [second | err]; simpl; [| discriminate].
  intros Hr. apply relatedEntities_sublist in Hr as (new & -> & Hsub).
  exists first. split; [reflexivity | exact Hsub].
Qed.

(** ** The interpreter's commands *)

Lemma forEach_inv {A S} (I : S -> Prop) (f : S -> A -> result S) (a : list A) (s r : S) :
  I s -> (forall s x s', x ∈ a -> I s -> f s x = Ok s' -> I s') ->
  forEach f a s = Ok r -> I r.
Proof.
  revert s. induction a as [| x rest IH]; intros s Hs Hf; simpl.
  - intros [= <-]. exact Hs.
  - destruct (f s x) as [s' | err] eqn:E; simpl; [| discriminate].
    apply IH.
    + apply (Hf s x s'); [left | exact Hs | exact E].
    + intros s0 y s0' Hy. apply Hf. right. exact Hy.
Qed.

Lemma filterR_sublist {A} (f : A -> result bool) (a r : list A) :
  filterR f a = Ok r -> r `sublist_of` a.
Proof.
  revert r. induction a as [| x rest IH]; intros r; simpl.
  - intros [= <-]. constructor.
  - destruct (f x) as [b | err]; simpl; [| discriminate].
    destruct (filterR f rest) as [r' | err]; simpl; [| discriminate].
    intros [= <-]. destruct b; [apply sublist_skip | apply sublist_cons]; apply IH; reflexivity.
Qed.

Lemma Forall_sublist {A} (P : A -> Prop) (l k : list A) :
  l `sublist_of` k -> Forall P k -> Forall P l.
Proof.
  intros Hs Hk. apply Forall_forall. intros x Hx.
  rewrite Forall_forall in Hk. apply Hk. exact (elem_of_sublist _ _ _ Hx Hs).
Qed.

Lemma validLiteral_positive objects relation _first target :
  isValid objects relation (Some _first) target = Ok true ->
  validLiteral objects (positiveLiteral relation _first target).
Proof. intros Hv. unfold validLiteral, positiveLiteral. simpl. destruct target; exact Hv. Qed.

Lemma insertByIndex_inv {X} (Q : X -> Prop) (k : N) (v : X) (l : list (N * X)) :
  Forall (fun kv => Q kv.2) l -> Q v -> Forall (fun kv => Q kv.2) (insertByIndex k v l).
Proof.
  intros Hl Hv. induction l as [| [k' v'] rest IH]; simpl.
  - apply Forall_singleton. exact Hv.
  - apply Forall_cons in Hl as [Hk Hrest]. case_bool_decide.
    + apply Forall_cons. split; [exact Hv |]. apply Forall_cons. split; assumption.
    + apply Forall_cons. split; [exact Hk | apply IH, Hrest].
Qed.

Lemma forInValues_inv {X} (Q : X -> Prop) (object : list (string * X)) :
  Forall (fun kv => Q kv.2) object -> Forall Q (forInValues object).
Proof.
  intros Ho. unfold forInValues. apply Forall_app. split; apply Forall_fmap.
  - induction object as [| [k v] rest IH]; simpl; [constructor |].
    apply Forall_cons in Ho as [Hv Hrest]. specialize (IH Hrest).
    destruct (arrayIndex k); [apply insertByIndex_inv |]; assumption.
  - apply (Forall_sublist _ _ object); [apply sublist_filter | exact Ho].
Qed.

Lemma cartesian_inv {X} (Q : X -> Prop) (arg r : list (list X)) :
  Forall (Forall Q) arg -> cartesian arg = Ok r -> Forall (fun c => c <> [] /\ Forall Q c) r.
Proof.
  intros Ha. unfold cartesian. destruct arg as [| group rest]; [discriminate |].
  intros Hr. assert (Hr' : cartesian_helper (group :: rest) [] [] = r) by congruence.
  clear Hr. subst r. rewrite cartesian_helper_spec by discriminate.
  remember (group :: rest) as groups.
  assert (Hne : groups <> []) by (subst groups; discriminate). clear Heqgroups.
  rewrite app_nil_l. apply Forall_fmap, Forall_forall. intros c Hc. simpl.
  apply elem_of_selections in Hc. split.
  { destruct Hc; [contradiction | discriminate]. }
  clear Hne. revert Ha. induction Hc as [| x g c gs Hx _ IH]; intros Hg; [constructor |].
  apply Forall_cons in Hg as [Hg Hgs]. apply Forall_cons. split; [| apply IH, Hgs].
  rewrite Forall_forall in Hg. apply Hg, Hx.
Qed.

Lemma returnOrThrow_Some interpretations f :
  returnOrThrow interpretations = Ok (Some f) -> f = interpretations /\ f <> [].
Proof.
  unfold returnOrThrow. case_bool_decide as Hlen; [| discriminate].
  intros [= <-]. split; [reflexivity |]. intros ->. unfold JS.length in Hlen. simpl in Hlen. lia.
Qed.

Section ValidInterpretations.
Variable state : WorldState.

Lemma valid_singleton relation _first target :
  isValid (w_objects state) relation (Some _first) target = Ok true ->
  validConjunction state [positiveLiteral relation _first target].
Proof.
  intros Hv. split; [discriminate |]. apply Forall_singleton, validLiteral_positive, Hv.
Qed.

Lemma valid_snoc c relation _first target :
  validConjunction state c ->
  isValid (w_objects state) relation (Some _first) target = Ok true ->
  validConjunction state (c ++ [positiveLiteral relation _first target]).
Proof.
  intros [_ Hc] Hv. split; [intros Hnil; apply app_eq_nil in Hnil as [_ Hnil]; discriminate |].
  apply Forall_app. split; [exact Hc | apply Forall_singleton, validLiteral_positive, Hv].
Qed.

Lemma pairInterpretations_inv relation first second f :
  pairInterpretations state relation first second = Ok f ->
  Forall (validConjunction state) f.
Proof.
  unfold pairInterpretations.
  apply (forEach_inv (Forall (validConjunction state))); [constructor |].
  intros f1 _first f1' _ Hf1.
  apply (forEach_inv (Forall (validConjunction state))); [exact Hf1 |].
  intros f2 _second f2' _ Hf2.
  destruct (isValid (w_objects state) relation (Some _first) (Some _second)) as [[|] | err] eqn:E;
    simpl; [| intros [= <-]; exact Hf2 | discriminate].
  intros [= <-]. apply Forall_app. split; [exact Hf2 |].
  apply Forall_singleton, valid_singleton, E.
Qed.

Lemma extendWithFirst_inv entity relation interpretation first acc acc' :
  validConjunction state interpretation ->
  validConjunction state acc.1 -> Forall (validConjunction state) acc.2 ->
  extendWithFirst state entity relation interpretation first acc = Ok acc' ->
  validConjunction state acc'.1 /\ Forall (validConjunction state) acc'.2.
Proof.
  intros Hi H1 H2. unfold extendWithFirst.
  apply (forEach_inv (fun acc => validConjunction state acc.1
                                /\ Forall (validConjunction state) acc.2));
    [split; assumption |].
  intros [c f] _first [c' f'] _ [Hc Hf]. simpl in Hc, Hf.
  destruct entity as [e |]; simpl; [| discriminate].
  destruct (last interpretation) as [lastCondition |]; simpl; [| discriminate].
  destruct (isValid (w_objects state) relation (Some _first) (args lastCondition !! 0%nat))
    as [[|] | err] eqn:E; simpl; [| | discriminate].
  - destruct (bool_decide (ent_quantifier e = "all")); simpl; intros [= <- <-]; simpl; split;
      try assumption.
    + apply valid_snoc; assumption.
    + apply Forall_app. split; [exact Hf |]. apply Forall_singleton, valid_snoc; assumption.
  - destruct (bool_decide (ent_quantifier e = "all")); simpl; intros [= <- <-]; simpl; split;
      assumption.
Qed.

Lemma extendInterpretations_inv entity relation first nested f :
  Forall (validConjunction state) nested ->
  extendInterpretations state entity relation first nested = Ok f ->
  Forall (validConjunction state) f.
Proof.
  intros Hn. unfold extendInterpretations.
  apply (forEach_inv (Forall (validConjunction state))); [constructor |].
  intros f1 interpretation f1' Hin Hf1.
  assert (Hi : validConjunction state interpretation)
    by (rewrite Forall_forall in Hn; apply Hn, Hin).
  cbv beta.
  destruct (extendWithFirst _ _ _ _ _ _)
    as [[c f2] | err] eqn:E; simpl; [| discriminate].
  apply extendWithFirst_inv in E as [Hc Hf2]; [| assumption ..]. simpl in Hc, Hf2.
  destruct entity as [e |]; simpl; [| discriminate].
  destruct (bool_decide (ent_quantifier e = "all")); simpl; intros [= <-]; [| exact Hf2].
  apply Forall_app. split; [exact Hf2 | apply Forall_singleton, Hc].
Qed.

Lemma pushOwn_inv groups entity condition :
  Forall (fun kv : string * list Literal => Forall (validLiteral (w_objects state)) kv.2) groups ->
  validLiteral (w_objects state) condition ->
  Forall (fun kv : string * list Literal => Forall (validLiteral (w_objects state)) kv.2)
    (pushOwn groups entity condition).
Proof.
  intros Hg Hc. induction groups as [| [key conditions] rest IH]; simpl.
  - apply Forall_singleton. simpl. apply Forall_singleton, Hc.
  - apply Forall_cons in Hg as [Hk Hrest]. simpl in Hk. case_bool_decide.
    + apply Forall_cons. split; [| exact Hrest]. simpl.
      apply Forall_app. split; [exact Hk | apply Forall_singleton, Hc].
    + apply Forall_cons. split; [exact Hk | apply IH, Hrest].
Qed.

Lemma groupConditionsByEntity_inv fromQuantifier interpretations groups :
  Forall (validConjunction state) interpretations ->
  groupConditionsByEntity fromQuantifier interpretations = Ok groups ->
  Forall (fun kv : string * list Literal => Forall (validLiteral (w_objects state)) kv.2) groups.
Proof.
  intros Hi. unfold groupConditionsByEntity.
  apply (forEach_inv
           (Forall (fun kv : string * list Literal =>
                      Forall (validLiteral (w_objects state)) kv.2))); [constructor |].
  intros g interpretation g' Hin Hg. cbv beta.
  destruct (interpretation !! 0%nat) as [condition |] eqn:E; simpl; [| discriminate].
  unfold groupPush. destruct (JS.inherited _); [discriminate |].
  intros [= <-]. apply pushOwn_inv; [exact Hg |].
  rewrite Forall_forall in Hi. destruct (Hi _ Hin) as [_ Hall]. rewrite Forall_forall in Hall.
  apply Hall. eapply list_elem_of_lookup_2, E.
Qed.

Lemma valid_concat interpretations :
  interpretations <> [] -> Forall (validConjunction state) interpretations ->
  validConjunction state (concat interpretations).
Proof.
  intros Hne Hi. split.
  - destruct interpretations as [| c rest]; [contradiction |].
    apply Forall_cons in Hi as [[Hc _] _]. simpl. intros Hnil.
    apply app_eq_nil in Hnil as [Hnil _]. contradiction.
  - apply Forall_concat. eapply Forall_impl; [exact Hi |]. intros c [_ Hc]. exact Hc.
Qed.

Lemma allQuantifierValidator_inv interpretations relation fromQuantifier toQuantifier f :
  interpretations <> [] -> Forall (validConjunction state) interpretations ->
  allQuantifierValidator interpretations (w_objects state) relation fromQuantifier toQuantifier
    = Ok f ->
  Forall (validConjunction state) f.
Proof.
  intros Hne Hi. unfold allQuantifierValidator.
  destruct (bool_decide (fromQuantifier = "all") && bool_decide (toQuantifier = "all")).
  - assert (Hc : Forall (validConjunction state) [concat interpretations]).
    { apply Forall_singleton, valid_concat; assumption. }
    destruct (JS.among (Some relation) ["above"; "under"]); [| intros [= <-]; exact Hc].
    destruct (ballsSeen _ _ _) as [seen | err]; simpl; [| discriminate].
    case_bool_decide; intros [= <-]; [constructor | exact Hc].
  - destruct (groupConditionsByEntity fromQuantifier interpretations) as [groups | err] eqn:E;
      simpl; [| discriminate].
    apply groupConditionsByEntity_inv in E; [| exact Hi].
    destruct (cartesian (forInValues groups)) as [combinations | err] eqn:Ec; simpl;
      [| discriminate].
    intros Hf. apply filterR_sublist in Hf. apply (Forall_sublist _ _ _ Hf).
    apply (cartesian_inv _ _ _ (forInValues_inv _ _ E) Ec).
Qed.

Lemma allQuantifierTreatment_inv relation fromQuantifier toQuantifier doRecursion first second
    interpretations f :
  Forall (validConjunction state) interpretations ->
  allQuantifierTreatment state relation fromQuantifier toQuantifier doRecursion first second
    interpretations = Ok f ->
  Forall (validConjunction state) f.
Proof.
  intros Hi. unfold allQuantifierTreatment.
  match goal with |- (?m ≫= _) = _ -> _ => destruct m as [f1 | err] eqn:E1 end; simpl;
    [| discriminate].
  assert (H1 : Forall (validConjunction state) f1).
  { revert E1. destruct doRecursion; simpl; [intros [= <-]; exact Hi |].
    case_bool_decide as Hlen; [| intros [= <-]; exact Hi].
    apply allQuantifierValidator_inv; [| exact Hi].
    intros ->. unfold JS.length in Hlen. simpl in Hlen. lia. }
  clear E1.
  match goal with |- (?m ≫= _) = _ -> _ => destruct m as [f2 | err] eqn:E2 end; simpl;
    [| discriminate].
  assert (H2 : Forall (validConjunction state) f2).
  { revert E2.
    repeat first [case_bool_decide | destruct (JS.among _ _)
                 | destruct second; cbn [defined mbind result_bind]];
      simpl; first [discriminate | intros [= <-]; first [exact H1 | constructor]]. }
  clear E2.
  match goal with |- (?m ≫= _) = _ -> _ => destruct m as [f3 | err] eqn:E3 end; simpl;
    [| discriminate].
  apply filterR_sublist in E3. intros [= <-].
  apply (Forall_sublist _ _ f3); [apply sublist_filter |].
  exact (Forall_sublist _ _ _ E3 H2).
Qed.

Lemma finishMoveOrPut_inv command entity relation toQuantifier doRecursion first second
    interpretations f :
  Forall (validConjunction state) interpretations ->
  finishMoveOrPut state command entity relation toQuantifier doRecursion first second
    interpretations = Ok (Some f) ->
  f <> [] /\ Forall (validConjunction state) f.
Proof.
  intros Hi. unfold finishMoveOrPut.
  match goal with |- (?m ≫= _) = _ -> _ => destruct m as [[|] | err] end; simpl;
    [| | discriminate].
  - destruct entity as [e |]; simpl; [| discriminate].
    destruct (allQuantifierTreatment _ _ _ _ _ _ _ _) as [f1 | err] eqn:E1; simpl;
      [| discriminate].
    apply allQuantifierTreatment_inv in E1; [| exact Hi].
    intros Hr. apply returnOrThrow_Some in Hr as [-> Hne]. split; assumption.
  - intros Hr. apply returnOrThrow_Some in Hr as [-> Hne]. split; assumption.
Qed.

Lemma interpretMoveOrPut_inv command entity relation toQuantifier object f :
  interpretMoveOrPut state command entity relation toQuantifier object = Ok (Some f) ->
  f <> [] /\ Forall (validConjunction state) f.
Proof.
  revert command entity relation toQuantifier f.
  induction object as [psize pcolor pform | pobject _ prelation pquantifier ptarget IH];
    intros command entity relation toQuantifier f.
  - simpl.
    match goal with |- (?m ≫= _) = _ -> _ => destruct m as [first | err] end; simpl;
      [| discriminate].
    match goal with |- (?m ≫= _) = _ -> _ => destruct m as [second | err] end; simpl;
      [| discriminate].
    destruct (pairInterpretations _ _ _ _) as [f1 | err] eqn:E1; simpl; [| discriminate].
    apply finishMoveOrPut_inv. exact (pairInterpretations_inv _ _ _ _ E1).
  - cbn [interpretMoveOrPut].
    match goal with |- (?m ≫= _) = _ -> _ => destruct m as [first | err] end; simpl;
      [| discriminate].
    case_bool_decide.
    + destruct (interpretMoveOrPut state "move" _ prelation pquantifier ptarget)
        as [[nested |] | err] eqn:En; simpl; [| discriminate ..].
      apply IH in En as [_ En].
      destruct (extendInterpretations _ _ _ _ _) as [f1 | err] eqn:E1; simpl; [| discriminate].
      apply finishMoveOrPut_inv. exact (extendInterpretations_inv _ _ _ _ _ En E1).
    + match goal with |- (?m ≫= _) = _ -> _ => destruct m as [second | err] end; simpl;
        [| discriminate].
      destruct (pairInterpretations _ _ _ _) as [f1 | err] eqn:E1; simpl; [| discriminate].
      apply finishMoveOrPut_inv. exact (pairInterpretations_inv _ _ _ _ E1).
Qed.

End ValidInterpretations.

(** Whatever [interpretCommand] returns has a conjunction, and each of its
    conjunctions has a literal (so the planner's read of
    [interpretation[0][0]] finds one); for [move] and [put], [isValid]
    accepts every literal of the formula, those that the recursion on a
    nested location added included. *)
Theorem interpretCommand_returns_valid state cmd f :
  interpretCommand state cmd = Ok (Some f) ->
  f <> []
  /\ Forall (fun c => c <> []) f
  /\ (cmd_command cmd = "move" \/ cmd_command cmd = "put" ->
      forall c l, c ∈ f -> l ∈ c ->
        isValid (w_objects state) (relation l) (args l !! 0%nat) (args l !! 1%nat) = Ok true).
Proof.
  unfold interpretCommand. case_bool_decide as Hw.
  { destruct (cmd_entity cmd) as [e |]; simpl; [| discriminate].
    destruct (getEntities state (ent_object e)) as [entities | err]; simpl; [| discriminate].
    intros Hr. apply returnOrThrow_Some in Hr as [-> Hne]. split; [exact Hne |]. split.
    - apply Forall_fmap, Forall_forall. intros x _. discriminate.
    - intros [Hc | Hc]; rewrite Hc in Hw; discriminate. }
  destruct (bool_decide (cmd_command cmd = "drop") && JS.truthy (w_holding state)) eqn:Hd.
  { intros Hr. apply returnOrThrow_Some in Hr as [-> Hne]. split; [exact Hne |]. split.
    - apply Forall_singleton. discriminate.
    - apply andb_prop in Hd as [Hd _]. apply bool_decide_eq_true_1 in Hd.
      intros [Hc | Hc]; rewrite Hc in Hd; discriminate. }
  clear Hd. case_bool_decide as Ht.
  { destruct (cmd_entity cmd) as [e |]; simpl; [| discriminate].
    destruct (getEntities state (ent_object e)) as [entities | err]; simpl; [| discriminate].
    assert (Hno : cmd_command cmd = "move" \/ cmd_command cmd = "put" -> False)
      by (intros [Hc | Hc]; rewrite Hc in Ht; discriminate).
    repeat case_bool_decide; intros Hr; apply returnOrThrow_Some in Hr as [-> Hne];
      (split; [exact Hne |]); (split; [| intros Hc; destruct (Hno Hc)]).
    - apply Forall_fmap, Forall_forall. intros x _. discriminate.
    - apply Forall_singleton. discriminate.
    - constructor. }
  destruct (JS.among (Some (cmd_command cmd)) ["move"; "put"]).
  - destruct (cmd_location cmd) as [location |]; simpl; [| discriminate].
    intros Hr. apply interpretMoveOrPut_inv in Hr as [Hne Hvalid].
    rewrite Forall_forall in Hvalid. split; [exact Hne |]. split.
    + apply Forall_forall. intros c Hc. apply (Hvalid c Hc).
    + intros _ c l Hc Hl. destruct (Hvalid c Hc) as [_ Hall].
      rewrite Forall_forall in Hall. apply (Hall l Hl).
  - intros Hr. apply returnOrThrow_Some in Hr as [-> Hne]. destruct (Hne eq_refl).
Qed.

Lemma interpretCommand_returns_valid_witness :
  interpretCommand threeColumns moveABallInsideABox
  = Ok (Some [[mkLiteral true "inside" ["a"; "b"]]; [mkLiteral true "inside" ["a"; "c"]]])
  /\ [[mkLiteral true "inside" ["a"; "b"]]; [mkLiteral true "inside" ["a"; "c"]]] <> []
  /\ Forall (fun c => c <> [])
       [[mkLiteral true "inside" ["a"; "b"]]; [mkLiteral true "inside" ["a"; "c"]]]
  /\ (cmd_command moveABallInsideABox = "move" \/ cmd_command moveABallInsideABox = "put" ->
      forall c l,
        c ∈ [[mkLiteral true "inside" ["a"; "b"]]; [mkLiteral true "inside" ["a"; "c"]]] ->
        l ∈ c ->
        isValid (w_objects threeColumns) (relation l) (args l !! 0%nat) (args l !! 1%nat)
        = Ok true).
Proof.
  split; [vm_compute; reflexivity |].
  apply (interpretCommand_returns_valid threeColumns moveABallInsideABox).
  vm_compute. reflexivity.
Defined.

(** ** The errors of the interpreter *)

Lemma oT_Throw {A} : only_TypeError (@Throw A TypeError).
Proof. intros e [= <-]. reflexivity. Qed.

Lemma oT_forEach {A S} (f : S -> A -> result S) (a : list A) (s : S) :
  (forall s x, only_TypeError (f s x)) -> only_TypeError (forEach f a s).
Proof.
  intros Hf. revert s. induction a as [| x rest IH]; intros s; simpl; [apply oT_Ok |].
  apply oT_bind; [apply Hf | apply IH].
Qed.

Lemma oT_filterR {A} (f : A -> result bool) (a : list A) :
  (forall x, only_TypeError (f x)) -> only_TypeError (filterR f a).
Proof.
  intros Hf. induction a as [| x rest IH]; simpl; [apply oT_Ok |].
  apply oT_bind; [apply Hf |]. intros b. apply oT_bind; [apply IH |]. intros r. apply oT_Ok.
Qed.

Lemma oT_isValid objects relation first second :
  only_TypeError (isValid objects relation first second).
Proof. unfold isValid, fieldUnlessFloor, object_of. only_TypeError_tac. Qed.

Lemma oT_getEntities state condition : only_TypeError (getEntities state condition).
Proof.
  assert (Hmatch : forall psize pcolor pform existing results,
            only_TypeError (matchingEntities (w_objects state) psize pcolor pform existing
                              results)).
  { intros psize pcolor pform existing.
    induction existing as [| e rest IH]; intros results; simpl; [apply oT_Ok |].
    apply oT_bind; [| intros b; apply IH].
    unfold matchesAttributes, object_of. only_TypeError_tac. }
  assert (Hholds : forall relation _first _second,
            only_TypeError (relationHolds state relation _first _second)).
  { intros relation _first _second. unfold relationHolds, object_of. only_TypeError_tac. }
  assert (Hsome : forall relation _first second,
            only_TypeError (someRelated state relation _first second)).
  { intros relation _first second. induction second as [| s rest IH]; simpl; [apply oT_Ok |].
    apply oT_bind; [apply Hholds |]. intros [|]; [apply oT_Ok | apply IH]. }
  assert (Hrelated : forall relation first second results,
            only_TypeError (relatedEntities state relation first second results)).
  { intros relation first second.
    induction first as [| e rest IH]; intros results; simpl; [apply oT_Ok |].
    apply oT_bind; [apply Hsome | intros b; apply IH]. }
  induction condition as [psize pcolor pform | pobject IHo prelation pquantifier ptarget IHt];
    simpl.
  - case_bool_decide; [apply oT_Ok | apply Hmatch].
  - apply oT_bind; [exact IHo |]. intros first.
    apply oT_bind; [exact IHt |]. intros second. apply Hrelated.
Qed.

Lemma oT_allQuantifierValidator interpretations objects relation fromQuantifier toQuantifier :
  only_TypeError
    (allQuantifierValidator interpretations objects relation fromQuantifier toQuantifier).
Proof.
  assert (Hballs : forall seen combination,
            only_TypeError (ballsShareTarget objects seen combination)).
  { intros seen combination. revert seen.
    induction combination as [| c rest IH]; intros seen; simpl; [apply oT_Ok |].
    unfold object_of. apply oT_bind; [apply oT_defined |]. intros o.
    destruct (_ && _); [apply oT_Ok | apply IH]. }
  unfold allQuantifierValidator, ballsSeen, groupConditionsByEntity, cartesian.
  destruct (_ && _).
  - destruct (JS.among _ _); [| apply oT_Ok].
    apply oT_bind; [| intros seen; case_bool_decide; apply oT_Ok].
    apply oT_forEach. intros seen c. unfold object_of. only_TypeError_tac.
  - apply oT_bind.
    { apply oT_forEach. intros groups c. unfold groupPush.
      apply oT_bind; [apply oT_defined |]. intros condition.
      destruct (JS.inherited _); [apply oT_Throw | apply oT_Ok]. }
    intros groups. apply oT_bind.
    { destruct (forInValues groups); [apply oT_Throw | apply oT_Ok]. }
    intros combinations. apply oT_filterR. intros c. unfold validCombination.
    repeat first [apply Hballs | only_TypeError_step].
Qed.

Lemma oT_extendInterpretations state entity relation first nested :
  only_TypeError (extendInterpretations state entity relation first nested).
Proof.
  unfold extendInterpretations. apply oT_forEach. intros f interpretation.
  apply oT_bind.
  { unfold extendWithFirst. apply oT_forEach. intros [c f'] _first.
    repeat first [apply oT_isValid | only_TypeError_step]. }
  intros [c f']. only_TypeError_tac.
Qed.

Lemma oT_finishMoveOrPut state command entity relation toQuantifier doRecursion first second
    interpretations :
  only_TypeError (finishMoveOrPut state command entity relation toQuantifier doRecursion
                    first second interpretations).
Proof.
  assert (Hreturn : forall f, only_TypeError (returnOrThrow f)).
  { intros f. unfold returnOrThrow. case_bool_decide; apply oT_Ok. }
  unfold finishMoveOrPut. apply oT_bind; [only_TypeError_tac |]. intros [|]; [| apply Hreturn].
  apply oT_bind; [apply oT_defined |]. intros e.
  apply oT_bind; [| intros f; apply Hreturn].
  unfold allQuantifierTreatment.
  apply oT_bind.
  { destruct (_ && _); [apply oT_allQuantifierValidator | apply oT_Ok]. }
  intros f1. apply oT_bind; [only_TypeError_tac |].
  intros f2. apply oT_bind; [| intros f3; apply oT_Ok].
  apply oT_filterR. intros c. apply oT_bind; [apply oT_defined |]. intros s.
  destruct (unmatched first s c). apply oT_Ok.
Qed.

Lemma oT_interpretMoveOrPut state command entity relation toQuantifier object :
  only_TypeError (interpretMoveOrPut state command entity relation toQuantifier object).
Proof.
  assert (Hpair : forall relation first second,
            only_TypeError (pairInterpretations state relation first second)).
  { intros rel first second. unfold pairInterpretations.
    apply oT_forEach. intros f _first. apply oT_forEach. intros f' _second.
    apply oT_bind; [apply oT_isValid |]. intros b. apply oT_Ok. }
  assert (Hfirst : forall command entity,
            only_TypeError (if bool_decide (command = "move")
                            then e ← defined entity; getEntities state (ent_object e)
                            else Ok (option_list (w_holding state)))).
  { intros c e. case_bool_decide; [| apply oT_Ok].
    apply oT_bind; [apply oT_defined |]. intros e'. apply oT_getEntities. }
  revert command entity relation toQuantifier.
  induction object as [psize pcolor pform | pobject _ prelation pquantifier ptarget IH];
    intros command entity relation toQuantifier.
  - simpl. apply oT_bind; [apply Hfirst |]. intros first.
    apply oT_bind; [apply (oT_getEntities state (SimpleObject psize pcolor pform)) |].
    intros second. apply oT_bind; [apply Hpair |]. intros f. apply oT_finishMoveOrPut.
  - cbn [interpretMoveOrPut]. apply oT_bind; [apply Hfirst |]. intros first.
    case_bool_decide.
    + apply oT_bind; [apply IH |]. intros [nested |]; [| apply oT_Ok].
      apply oT_bind; [apply oT_extendInterpretations |]. intros f. apply oT_finishMoveOrPut.
    + apply oT_bind;
        [apply (oT_getEntities state (RelativeObject pobject prelation pquantifier ptarget)) |].
      intros second. apply oT_bind; [apply Hpair |]. intros f. apply oT_finishMoveOrPut.
Qed.

Lemma not_returned {A} (m : result (option A)) :
  only_TypeError m -> (forall a, m <> Ok (Some a)) -> m = Ok None \/ m = Throw TypeError.
Proof.
  intros Hm Hno. destruct m as [[a |] | e].
  - destruct (Hno a eq_refl).
  - left. reflexivity.
  - right. rewrite (Hm e eq_refl). reflexivity.
Qed.

Lemma extendInterpretations_without_entity state relation first nested f :
  extendInterpretations state None relation first nested = Ok f -> f = [].
Proof.
  unfold extendInterpretations. destruct nested as [| interpretation rest]; simpl.
  - intros [= <-]. reflexivity.
  - destruct (extendWithFirst _ _ _ _ _ _) as [[c f'] | err]; simpl; discriminate.
Qed.

Lemma filterR_throws {A} (a r : list A) : filterR (fun _ => Throw TypeError) a = Ok r -> r = [].
Proof. destruct a; simpl; [intros [= <-]; reflexivity | discriminate]. Qed.

Lemma nested_location_not_returned state command entity relation pobject prelation
    pquantifier ptarget f :
  (command = "put" /\ entity = None)
  \/ (command = "move" /\ exists e, entity = Some e /\ ent_quantifier e = "all") ->
  interpretMoveOrPut state command entity relation "any"
    (RelativeObject pobject prelation pquantifier ptarget) <> Ok (Some f).
Proof.
  intros Hcmd. cbn [interpretMoveOrPut].
  match goal with |- (?m ≫= _) <> _ => destruct m as [first | err] end; simpl;
    [| discriminate].
  destruct (interpretMoveOrPut state "move" _ prelation pquantifier ptarget)
    as [[nested |] | err]; simpl; [| discriminate ..].
  destruct (extendInterpretations _ _ _ _ _) as [f1 | err] eqn:E1; simpl; [| discriminate].
  destruct Hcmd as [[Hc He] | [Hc (e & He & Hall)]]; rewrite Hc, He in *.
  - apply extendInterpretations_without_entity in E1 as ->. discriminate.
  - unfold finishMoveOrPut, allQuantifierTreatment. simpl. rewrite Hall. simpl.
    destruct (JS.among (Some relation) ["inside"; "ontop"]); simpl; [discriminate |].
    destruct (filterR _ f1) as [f3 | err] eqn:E3; simpl; [| discriminate].
    apply filterR_throws in E3 as ->. discriminate.
Qed.

(** A location whose object is itself described by a location
    ("... inside a box on the floor"), taken with the quantifier [any], makes
    the interpreter build what is missing.  That works for [move] with one
    entity only: for [put], which has no [entity], and for [move] with the
    quantifier [all], [interpretCommand] returns no formula, whatever the
    world: it throws the text or a [TypeError]. *)
Theorem nested_location_rejects_put_and_all state cmd location pobject prelation pquantifier
    ptarget :
  cmd_location cmd = Some location ->
  ent_quantifier (loc_entity location) = "any" ->
  ent_object (loc_entity location) = RelativeObject pobject prelation pquantifier ptarget ->
  (cmd_command cmd = "put" /\ cmd_entity cmd = None)
  \/ (cmd_command cmd = "move"
      /\ exists e, cmd_entity cmd = Some e /\ ent_quantifier e = "all") ->
  interpretCommand state cmd = Ok None \/ interpretCommand state cmd = Throw TypeError.
Proof.
  intros Hloc Hany Hobj Hcmd.
  assert (Heq : interpretCommand state cmd
                = interpretMoveOrPut state (cmd_command cmd) (cmd_entity cmd)
                    (loc_relation location) "any"
                    (RelativeObject pobject prelation pquantifier ptarget)).
  { unfold interpretCommand. rewrite Hloc.
    destruct Hcmd as [[-> _] | [-> _]]; cbn [defined mbind result_bind];
      rewrite Hany, Hobj; reflexivity. }
  rewrite Heq. apply not_returned; [apply oT_interpretMoveOrPut |].
  intros f. apply nested_location_not_returned. exact Hcmd.
Qed.

Lemma nested_location_rejects_put_and_all_witness :
  interpretCommand threeColumns putItInsideABoxOnTheFloor = Ok None
  \/ interpretCommand threeColumns putItInsideABoxOnTheFloor = Throw TypeError.
Proof.
  apply (nested_location_rejects_put_and_all threeColumns putItInsideABoxOnTheFloor
           (mkLocation "inside" (mkEntity "any" aBoxOnTheFloor))
           (SimpleObject None None "box") "ontop" "any" (SimpleObject None None "floor"));
    [reflexivity | reflexivity | reflexivity | left; split; reflexivity].
Defined.

(** ** interpret *)

Lemma interpret_loop_spec parses state errors interpretations :
  interpret_loop parses state errors interpretations
  = (errors ++ omap (thrownBy state) parses, interpretations ++ omap (accepted state) parses).
Proof.
  revert errors interpretations.
  induction parses as [| p rest IH]; intros errors interpretations; simpl.
  - rewrite !app_nil_r. reflexivity.
  - unfold thrownBy at 1, accepted at 1.
    destruct (interpretCommand state (parse p)) as [[formula |] | err]; rewrite IH;
      rewrite <- ?app_assoc; reflexivity.
Qed.

(** [interpret] returns the interpretations of the parses that
    [interpretCommand] accepts, in the order of the parses, and drops what
    the others threw; when no parse is accepted it throws what the first one
    threw ([undefined] when there is no parse at all). *)
Theorem interpret_keeps_accepted_parses parses state :
  interpret parses state
  = match omap (accepted state) parses with
    | [] => inr (head (omap (thrownBy state) parses))
    | _ :: _ => inl (omap (accepted state) parses)
    end.
Proof.
  unfold interpret. rewrite interpret_loop_spec. simpl.
  destruct (omap (accepted state) parses) as [| r rs]; simpl.
  - destruct (omap (thrownBy state) parses); reflexivity.
  - reflexivity.
Qed.

(** ** The quantifier [all] *)

Lemma indexOf_from_middle (l1 l2 : list string) (x : string) (i : Z) :
  x ∉ l1 -> JS.indexOf_from (l1 ++ x :: l2) x i = i + Z.of_nat (length l1).
Proof.
  revert i. induction l1 as [| y l1 IH]; intros i Hx; simpl.
  - rewrite bool_decide_eq_true_2 by reflexivity. lia.
  - apply not_elem_of_cons in Hx as [Hxy Hx].
    rewrite bool_decide_eq_false_2 by congruence. rewrite IH by exact Hx. lia.
Qed.

Lemma splice1_middle {A} (l1 l2 : list A) (x : A) :
  JS.splice1 (l1 ++ x :: l2) (Z.of_nat (length l1)) = l1 ++ l2.
Proof.
  unfold JS.splice1, JS.splice_start, JS.length.
  rewrite bool_decide_eq_false_2 by lia. rewrite length_app. simpl.
  replace (Z.to_nat (Z.min (Z.of_nat (length l1)) (Z.of_nat (length l1 + S (length l2)))))
    with (length l1) by lia.
  rewrite take_app_length. f_equal.
  rewrite (cons_middle x l1 l2), app_assoc.
  replace (S (length l1)) with (length (l1 ++ [x])) by (rewrite length_app; simpl; lia).
  apply drop_app_length.
Qed.

(** Removing the first occurrence of each of [ks] in turn, as the loop of
    the "all" check does, empties an array only if [ks] are its elements. *)
Lemma remove_each (ks ents : list string) :
  NoDup ks -> (forall k, k ∈ ks -> k ∈ ents) ->
  foldl (fun f k => JS.splice1 f (JS.indexOf f (Some k))) ents ks = [] ->
  ents ≡ₚ ks.
Proof.
  revert ents. induction ks as [| k ks IH]; intros ents Hnd Hin; simpl.
  - intros ->. reflexivity.
  - apply NoDup_cons in Hnd as [Hk Hnd].
    destruct (list_elem_of_split_l ents k (Hin k (list_elem_of_here _ _)))
      as (l1 & l2 & -> & Hl1).
    rewrite indexOf_from_middle by exact Hl1. rewrite Z.add_0_l, splice1_middle.
    intros Hfold. rewrite <- Permutation_middle. constructor.
    apply IH; [exact Hnd | | exact Hfold].
    intros k' Hk'. specialize (Hin k' (list_elem_of_further _ _ _ Hk')).
    apply elem_of_app in Hin as [Hin | Hin]; [apply elem_of_app; left; exact Hin |].
    apply elem_of_cons in Hin as [-> | Hin]; [contradiction |].
    apply elem_of_app. right. exact Hin.
Qed.

Lemma foldl_by_key (key : Literal -> option string) (c : list Literal) (ks ents : list string) :
  key <$> c = Some <$> ks ->
  foldl (fun f l => JS.splice1 f (JS.indexOf f (key l))) ents c
  = foldl (fun f k => JS.splice1 f (JS.indexOf f (Some k))) ents ks.
Proof.
  revert ks ents. induction c as [| l c IH]; intros [| k ks] ents; simpl; try discriminate.
  - reflexivity.
  - intros [= Hl Hc]. rewrite Hl. apply IH. exact Hc.
Qed.

Lemma unmatched_fst (first second : list string) (c : Conjunction) :
  (unmatched first second c).1
  = foldl (fun f l => JS.splice1 f (JS.indexOf f (args l !! 0%nat))) first c.
Proof.
  unfold unmatched. revert first second.
  induction c as [| l c IH]; intros first second; simpl; [reflexivity | apply IH].
Qed.

Lemma unmatched_snd (first second : list string) (c : Conjunction) :
  (unmatched first second c).2
  = foldl (fun f l => JS.splice1 f (JS.indexOf f (args l !! 1%nat))) second c.
Proof.
  unfold unmatched. revert first second.
  induction c as [| l c IH]; intros first second; simpl; [reflexivity | apply IH].
Qed.

Lemma insertByIndex_Permutation {X} (k : N) (v : X) (l : list (N * X)) :
  (insertByIndex k v l).*2 ≡ₚ v :: l.*2.
Proof.
  induction l as [| [k' v'] rest IH]; simpl; [reflexivity |].
  case_bool_decide; simpl; [reflexivity |]. rewrite IH. apply Permutation_swap.
Qed.

(** [for ... in] visits every key once. *)
Lemma forInValues_Permutation {X} (object : list (string * X)) :
  forInValues object ≡ₚ object.*2.
Proof.
  unfold forInValues.
  rewrite <- (filter_app_complement (fun kv : string * X => arrayIndex kv.1 = None) object)
    at 3.
  rewrite fmap_app, (Permutation_app_comm (_ <$> filter _ object)).
  apply Permutation_app; [| reflexivity].
  induction object as [| [k v] rest IH]; simpl; [reflexivity |].
  destruct (arrayIndex k) as [n |] eqn:E.
  - rewrite filter_cons_True by (simpl; rewrite E; discriminate).
    rewrite insertByIndex_Permutation. simpl. constructor. exact IH.
  - rewrite filter_cons_False by (simpl; rewrite E; intros Hn; apply Hn; reflexivity).
    exact IH.
Qed.

Lemma filterR_elem {A} (f : A -> result bool) (a r : list A) (x : A) :
  filterR f a = Ok r -> x ∈ r -> f x = Ok true /\ x ∈ a.
Proof.
  revert r. induction a as [| y rest IH]; intros r; simpl.
  - intros [= <-] Hx. inversion Hx.
  - destruct (f y) as [b | err] eqn:E; simpl; [| discriminate].
    destruct (filterR f rest) as [r' | err]; simpl; [| discriminate].
    intros [= <-] Hx. destruct b.
    + apply elem_of_cons in Hx as [-> | Hx]; [split; [exact E | left] |].
      destruct (IH r' eq_refl Hx) as [Hf Hin]. split; [exact Hf | right; exact Hin].
    + destruct (IH r' eq_refl Hx) as [Hf Hin]. split; [exact Hf | right; exact Hin].
Qed.

Lemma cartesian_elem {X} (arg r : list (list X)) (c : list X) :
  cartesian arg = Ok r -> c ∈ r -> Forall2 (fun x group => x ∈ group) c arg.
Proof.
  unfold cartesian. destruct arg as [| group rest]; [discriminate |].
  intros Hr. assert (Hr' : cartesian_helper (group :: rest) [] [] = r) by congruence.
  clear Hr. subst r. rewrite cartesian_helper_spec by discriminate.
  rewrite app_nil_l. intros Hc. apply list_elem_of_fmap in Hc as (c' & -> & Hc).
  apply elem_of_selections. exact Hc.
Qed.

Lemma pushOwn_keys groups entity condition x :
  x ∈ (pushOwn groups entity condition).*1 -> x ∈ groups.*1 \/ x = entity.
Proof.
  induction groups as [| [key conditions] rest IH]; simpl.
  - intros Hx. apply list_elem_of_singleton in Hx. right. exact Hx.
  - case_bool_decide; simpl; [intros Hx; left; exact Hx |].
    intros Hx. apply elem_of_cons in Hx as [-> | Hx]; [left; left |].
    destruct (IH Hx) as [Hin | ->]; [left; right; exact Hin | right; reflexivity].
Qed.

Lemma pushOwn_groupedBy key ents groups entity condition :
  groupedBy key ents groups -> key condition = Some entity -> entity ∈ ents ->
  groupedBy key ents (pushOwn groups entity condition).
Proof.
  intros [Hnd Hg] Hkey Hin. induction groups as [| [k conditions] rest IH]; simpl.
  - split; [apply NoDup_singleton |]. apply Forall_singleton. simpl.
    split; [exact Hin | apply Forall_singleton, Hkey].
  - simpl in Hnd. apply NoDup_cons in Hnd as [Hk Hnd].
    apply Forall_cons in Hg as [[Hkin Hconds] Hg]. simpl in Hkin, Hconds.
    case_bool_decide as Heq.
    + subst k. split; [simpl; apply NoDup_cons; split; assumption |].
      apply Forall_cons. split; [| exact Hg]. simpl. split; [exact Hkin |].
      apply Forall_app. split; [exact Hconds | apply Forall_singleton, Hkey].
    + destruct (IH Hnd Hg) as [Hnd' Hg']. split.
      * simpl. apply NoDup_cons. split; [| exact Hnd'].
        intros Hx. apply pushOwn_keys in Hx as [Hx | Hx]; [contradiction | congruence].
      * apply Forall_cons. split; [split; assumption | exact Hg'].
Qed.

Lemma groupConditionsByEntity_groupedBy fromQuantifier ents interpretations groups :
  Forall (Forall (fun l => exists k, groupingArgument fromQuantifier l = Some k /\ k ∈ ents))
    interpretations ->
  groupConditionsByEntity fromQuantifier interpretations = Ok groups ->
  groupedBy (groupingArgument fromQuantifier) ents groups.
Proof.
  intros Hi. unfold groupConditionsByEntity.
  apply (forEach_inv (groupedBy (groupingArgument fromQuantifier) ents)).
  { split; [apply NoDup_nil_2 | constructor]. }
  intros g interpretation g' Hin Hg. cbv beta.
  destruct (interpretation !! 0%nat) as [condition |] eqn:E; simpl; [| discriminate].
  unfold groupPush. destruct (JS.inherited _); [discriminate |].
  intros [= <-].
  rewrite Forall_forall in Hi. specialize (Hi _ Hin). rewrite Forall_forall in Hi.
  destruct (Hi condition (list_elem_of_lookup_2 _ _ _ E)) as (k & Hk & Hkin).
  unfold groupingArgument in Hk. rewrite Hk. simpl.
  apply pushOwn_groupedBy; assumption.
Qed.

(** Each combination takes one literal from each group: its keys are
    distinct entities of [ents]. *)
Lemma combination_keys key ents groups combinations c :
  groupedBy key ents groups -> cartesian (forInValues groups) = Ok combinations ->
  c ∈ combinations ->
  exists ks, NoDup ks /\ (forall k, k ∈ ks -> k ∈ ents) /\ key <$> c = Some <$> ks.
Proof.
  intros [Hnd Hg] Hcart Hc.
  assert (H2 : Forall2 (fun g k => Forall (fun l => key l = Some k) g) groups.*2 groups.*1).
  { clear Hnd Hcart. induction groups as [| [k g] rest IH]; simpl; [constructor |].
    apply Forall_cons in Hg as [[_ Hk] Hg]. constructor; [exact Hk | apply IH, Hg]. }
  destruct (Permutation_Forall2 (Permutation_sym (forInValues_Permutation groups)) H2)
    as (ks & Hperm & Hks).
  exists ks. split; [rewrite <- Hperm; exact Hnd |]. split.
  - intros k Hk. rewrite <- Hperm in Hk. apply list_elem_of_fmap in Hk as ([k' g] & -> & Hkg).
    rewrite Forall_forall in Hg. apply (Hg _ Hkg).
  - pose proof (cartesian_elem _ _ _ Hcart Hc) as Hsel. clear Hcart Hc Hperm H2.
    revert ks Hks. induction Hsel as [| l g c gs Hl _ IH]; intros ks Hks.
    + inversion Hks. reflexivity.
    + inversion Hks as [| g' k gs' ks' Hgk Hrest]; subst. simpl.
      rewrite Forall_forall in Hgk. rewrite (Hgk l Hl). f_equal. apply IH, Hrest.
Qed.

Lemma pairInterpretations_pairs state relation first second f :
  pairInterpretations state relation first second = Ok f ->
  Forall (fun c => exists x y,
            c = [positiveLiteral relation x (Some y)] /\ x ∈ first /\ y ∈ second) f.
Proof.
  unfold pairInterpretations.
  apply (forEach_inv
           (Forall (fun c => exists x y,
                      c = [positiveLiteral relation x (Some y)] /\ x ∈ first /\ y ∈ second)));
    [constructor |].
  intros f1 _first f1' Hx Hf1.
  apply (forEach_inv
           (Forall (fun c => exists x y,
                      c = [positiveLiteral relation x (Some y)] /\ x ∈ first /\ y ∈ second)));
    [exact Hf1 |].
  intros f2 _second f2' Hy Hf2.
  destruct (isValid _ _ _ _) as [[|] | err]; simpl; [| intros [= <-]; exact Hf2 | discriminate].
  intros [= <-]. apply Forall_app. split; [exact Hf2 |].
  apply Forall_singleton. exists _first, _second. split; [reflexivity | split; assumption].
Qed.

(** The check "we got all entities matched by the all quantifier" for one
    [all]: the grouping arguments of a conjunction that passes are the
    entities that the quantifier ranges over, each once. *)
Lemma allQuantifierTreatment_covers state relation fromQuantifier toQuantifier first second
    interpretations f c :
  Forall (fun c => exists x y,
            c = [positiveLiteral relation x (Some y)] /\ x ∈ first /\ y ∈ second)
    interpretations ->
  bool_decide (fromQuantifier = "all") && bool_decide (toQuantifier = "all") = false ->
  fromQuantifier = "all" \/ toQuantifier = "all" ->
  allQuantifierTreatment state relation fromQuantifier toQuantifier false first (Some second)
    interpretations = Ok f ->
  c ∈ f ->
  groupingArgument fromQuantifier <$> c
  ≡ₚ Some <$> (if bool_decide (fromQuantifier = "all") then first else second).
Proof.
  intros Hi Hnot Hsome. unfold allQuantifierTreatment.
  match goal with |- (?m ≫= _) = _ -> _ => destruct m as [f1 | err] eqn:E1 end; simpl;
    [| discriminate].
  assert (H1 : forall c, c ∈ f1 ->
            exists ks, NoDup ks
              /\ (forall k, k ∈ ks ->
                    k ∈ if bool_decide (fromQuantifier = "all") then first else second)
              /\ groupingArgument fromQuantifier <$> c = Some <$> ks).
  { revert E1. cbn [negb andb].
    destruct (decide (JS.length interpretations > 0)) as [Hlen | Hlen];
      [rewrite (bool_decide_eq_true_2 _ Hlen) | rewrite (bool_decide_eq_false_2 _ Hlen)].
    - unfold allQuantifierValidator. rewrite Hnot.
      destruct (groupConditionsByEntity fromQuantifier interpretations) as [groups | err] eqn:Eg;
        simpl; [| discriminate].
      destruct (cartesian (forInValues groups)) as [combinations | err] eqn:Ec; simpl;
        [| discriminate].
      intros Hf1 c1 Hc1. apply filterR_sublist in Hf1.
      apply (combination_keys _ _ groups combinations c1);
        [| exact Ec | exact (elem_of_sublist _ _ _ Hc1 Hf1)].
      apply (groupConditionsByEntity_groupedBy _ _ interpretations); [| exact Eg].
      eapply Forall_impl; [exact Hi |]. intros c0 (x & y & -> & Hx & Hy).
      apply Forall_singleton. unfold groupingArgument, positiveLiteral. simpl.
      destruct (bool_decide (fromQuantifier = "all")); [exists x | exists y];
        split; try reflexivity; assumption.
    - intros [= <-] c1 Hc1. exfalso. destruct interpretations; [inversion Hc1 |].
      unfold JS.length in Hlen. simpl in Hlen. lia. }
  clear E1.
  match goal with |- (?m ≫= _) = _ -> _ => destruct m as [f2 | err] eqn:E2 end; simpl;
    [| discriminate].
  assert (H2 : f2 `sublist_of` f1).
  { revert E2. clear.
    repeat first [case_bool_decide | destruct (JS.among _ _)];
      simpl; intros [= <-]; first [reflexivity | apply sublist_nil_l]. }
  clear E2.
  match goal with |- (?m ≫= _) = _ -> _ => destruct m as [f3 | err] eqn:E3 end; simpl;
    [| discriminate].
  intros [= <-] Hc. apply list_elem_of_filter in Hc as [_ Hc].
  destruct (filterR_elem _ _ _ _ E3 Hc) as [Hcheck Hc2]. clear E3.
  destruct (H1 c (elem_of_sublist _ _ _ Hc2 H2)) as (ks & Hnd & Hks & Hkeys).
  rewrite Hkeys. apply fmap_Permutation. symmetry. apply remove_each; [exact Hnd | exact Hks |].
  rewrite <- (foldl_by_key _ c ks _ Hkeys).
  simpl in Hcheck. destruct (unmatched first second c) as [_first _second] eqn:Eu.
  injection Hcheck as Hcheck. apply andb_prop in Hcheck as [Hfrom Hto].
  unfold groupingArgument. destruct (decide (fromQuantifier = "all")) as [Hall | Hall].
  - rewrite bool_decide_eq_true_2 in Hfrom |- * by exact Hall.
    apply bool_decide_eq_true_1 in Hfrom.
    rewrite <- unmatched_fst with (second := second). rewrite Eu. simpl.
    destruct _first; [reflexivity | unfold JS.length in Hfrom; simpl in Hfrom; lia].
  - rewrite bool_decide_eq_false_2 by exact Hall.
    destruct Hsome as [Hall' | Hall']; [contradiction |].
    rewrite bool_decide_eq_true_2 in Hto by exact Hall'.
    apply bool_decide_eq_true_1 in Hto.
    rewrite <- unmatched_snd with (first := first). rewrite Eu. simpl.
    destruct _second; [reflexivity | unfold JS.length in Hto; simpl in Hto; lia].
Qed.

Lemma finishMoveOrPut_covers state e relation toQuantifier first second interpretations f :
  Forall (fun c => exists x y,
            c = [positiveLiteral relation x (Some y)] /\ x ∈ first /\ y ∈ second)
    interpretations ->
  finishMoveOrPut state "move" (Some e) relation toQuantifier false first (Some second)
    interpretations = Ok (Some f) ->
  (ent_quantifier e = "all" -> toQuantifier <> "all" ->
   forall c, c ∈ f -> (fun l => args l !! 0%nat) <$> c ≡ₚ Some <$> first)
  /\ (ent_quantifier e <> "all" -> toQuantifier = "all" ->
      forall c, c ∈ f -> (fun l => args l !! 1%nat) <$> c ≡ₚ Some <$> second).
Proof.
  intros Hi Hf.
  assert (Hcov : bool_decide (ent_quantifier e = "all") && bool_decide (toQuantifier = "all")
                 = false ->
                 ent_quantifier e = "all" \/ toQuantifier = "all" ->
                 forall c, c ∈ f ->
                   groupingArgument (ent_quantifier e) <$> c
                   ≡ₚ Some <$> (if bool_decide (ent_quantifier e = "all")
                                then first else second)).
  { intros Hnot Hsome c Hc. revert Hf. unfold finishMoveOrPut. simpl.
    replace (bool_decide (ent_quantifier e = "all") || bool_decide (toQuantifier = "all"))
      with true
      by (destruct Hsome as [H | H]; rewrite (bool_decide_eq_true_2 _ H);
          [reflexivity | symmetry; apply orb_true_r]).
    destruct (allQuantifierTreatment _ _ _ _ _ _ _ _) as [f1 | err] eqn:E1; simpl;
      [| discriminate].
    intros Hr. apply returnOrThrow_Some in Hr as [-> _].
    exact (allQuantifierTreatment_covers _ _ _ _ _ _ _ _ _ Hi Hnot Hsome E1 Hc). }
  split.
  - intros Hall Hto c Hc.
    specialize (Hcov ltac:(rewrite (bool_decide_eq_false_2 _ Hto); apply andb_false_r)
                     (or_introl Hall) c Hc).
    unfold groupingArgument in Hcov. rewrite (bool_decide_eq_true_2 _ Hall) in Hcov.
    exact Hcov.
  - intros Hfrom Hall c Hc.
    specialize (Hcov ltac:(rewrite (bool_decide_eq_false_2 _ Hfrom); reflexivity)
                     (or_intror Hall) c Hc).
    unfold groupingArgument in Hcov. rewrite (bool_decide_eq_false_2 _ Hfrom) in Hcov.
    exact Hcov.
Qed.

Lemma withoutRecursion_covers state e relation toQuantifier object f :
  (first ← getEntities state (ent_object e);
   second ← getEntities state object;
   interpretations ← pairInterpretations state relation first second;
   finishMoveOrPut state "move" (Some e) relation toQuantifier false first (Some second)
     interpretations) = Ok (Some f) ->
  (ent_quantifier e = "all" -> toQuantifier <> "all" ->
   exists first, getEntities state (ent_object e) = Ok first
     /\ forall c, c ∈ f -> (fun l => args l !! 0%nat) <$> c ≡ₚ Some <$> first)
  /\ (ent_quantifier e <> "all" -> toQuantifier = "all" ->
      exists second, getEntities state object = Ok second
        /\ forall c, c ∈ f -> (fun l => args l !! 1%nat) <$> c ≡ₚ Some <$> second).
Proof.
  destruct (getEntities state (ent_object e)) as [first | err] eqn:Hfirst;
    cbn [mbind result_bind]; [| discriminate].
  destruct (getEntities state object) as [second | err] eqn:Hsecond; cbn [mbind result_bind];
    [| discriminate].
  destruct (pairInterpretations state relation first second) as [interpretations | err] eqn:Hpair;
    cbn [mbind result_bind]; [| discriminate].
  intros Hfinish.
  destruct (finishMoveOrPut_covers _ _ _ _ _ _ _ _ (pairInterpretations_pairs _ _ _ _ _ Hpair)
              Hfinish) as [Ha Hb].
  split; intros H1 H2; [exists first | exists second]; split; auto.
Qed.

Lemma interpretMoveOrPut_covers state e relation toQuantifier object f :
  interpretMoveOrPut state "move" (Some e) relation toQuantifier object = Ok (Some f) ->
  (ent_quantifier e = "all" -> toQuantifier <> "all" ->
   exists first, getEntities state (ent_object e) = Ok first
     /\ forall c, c ∈ f -> (fun l => args l !! 0%nat) <$> c ≡ₚ Some <$> first)
  /\ (ent_quantifier e <> "all" -> toQuantifier = "all" ->
      exists second, getEntities state object = Ok second
        /\ forall c, c ∈ f -> (fun l => args l !! 1%nat) <$> c ≡ₚ Some <$> second).
Proof.
  destruct (decide (toQuantifier = "any")) as [Hany | Hany];
    destruct object as [psize pcolor pform | pobject prelation pquantifier ptarget].
  - exact (withoutRecursion_covers state e relation toQuantifier _ f).
  - subst toQuantifier. intros Hr. split.
    + intros Hall _. exfalso. revert Hr. apply nested_location_not_returned.
      right. split; [reflexivity |]. exists e. split; [reflexivity | exact Hall].
    + intros _ Hall. discriminate.
  - exact (withoutRecursion_covers state e relation toQuantifier _ f).
  - cbn [interpretMoveOrPut]. rewrite (bool_decide_eq_false_2 _ Hany).
    exact (withoutRecursion_covers state e relation toQuantifier _ f).
Qed.

(** The quantifier [all] on one side of a [move]: in every conjunction that
    [interpretCommand] returns for "move all X ... a/the Y", the first
    arguments of the literals are the entities that match X, each exactly
    once; for "move a/the X ... all Y" the second arguments are the entities
    that match Y, each exactly once. *)
Theorem all_quantifier_covers_every_entity state cmd e location f :
  cmd_command cmd = "move" -> cmd_entity cmd = Some e -> cmd_location cmd = Some location ->
  interpretCommand state cmd = Ok (Some f) ->
  (ent_quantifier e = "all" -> ent_quantifier (loc_entity location) <> "all" ->
   exists first, getEntities state (ent_object e) = Ok first
     /\ forall c, c ∈ f -> (fun l => args l !! 0%nat) <$> c ≡ₚ Some <$> first)
  /\ (ent_quantifier e <> "all" -> ent_quantifier (loc_entity location) = "all" ->
      exists second, getEntities state (ent_object (loc_entity location)) = Ok second
        /\ forall c, c ∈ f -> (fun l => args l !! 1%nat) <$> c ≡ₚ Some <$> second).
Proof.
  intros Hc He Hl. unfold interpretCommand. rewrite Hc, He, Hl.
  cbn [defined mbind result_bind].
  rewrite (bool_decide_eq_false_2 ("move" = "where")) by discriminate.
  rewrite (bool_decide_eq_false_2 ("move" = "drop")) by discriminate.
  rewrite (bool_decide_eq_false_2 ("move" = "take")) by discriminate.
  cbn [andb]. replace (JS.among (Some "move") ["move"; "put"]) with true by reflexivity.
  apply interpretMoveOrPut_covers.
Qed.

Lemma all_quantifier_covers_every_entity_witness :
  interpretCommand threeColumns moveAllBoxesLeftOfABall
  = Ok (Some [[mkLiteral true "leftof" ["b"; "a"]; mkLiteral true "leftof" ["c"; "a"]]])
  /\ exists first,
       getEntities threeColumns (ent_object allBoxes) = Ok first
       /\ forall c,
            c ∈ [[mkLiteral true "leftof" ["b"; "a"]; mkLiteral true "leftof" ["c"; "a"]]] ->
            (fun l => args l !! 0%nat) <$> c ≡ₚ Some <$> first.
Proof.
  assert (Hr : interpretCommand threeColumns moveAllBoxesLeftOfABall
               = Ok (Some [[mkLiteral true "leftof" ["b"; "a"];
                            mkLiteral true "leftof" ["c"; "a"]]]))
    by (vm_compute; reflexivity).
  split; [exact Hr |].
  apply (all_quantifier_covers_every_entity threeColumns moveAllBoxesLeftOfABall allBoxes
           leftOfABall _ eq_refl eq_refl eq_refl Hr); [reflexivity | discriminate].
Defined.
